(** * The reconciliation (sync) engine of the local-first data layer

    A shallow embedding of [src/hooks/useSync.ts] (flatten / reconstruct,
    the deletion-log applier, the per-table merge loop, the orphan safety
    net, the body of [manualSync] with its [catch], and the refresh) and of
    the push and delete stages of [src/hooks/useOnlineData.ts], followed by
    the properties of the specification that concern them.

    Conventions of the embedding.
    - A flat record is the TypeScript object with the properties the engine
      reads or writes as typed fields ([None] is [undefined]) and every
      other property in the finite map [rest].
    - A timestamp (a [Date], or the ISO string of one) is held as its time
      value in milliseconds, the number [new Date(x).getTime()] yields; the
      type leaves out values that are no valid date.
    - Record ids are strings, except in [site_finances], whose ids are
      numbers: such an id is held as the string a template literal prints
      for it, and its test against a set of strings is written out as
      false ([setHasId]).
    - A request to the remote store may fail: the answers of the store are
      part of the environment of a round ([RemoteAnswers]), and a run is
      the list of the effects issued up to the failure.
    - A JavaScript [Set] is a [gset]; a [Map] that is only queried is a
      [gmap]; the [Map] whose [values()] are read back in insertion order is
      an association list. *)

From Stdlib Require Import ZArith Lia.
From stdpp Require Import base option list strings gmap fin_maps sorting.

Local Open Scope Z_scope.

(** ** Data model ([src/types.ts], [FlatData] of [useOnlineData.ts]) *)

(** Values of the properties the engine only carries along. *)
Inductive jsval :=
| JNull
| JBool (b : bool)
| JNum (n : Z)
| JStr (s : string)
| JTime (ms : Z).

#[global] Instance jsval_eq_dec : EqDecision jsval.
Proof. solve_decision. Defined.

(** [CaseDocument.localState] *)
Inductive LocalState :=
| synced
| pending_upload
| pending_download
| error
| downloading.

#[global] Instance LocalState_eq_dec : EqDecision LocalState.
Proof. solve_decision. Defined.

(** The flat record.  The field [id] is the property [id] of the object;
    wherever [id] occurs below it is this projection. *)
Record item := mkItem {
  id : option string;
  name : option string;
  updated_at : option Z;
  client_id : option string;
  case_id : option string;
  stage_id : option string;
  invoice_id : option string;
  clientId : option string;
  caseId : option string;
  localState : option LocalState;
  isLocalOnly : option bool;
  rest : gmap string jsval
}.

#[global] Instance item_eq_dec : EqDecision item.
Proof. solve_decision. Defined.

(** The object with no property at all. *)
Definition emptyItem : item :=
  mkItem None None None None None None None None None None None ∅.

(** [{ ...it, client_id: v }] and its siblings. *)
Definition set_client_id (v : option string) (it : item) : item :=
  mkItem (id it) (name it) (updated_at it) v (case_id it) (stage_id it)
         (invoice_id it) (clientId it) (caseId it) (localState it)
         (isLocalOnly it) (rest it).

Definition set_case_id (v : option string) (it : item) : item :=
  mkItem (id it) (name it) (updated_at it) (client_id it) v (stage_id it)
         (invoice_id it) (clientId it) (caseId it) (localState it)
         (isLocalOnly it) (rest it).

Definition set_stage_id (v : option string) (it : item) : item :=
  mkItem (id it) (name it) (updated_at it) (client_id it) (case_id it) v
         (invoice_id it) (clientId it) (caseId it) (localState it)
         (isLocalOnly it) (rest it).

Definition set_invoice_id (v : option string) (it : item) : item :=
  mkItem (id it) (name it) (updated_at it) (client_id it) (case_id it)
         (stage_id it) v (clientId it) (caseId it) (localState it)
         (isLocalOnly it) (rest it).

Definition set_clientId (v : option string) (it : item) : item :=
  mkItem (id it) (name it) (updated_at it) (client_id it) (case_id it)
         (stage_id it) (invoice_id it) v (caseId it) (localState it)
         (isLocalOnly it) (rest it).

Definition set_caseId (v : option string) (it : item) : item :=
  mkItem (id it) (name it) (updated_at it) (client_id it) (case_id it)
         (stage_id it) (invoice_id it) (clientId it) v (localState it)
         (isLocalOnly it) (rest it).

Definition set_localState (v : option LocalState) (it : item) : item :=
  mkItem (id it) (name it) (updated_at it) (client_id it) (case_id it)
         (stage_id it) (invoice_id it) (clientId it) (caseId it) v
         (isLocalOnly it) (rest it).

Definition set_isLocalOnly (v : option bool) (it : item) : item :=
  mkItem (id it) (name it) (updated_at it) (client_id it) (case_id it)
         (stage_id it) (invoice_id it) (clientId it) (caseId it)
         (localState it) v (rest it).

Definition set_rest (m : gmap string jsval) (it : item) : item :=
  mkItem (id it) (name it) (updated_at it) (client_id it) (case_id it)
         (stage_id it) (invoice_id it) (clientId it) (caseId it)
         (localState it) (isLocalOnly it) m.

(** The nested domain graph: a parent holds its own properties and the
    array of its children. *)
Record Stage := mkStage { stage_item : item; sessions : list item }.
Record Case := mkCase { case_item : item; stages : list Stage }.
Record Client := mkClient { client_item : item; cases : list Case }.
Record Invoice := mkInvoice { invoice_item : item; items : list item }.

#[global] Instance Stage_eq_dec : EqDecision Stage.
Proof. solve_decision. Defined.
#[global] Instance Case_eq_dec : EqDecision Case.
Proof. solve_decision. Defined.
#[global] Instance Client_eq_dec : EqDecision Client.
Proof. solve_decision. Defined.
#[global] Instance Invoice_eq_dec : EqDecision Invoice.
Proof. solve_decision. Defined.

Record AppData := mkAppData {
  clients : list Client;
  adminTasks : list item;
  appointments : list item;
  accountingEntries : list item;
  invoices : list Invoice;
  assistants : list (option string);
  documents : list item;
  profiles : list item;
  siteFinances : list item
}.

#[global] Instance AppData_eq_dec : EqDecision AppData.
Proof. solve_decision. Defined.

(** [FlatData]: one sequence of flat records per table. *)
Record FlatData := mkFlat {
  f_clients : list item;
  f_cases : list item;
  f_stages : list item;
  f_sessions : list item;
  f_admin_tasks : list item;
  f_appointments : list item;
  f_accounting_entries : list item;
  f_assistants : list item;
  f_invoices : list item;
  f_invoice_items : list item;
  f_case_documents : list item;
  f_profiles : list item;
  f_site_finances : list item
}.

(** [keyof FlatData] *)
Inductive table :=
| T_clients | T_cases | T_stages | T_sessions | T_admin_tasks
| T_appointments | T_accounting_entries | T_assistants | T_invoices
| T_invoice_items | T_case_documents | T_profiles | T_site_finances.

#[global] Instance table_eq_dec : EqDecision table.
Proof. solve_decision. Defined.

(** [flat[key]] *)
Definition tbl (key : table) (d : FlatData) : list item :=
  match key with
  | T_clients => f_clients d
  | T_cases => f_cases d
  | T_stages => f_stages d
  | T_sessions => f_sessions d
  | T_admin_tasks => f_admin_tasks d
  | T_appointments => f_appointments d
  | T_accounting_entries => f_accounting_entries d
  | T_assistants => f_assistants d
  | T_invoices => f_invoices d
  | T_invoice_items => f_invoice_items d
  | T_case_documents => f_case_documents d
  | T_profiles => f_profiles d
  | T_site_finances => f_site_finances d
  end.

(** The object built by assigning [flat[key] = f key] for every key. *)
Definition flatOf (f : table → list item) : FlatData :=
  mkFlat (f T_clients) (f T_cases) (f T_stages) (f T_sessions)
         (f T_admin_tasks) (f T_appointments) (f T_accounting_entries)
         (f T_assistants) (f T_invoices) (f T_invoice_items)
         (f T_case_documents) (f T_profiles) (f T_site_finances).

(** [DeletedIds]: the pending local deletions. *)
Record DeletedIds := mkDeletedIds {
  d_clients : list string;
  d_cases : list string;
  d_stages : list string;
  d_sessions : list string;
  d_adminTasks : list string;
  d_appointments : list string;
  d_accountingEntries : list string;
  d_invoices : list string;
  d_invoiceItems : list string;
  d_assistants : list string;
  d_documents : list string;
  d_documentPaths : list string;
  d_profiles : list string;
  d_siteFinances : list string
}.

(** [SyncDeletion]: a row of the remote deletion log.  [deleted_at] is a
    non-empty ISO timestamp (the column defaults to [now()]), held as its
    time value. *)
Record SyncDeletion := mkSyncDeletion {
  table_name : string;
  record_id : string;
  deleted_at : Z
}.

(** ** Small pieces of JavaScript *)

(** [item.id ?? item.name] *)
Definition idOrName (it : item) : option string :=
  match id it with
  | Some i => Some i
  | None => name it
  end.

(** [new Date(x || 0).getTime()] *)
Definition timeOf (x : option Z) : Z := default 0 x.

(** Truthiness of an optional string and of an optional boolean. *)
Definition truthyStr (x : option string) : bool :=
  match x with
  | Some s => negb (bool_decide (s = ""))
  | None => false
  end.

Definition truthy (x : option bool) : bool :=
  match x with
  | Some b => b
  | None => false
  end.

(** [s.has(x)] for a set of strings and a possibly undefined [x]. *)
Definition hasStr (s : gset string) (x : option string) : bool :=
  match x with
  | Some v => bool_decide (v ∈ s)
  | None => false
  end.

(** [new Set(items.map(i => i.id))] *)
Definition idSet (l : list item) : gset (option string) :=
  list_to_set (id <$> l).

(** The template literal [`${tableName}:${id}`]. *)
Definition deletionKey (tableName : string) (i : option string) : string :=
  tableName +:+ ":" +:+ default "undefined" i.

(** ** Flattener and reconstructor *)

(** [const cases = data.clients.flatMap(c => c.cases.map(cs =>
    ({ ...cs, client_id: c.id })))] *)
Definition flatCases (data : AppData) : list Case :=
  clients data ≫= (λ c,
    (λ cs, mkCase (set_client_id (id (client_item c)) (case_item cs))
                  (stages cs)) <$> cases c).

(** [const stages = cases.flatMap(cs => cs.stages.map(st =>
    ({ ...st, case_id: cs.id })))] *)
Definition flatStages (data : AppData) : list Stage :=
  flatCases data ≫= (λ cs,
    (λ st, mkStage (set_case_id (id (case_item cs)) (stage_item st))
                   (sessions st)) <$> stages cs).

(** [const sessions = stages.flatMap(st => st.sessions.map(s =>
    ({ ...s, stage_id: st.id })))] *)
Definition flatSessions (data : AppData) : list item :=
  flatStages data ≫= (λ st,
    (λ s, set_stage_id (id (stage_item st)) s) <$> sessions st).

(** [const invoice_items = data.invoices.flatMap(inv => inv.items.map(item =>
    ({ ...item, invoice_id: inv.id })))] *)
Definition flatInvoiceItems (data : AppData) : list item :=
  invoices data ≫= (λ inv,
    (λ it, set_invoice_id (id (invoice_item inv)) it) <$> items inv).

Definition flattenData (data : AppData) : FlatData :=
  {| f_clients := client_item <$> clients data;
     f_cases := case_item <$> flatCases data;
     f_stages := stage_item <$> flatStages data;
     f_sessions := flatSessions data;
     f_admin_tasks := adminTasks data;
     f_appointments := appointments data;
     f_accounting_entries := accountingEntries data;
     f_assistants := (λ n, mkItem None n None None None None None
                                   None None None None ∅) <$> assistants data;
     f_invoices := invoice_item <$> invoices data;
     f_invoice_items := flatInvoiceItems data;
     f_case_documents := documents data;
     f_profiles := profiles data;
     f_site_finances := siteFinances data |}.

(** [if (!m.has(k)) m.set(k, []); m.get(k).push(x)] *)
Definition groupPush {A} (k : option string) (x : A)
    (m : gmap (option string) (list A)) : gmap (option string) (list A) :=
  <[k := default [] (m !! k) ++ [x]]> m.

(** [m.get(k) || []] *)
Definition groupGet {A} (m : gmap (option string) (list A))
    (k : option string) : list A :=
  default [] (m !! k).

(** [constructData].  Its callers pass all thirteen tables, so that the
    [flatData.x || []] of the source always take [flatData.x]. *)
Definition constructData (flatData : FlatData) : AppData :=
  let sessionMap :=
    foldl (λ m s, groupPush (stage_id s) s m) ∅ (f_sessions flatData) in
  let stageMap :=
    foldl (λ m st, groupPush (case_id st)
                     (mkStage st (groupGet sessionMap (id st))) m)
          ∅ (f_stages flatData) in
  let caseMap :=
    foldl (λ m cs, groupPush (client_id cs)
                     (mkCase cs (groupGet stageMap (id cs))) m)
          ∅ (f_cases flatData) in
  let invoiceItemMap :=
    foldl (λ m it, groupPush (invoice_id it) it m)
          ∅ (f_invoice_items flatData) in
  {| clients := (λ c, mkClient c (groupGet caseMap (id c)))
                  <$> f_clients flatData;
     adminTasks := f_admin_tasks flatData;
     appointments := f_appointments flatData;
     accountingEntries := f_accounting_entries flatData;
     assistants := name <$> f_assistants flatData;
     invoices := (λ inv, mkInvoice inv (groupGet invoiceItemMap (id inv)))
                   <$> f_invoices flatData;
     documents := f_case_documents flatData;
     profiles := f_profiles flatData;
     siteFinances := f_site_finances flatData |}.

(** ** Deletion-log applier *)

(** [deletions.forEach(d => deletionMap.set(`${d.table_name}:${d.record_id}`,
    d.deleted_at))] *)
Definition buildDeletionMap (deletions : list SyncDeletion) : gmap string Z :=
  foldl (λ m d, <[table_name d +:+ ":" +:+ record_id d := deleted_at d]> m)
        ∅ deletions.

(** The predicate of [filterItems]: [false] removes the record. *)
Definition keepItem (deletionMap : gmap string Z) (tableName : string)
    (it : item) : bool :=
  match deletionMap !! deletionKey tableName (idOrName it) with
  | Some deletedAt =>
      if timeOf (updated_at it) <? deletedAt + 2000 then false else true
  | None => true
  end.

Definition filterItems (deletionMap : gmap string Z) (l : list item)
    (tableName : string) : list item :=
  filter (λ it, keepItem deletionMap tableName it) l.

(** The callback mapped over [case_documents]: [None] is [null]. *)
Definition applyDeletionToDoc (deletionMap : gmap string Z) (doc : item)
    : option item :=
  match deletionMap !! deletionKey "case_documents" (id doc) with
  | Some deletedAt =>
      if timeOf (updated_at doc) <? deletedAt + 2000 then
        if bool_decide (localState doc = Some synced)
           || truthy (isLocalOnly doc)
        then Some (set_isLocalOnly (Some true) doc)
        else None
      else Some doc
  | None => Some doc
  end.

Definition applyDeletionsToLocal (localFlatData : FlatData)
    (deletions : list SyncDeletion) : FlatData :=
  match deletions with
  | [] => localFlatData
  | _ =>
    let deletionMap := buildDeletionMap deletions in
    let filteredClients :=
      filterItems deletionMap (f_clients localFlatData) "clients" in
    let clientIds := idSet filteredClients in
    let filteredCases :=
      filter (λ c, bool_decide (client_id c ∈ clientIds))
             (filterItems deletionMap (f_cases localFlatData) "cases") in
    let caseIds := idSet filteredCases in
    let filteredStages :=
      filter (λ s, bool_decide (case_id s ∈ caseIds))
             (filterItems deletionMap (f_stages localFlatData) "stages") in
    let stageIds := idSet filteredStages in
    let filteredSessions :=
      filter (λ s, bool_decide (stage_id s ∈ stageIds))
             (filterItems deletionMap (f_sessions localFlatData) "sessions") in
    let filteredInvoices :=
      filter (λ i, bool_decide (client_id i ∈ clientIds))
             (filterItems deletionMap (f_invoices localFlatData) "invoices") in
    let invoiceIds := idSet filteredInvoices in
    let filteredInvoiceItems :=
      filter (λ i, bool_decide (invoice_id i ∈ invoiceIds))
             (filterItems deletionMap (f_invoice_items localFlatData)
                          "invoice_items") in
    let filteredDocs :=
      filter (λ d, bool_decide (caseId d ∈ caseIds))
             (omap (applyDeletionToDoc deletionMap)
                   (f_case_documents localFlatData)) in
    let filteredEntries :=
      filter (λ e, negb (truthyStr (clientId e))
                   || bool_decide (clientId e ∈ clientIds))
             (filterItems deletionMap (f_accounting_entries localFlatData)
                          "accounting_entries") in
    {| f_clients := filteredClients;
       f_cases := filteredCases;
       f_stages := filteredStages;
       f_sessions := filteredSessions;
       f_admin_tasks :=
         filterItems deletionMap (f_admin_tasks localFlatData) "admin_tasks";
       f_appointments :=
         filterItems deletionMap (f_appointments localFlatData) "appointments";
       f_accounting_entries := filteredEntries;
       f_assistants :=
         filterItems deletionMap (f_assistants localFlatData) "assistants";
       f_invoices := filteredInvoices;
       f_invoice_items := filteredInvoiceItems;
       f_case_documents := filteredDocs;
       f_profiles := f_profiles localFlatData;
       f_site_finances :=
         filterItems deletionMap (f_site_finances localFlatData)
                     "site_finances" |}
  end.

(** ** Merge engine: the per-table loop of [manualSync] *)

(** Keys of [DeletedIds] that name a table ([documentPaths] apart). *)
Inductive entity :=
| E_clients | E_cases | E_stages | E_sessions | E_adminTasks
| E_appointments | E_accountingEntries | E_invoices | E_invoiceItems
| E_assistants | E_documents | E_profiles | E_siteFinances.

(** [deletedIdsSets[e]] *)
Definition deletedIdsSets (deletedIds : DeletedIds) (e : entity)
    : gset string :=
  list_to_set
    match e with
    | E_clients => d_clients deletedIds
    | E_cases => d_cases deletedIds
    | E_stages => d_stages deletedIds
    | E_sessions => d_sessions deletedIds
    | E_adminTasks => d_adminTasks deletedIds
    | E_appointments => d_appointments deletedIds
    | E_accountingEntries => d_accountingEntries deletedIds
    | E_invoices => d_invoices deletedIds
    | E_invoiceItems => d_invoiceItems deletedIds
    | E_assistants => d_assistants deletedIds
    | E_documents => d_documents deletedIds
    | E_profiles => d_profiles deletedIds
    | E_siteFinances => d_siteFinances deletedIds
    end.

(** The translation of a table key into a deletion-set key. *)
Definition entityKey (key : table) : entity :=
  match key with
  | T_admin_tasks => E_adminTasks
  | T_accounting_entries => E_accountingEntries
  | T_invoice_items => E_invoiceItems
  | T_case_documents => E_documents
  | T_site_finances => E_siteFinances
  | T_clients => E_clients
  | T_cases => E_cases
  | T_stages => E_stages
  | T_sessions => E_sessions
  | T_appointments => E_appointments
  | T_assistants => E_assistants
  | T_invoices => E_invoices
  | T_profiles => E_profiles
  end.

(** [new Map(items.map(i => [i.id ?? i.name, i]))]: a later entry replaces
    an earlier one with the same key. *)
Definition itemMap (l : list item) : gmap (option string) item :=
  foldl (λ m i, <[idOrName i := i]> m) ∅ l.

(** [finalMergedItems.set(k, v)] on the insertion-ordered map: an existing
    key keeps its position. *)
Fixpoint mapSet (k : option string) (v : item)
    (m : list (option string * item)) : list (option string * item) :=
  match m with
  | [] => [(k, v)]
  | (k', v') :: m' =>
      if decide (k' = k) then (k, v) :: m' else (k', v') :: mapSet k v m'
  end.

Fixpoint mapGet (k : option string) (m : list (option string * item))
    : option item :=
  match m with
  | [] => None
  | (k', v') :: m' => if decide (k' = k) then Some v' else mapGet k m'
  end.

(** The five [if (key === ... && deletedIdsSets....has(...))] tests. *)
Definition isParentDeleted (key : table) (deletedIds : DeletedIds)
    (localItem : item) : bool :=
  match key with
  | T_cases => hasStr (deletedIdsSets deletedIds E_clients) (client_id localItem)
  | T_stages => hasStr (deletedIdsSets deletedIds E_cases) (case_id localItem)
  | T_sessions =>
      hasStr (deletedIdsSets deletedIds E_stages) (stage_id localItem)
  | T_invoice_items =>
      hasStr (deletedIdsSets deletedIds E_invoices) (invoice_id localItem)
  | T_case_documents =>
      hasStr (deletedIdsSets deletedIds E_cases) (caseId localItem)
  | _ => false
  end.

(** State of the loop: [finalMergedItems] and [itemsToUpsert]. *)
Definition mergeState : Type := list (option string * item) * list item.

(** One iteration of [for (const localItem of localItems)]. *)
Definition mergeLocalItem (key : table) (deletedIds : DeletedIds)
    (remoteMap : gmap (option string) item) (st : mergeState)
    (localItem : item) : mergeState :=
  let k := idOrName localItem in
  if isParentDeleted key deletedIds localItem then st
  else
    match remoteMap !! k with
    | Some remoteItem =>
        if timeOf (updated_at localItem) >? timeOf (updated_at remoteItem)
        then (mapSet k localItem st.1, st.2 ++ [localItem])
        else (mapSet k remoteItem st.1, st.2)
    | None =>
        if bool_decide (key = T_case_documents)
           && bool_decide (localState localItem = Some synced)
           && negb (hasStr (deletedIdsSets deletedIds E_documents) k)
        then (mapSet k (set_isLocalOnly (Some true) localItem) st.1, st.2)
        else (mapSet k localItem st.1, st.2 ++ [localItem])
    end.

(** [deletedSet.has(id)] for the key of a record of the table.  The sets
    of pending deletions hold strings.  The ids of [site_finances] are
    numbers ([SiteFinancialEntry.id: number], a [bigint] column): the field
    [id] holds their decimal form, which is what the template string of the
    deletion map prints, and no set of strings has a number. *)
Definition setHasId (key : table) (deletedSet : gset string)
    (k : option string) : bool :=
  if bool_decide (key = T_site_finances) then false else hasStr deletedSet k.

(** One iteration of [for (const remoteItem of remoteItems)]. *)
Definition mergeRemoteItem (key : table) (deletedIds : DeletedIds)
    (localMap : gmap (option string) item)
    (final : list (option string * item)) (remoteItem : item)
    : list (option string * item) :=
  let k := idOrName remoteItem in
  match localMap !! k with
  | Some _ => final
  | None =>
      if setHasId key (deletedIdsSets deletedIds (entityKey key)) k then final
      else mapSet k remoteItem final
  end.

(** [for (const localItem of localItems) { ... }], from the empty
    [finalMergedItems] and [itemsToUpsert]. *)
Definition localLoop (key : table) (deletedIds : DeletedIds)
    (localItems remoteItems : list item) : mergeState :=
  foldl (mergeLocalItem key deletedIds (itemMap remoteItems)) ([], [])
        localItems.

(** [for (const remoteItem of remoteItems) { ... }], on the
    [finalMergedItems] the first loop leaves. *)
Definition remoteLoop (key : table) (deletedIds : DeletedIds)
    (localItems remoteItems : list item) : list (option string * item) :=
  foldl (mergeRemoteItem key deletedIds (itemMap localItems))
        (localLoop key deletedIds localItems remoteItems).1 remoteItems.

(** The body of [for (const key of Object.keys(localFlatData))]:
    [(itemsToUpsert, Array.from(finalMergedItems.values()))]. *)
Definition mergeTable (key : table) (deletedIds : DeletedIds)
    (localItems remoteItems : list item) : list item * list item :=
  ((localLoop key deletedIds localItems remoteItems).2,
   (remoteLoop key deletedIds localItems remoteItems).*2).

Definition mergeUpserts (deletedIds : DeletedIds)
    (localFlatData remoteFlatData : FlatData) : FlatData :=
  flatOf (λ key, (mergeTable key deletedIds (tbl key localFlatData)
                             (tbl key remoteFlatData)).1).

Definition mergeMerged (deletedIds : DeletedIds)
    (localFlatData remoteFlatData : FlatData) : FlatData :=
  flatOf (λ key, (mergeTable key deletedIds (tbl key localFlatData)
                             (tbl key remoteFlatData)).2).

(** ** Orphan safety net *)

(** [new Set([...remote.map(x => x.id), ...upserts.map(x => x.id)])] *)
Definition validIds (remoteItems upsertItems : list item)
    : gset (option string) :=
  list_to_set ((id <$> remoteItems) ++ (id <$> upsertItems)).

(** The safety net rewrites [flatUpserts] and [mergedFlatData] in place;
    the result is the pair [(flatUpserts, mergedFlatData)]. *)
Definition orphanSafetyNet (remoteFlatData flatUpserts mergedFlatData : FlatData)
    : FlatData * FlatData :=
  let validClientIds :=
    validIds (f_clients remoteFlatData) (f_clients flatUpserts) in
  let upCases :=
    filter (λ c, bool_decide (client_id c ∈ validClientIds))
           (f_cases flatUpserts) in
  let validCaseIds := validIds (f_cases remoteFlatData) upCases in
  let upStages :=
    filter (λ s, bool_decide (case_id s ∈ validCaseIds))
           (f_stages flatUpserts) in
  let validStageIds := validIds (f_stages remoteFlatData) upStages in
  let upSessions :=
    filter (λ s, bool_decide (stage_id s ∈ validStageIds))
           (f_sessions flatUpserts) in
  let mCases :=
    filter (λ c, bool_decide (client_id c ∈ validClientIds))
           (f_cases mergedFlatData) in
  let mStages :=
    filter (λ s, bool_decide (case_id s ∈ validCaseIds))
           (f_stages mergedFlatData) in
  let mSessions :=
    filter (λ s, bool_decide (stage_id s ∈ validStageIds))
           (f_sessions mergedFlatData) in
  let mDocs :=
    filter (λ doc, bool_decide (caseId doc ∈ validCaseIds))
           (f_case_documents mergedFlatData) in
  let upDocs :=
    filter (λ doc, bool_decide (caseId doc ∈ validCaseIds))
           (f_case_documents flatUpserts) in
  ({| f_clients := f_clients flatUpserts;
      f_cases := upCases;
      f_stages := upStages;
      f_sessions := upSessions;
      f_admin_tasks := f_admin_tasks flatUpserts;
      f_appointments := f_appointments flatUpserts;
      f_accounting_entries := f_accounting_entries flatUpserts;
      f_assistants := f_assistants flatUpserts;
      f_invoices := f_invoices flatUpserts;
      f_invoice_items := f_invoice_items flatUpserts;
      f_case_documents := upDocs;
      f_profiles := f_profiles flatUpserts;
      f_site_finances := f_site_finances flatUpserts |},
   {| f_clients := f_clients mergedFlatData;
      f_cases := mCases;
      f_stages := mStages;
      f_sessions := mSessions;
      f_admin_tasks := f_admin_tasks mergedFlatData;
      f_appointments := f_appointments mergedFlatData;
      f_accounting_entries := f_accounting_entries mergedFlatData;
      f_assistants := f_assistants mergedFlatData;
      f_invoices := f_invoices mergedFlatData;
      f_invoice_items := f_invoice_items mergedFlatData;
      f_case_documents := mDocs;
      f_profiles := f_profiles mergedFlatData;
      f_site_finances := f_site_finances mergedFlatData |}).

(** The merge engine followed by the safety net:
    [(flatUpserts, mergedFlatData)] as they stand before the remote calls. *)
Definition mergeAll (deletedIds : DeletedIds)
    (localFlatData remoteFlatData : FlatData) : FlatData * FlatData :=
  orphanSafetyNet remoteFlatData
    (mergeUpserts deletedIds localFlatData remoteFlatData)
    (mergeMerged deletedIds localFlatData remoteFlatData).

(** ** Field renaming between the remote and the local naming *)

(** [{ ...m, k: v }], an undefined [v] leaving [k] undefined. *)
Definition setProp (k : string) (v : option jsval) (m : gmap string jsval)
    : gmap string jsval :=
  match v with
  | Some x => <[k := x]> m
  | None => delete k m
  end.

(** [({ o1, o2, ..., ...r }) => ({ ...r, n1: o1, n2: o2, ... })] on the
    carried properties. *)
Definition renameProps (pairs : list (string * string))
    (m : gmap string jsval) : gmap string jsval :=
  foldl (λ acc p, setProp p.2 (m !! p.1) acc)
        (foldr (λ p acc, delete p.1 acc) m pairs) pairs.

(** [(s) => ({ k1: s.k1, k2: s.k2, ... })] on the carried properties. *)
Definition pickProps (keys : list string) (m : gmap string jsval)
    : gmap string jsval :=
  foldl (λ acc k, setProp k (m !! k) acc) ∅ keys.

Definition renameRest (pairs : list (string * string)) (it : item) : item :=
  set_rest (renameProps pairs (rest it)) it.

(** [client_id -> clientId, case_id -> caseId] and back. *)
Definition refsToLocal (it : item) : item :=
  set_clientId (client_id it)
    (set_caseId (case_id it) (set_client_id None (set_case_id None it))).

Definition refsToRemote (it : item) : item :=
  set_client_id (clientId it)
    (set_case_id (caseId it) (set_clientId None (set_caseId None it))).

(** [transformRemoteToLocal], one table at a time. *)
Definition remoteToLocal (key : table) (r : item) : item :=
  match key with
  | T_clients => renameRest [("contact_info", "contactInfo")] r
  | T_cases =>
      renameRest [("client_name", "clientName");
                  ("opponent_name", "opponentName");
                  ("fee_agreement", "feeAgreement")] r
  | T_stages =>
      renameRest [("case_number", "caseNumber");
                  ("first_session_date", "firstSessionDate");
                  ("decision_date", "decisionDate");
                  ("decision_number", "decisionNumber");
                  ("decision_summary", "decisionSummary");
                  ("decision_notes", "decisionNotes")] r
  | T_sessions =>
      renameRest [("case_number", "caseNumber");
                  ("client_name", "clientName");
                  ("opponent_name", "opponentName");
                  ("postponement_reason", "postponementReason");
                  ("next_postponement_reason", "nextPostponementReason");
                  ("is_postponed", "isPostponed");
                  ("next_session_date", "nextSessionDate")] r
  | T_admin_tasks =>
      renameRest [("due_date", "dueDate"); ("order_index", "orderIndex")] r
  | T_appointments =>
      renameRest [("reminder_time_in_minutes", "reminderTimeInMinutes")] r
  | T_accounting_entries =>
      renameRest [("client_name", "clientName")] (refsToLocal r)
  | T_assistants =>
      mkItem None (name r) None None None None None None None None None ∅
  | T_invoices =>
      renameRest [("client_name", "clientName");
                  ("case_subject", "caseSubject");
                  ("issue_date", "issueDate");
                  ("due_date", "dueDate");
                  ("tax_rate", "taxRate")] (refsToLocal r)
  | T_invoice_items => r
  | T_case_documents =>
      renameRest [("user_id", "userId"); ("added_at", "addedAt");
                  ("storage_path", "storagePath")]
                 (set_caseId (case_id r) (set_case_id None r))
  | T_profiles => r
  | T_site_finances => r
  end.

Definition transformRemoteToLocal (remote : FlatData) : FlatData :=
  flatOf (λ key, remoteToLocal key <$> tbl key remote).

(** ** Remote push stage: [upsertDataToSupabase] *)

Definition withUser (userId : string) (it : item) : item :=
  set_rest (<["user_id" := JStr userId]> (rest it)) it.

(** [data.case_documents?.filter(doc => !doc.isLocalOnly)] *)
Definition documentsToUpsert (data : FlatData) : list item :=
  filter (λ doc, negb (truthy (isLocalOnly doc))) (f_case_documents data).

(** The [case_documents] mapping of [dataToUpsert]. *)
Definition documentRow (userId : string) (doc : item) : item :=
  withUser userId
    (renameRest [("addedAt", "added_at"); ("storagePath", "storage_path")]
       (set_rest (delete "userId" (rest doc))
          (set_case_id (caseId doc)
             (set_caseId None
                (set_localState None (set_isLocalOnly None doc)))))).

(** The [sessions] mapping: the listed properties and nothing else. *)
Definition sessionRow (userId : string) (s : item) : item :=
  withUser userId
    (mkItem (id s) None (updated_at s) None None (stage_id s) None None None
            None None
            (pickProps ["court"; "case_number"; "date"; "client_name";
                        "opponent_name"; "postponement_reason";
                        "next_postponement_reason"; "is_postponed";
                        "next_session_date"; "assignee"] (rest s))).

(** [dataToUpsert[key]] *)
Definition rowsToUpsert (userId : string) (data : FlatData) (key : table)
    : list item :=
  match key with
  | T_clients =>
      (λ c, withUser userId (renameRest [("contactInfo", "contact_info")] c))
        <$> f_clients data
  | T_cases =>
      (λ c, withUser userId
              (renameRest [("clientName", "client_name");
                           ("opponentName", "opponent_name");
                           ("feeAgreement", "fee_agreement")] c))
        <$> f_cases data
  | T_stages =>
      (λ s, withUser userId
              (renameRest [("caseNumber", "case_number");
                           ("firstSessionDate", "first_session_date");
                           ("decisionDate", "decision_date");
                           ("decisionNumber", "decision_number");
                           ("decisionSummary", "decision_summary");
                           ("decisionNotes", "decision_notes")] s))
        <$> f_stages data
  | T_sessions => sessionRow userId <$> f_sessions data
  | T_admin_tasks =>
      (λ t, withUser userId
              (renameRest [("dueDate", "due_date");
                           ("orderIndex", "order_index")] t))
        <$> f_admin_tasks data
  | T_appointments =>
      (λ a, withUser userId
              (renameRest [("reminderTimeInMinutes",
                            "reminder_time_in_minutes")] a))
        <$> f_appointments data
  | T_accounting_entries =>
      (λ e, withUser userId
              (renameRest [("clientName", "client_name")] (refsToRemote e)))
        <$> f_accounting_entries data
  | T_assistants => withUser userId <$> f_assistants data
  | T_invoices =>
      (λ i, withUser userId
              (renameRest [("clientName", "client_name");
                           ("caseSubject", "case_subject");
                           ("issueDate", "issue_date");
                           ("dueDate", "due_date");
                           ("taxRate", "tax_rate")] (refsToRemote i)))
        <$> f_invoices data
  | T_invoice_items => withUser userId <$> f_invoice_items data
  | T_case_documents => documentRow userId <$> documentsToUpsert data
  | T_profiles => f_profiles data
  | T_site_finances => f_site_finances data
  end.

(** The remote table a key names. *)
Definition tableName (key : table) : string :=
  match key with
  | T_clients => "clients"
  | T_cases => "cases"
  | T_stages => "stages"
  | T_sessions => "sessions"
  | T_admin_tasks => "admin_tasks"
  | T_appointments => "appointments"
  | T_accounting_entries => "accounting_entries"
  | T_assistants => "assistants"
  | T_invoices => "invoices"
  | T_invoice_items => "invoice_items"
  | T_case_documents => "case_documents"
  | T_profiles => "profiles"
  | T_site_finances => "site_finances"
  end.

(** [upsertTable(table, records)]: no request for an empty array. *)
Definition upsertTable (key : table) (records : list item)
    : list (string * list item) :=
  match records with
  | [] => []
  | _ => [(tableName key, records)]
  end.

(** The order in which [upsertDataToSupabase] calls [upsertTable]. *)
Definition upsertOrder : list table :=
  [T_profiles; T_assistants; T_clients; T_cases; T_stages; T_sessions;
   T_invoices; T_invoice_items; T_case_documents; T_admin_tasks;
   T_appointments; T_accounting_entries; T_site_finances].

(** [arr.length === 0] *)
Definition isEmpty {A} (l : list A) : bool :=
  match l with
  | [] => true
  | _ => false
  end.

(** *** Requests that fail

    A request to the remote store comes back with an error or without one;
    [upsertTable] and the hard delete throw on an error, and the [catch] of
    the orchestrator reads from the message only whether it names a missing
    column or relation. *)
Inductive RemoteError :=
| MissingSchema
| OtherError.

(** [for (const key of order) { await request(key) }], each failing request
    throwing: the requests issued, the failing one included, and the error
    that stopped the loop.  A table with nothing to send issues no request
    and cannot fail. *)
Fixpoint awaitEach {A} (request : table → list A)
    (failure : table → option RemoteError) (order : list table)
    : list A * option RemoteError :=
  match order with
  | [] => ([], None)
  | key :: order' =>
      match (if isEmpty (request key) then None else failure key) with
      | Some err => (request key, Some err)
      | None =>
          let rest := awaitEach request failure order' in
          (request key ++ rest.1, rest.2)
      end
  end.

(** [await Promise.all(order.map(request))]: every request is issued, and
    the call throws when one of them fails (with several failures the one
    reported depends on timing; the first in order stands for it). *)
Definition awaitAll {A} (request : table → list A)
    (failure : table → option RemoteError) (order : list table)
    : list A * option RemoteError :=
  (order ≫= request,
   head (omap (λ key, if isEmpty (request key) then None else failure key)
              order)).

(** The tables [upsertDataToSupabase] awaits one after the other, and those
    it then sends together; [upsertOrder] is the first list followed by the
    second. *)
Definition awaitedUpserts : list table :=
  [T_profiles; T_assistants; T_clients; T_cases; T_stages; T_sessions;
   T_invoices; T_invoice_items; T_case_documents].

Definition parallelUpserts : list table :=
  [T_admin_tasks; T_appointments; T_accounting_entries; T_site_finances].

(** The upsert requests [upsertDataToSupabase(data, user)] sends to the
    remote store, in order, each with the rows it carries, and the error it
    throws if one of them fails; [failure] is the answer of the remote store
    to the request on each table. *)
Definition upsertDataToSupabase (failure : table → option RemoteError)
    (data : FlatData) (userId : string)
    : list (string * list item) * option RemoteError :=
  let request key := upsertTable key (rowsToUpsert userId data key) in
  let awaited := awaitEach request failure awaitedUpserts in
  match awaited.2 with
  | Some err => awaited
  | None =>
      let parallel := awaitAll request failure parallelUpserts in
      (awaited.1 ++ parallel.1, parallel.2)
  end.

(** ** Remote delete stage: [deleteDataFromSupabase] *)

Inductive SyncStatus :=
| S_loading | S_syncing | S_synced | S_error | S_unconfigured
| S_uninitialized.

(** What a sync round does to the outside: status reports, calls on the
    remote store and the two callbacks of the caller. *)
Inductive effect :=
| SetStatus (s : SyncStatus)
| StorageRemove (paths : list string)
| LogDeletions (table : string) (ids : list (option string))
| RemoteDelete (table : string) (ids : list (option string))
| RemoteUpsert (table : string) (rows : list item)
| OnDataSynced (mergedData : AppData)
| OnDeletionsSynced (syncedDeletions : DeletedIds).

Definition deletionOrder : list table :=
  [T_case_documents; T_invoice_items; T_sessions; T_stages; T_cases;
   T_invoices; T_admin_tasks; T_appointments; T_accounting_entries;
   T_assistants; T_clients; T_site_finances; T_profiles].

(** The body of the loop for one table: the deletion-log entry (a failure
    of which is only warned about), then the hard delete. *)
Definition deleteRequests (deletions : FlatData) (key : table) : list effect :=
  match tbl key deletions with
  | [] => []
  | itemsToDelete =>
      let ids :=
        (if bool_decide (key = T_assistants) then name else id)
          <$> itemsToDelete in
      (if bool_decide (key = T_profiles) then []
       else [LogDeletions (tableName key) ids])
      ++ [RemoteDelete (tableName key) ids]
  end.

(** The requests [deleteDataFromSupabase(deletions, user)] issues and the
    error it throws if a hard delete fails; [failure] is the answer of the
    remote store to the hard delete on each table. *)
Definition deleteDataFromSupabase (failure : table → option RemoteError)
    (deletions : FlatData) : list effect * option RemoteError :=
  awaitEach (deleteRequests deletions) failure deletionOrder.

(** ** Sync orchestrator: the [try] and [catch] blocks of [manualSync] *)

Definition getInitialDeletedIds : DeletedIds :=
  mkDeletedIds [] [] [] [] [] [] [] [] [] [] [] [] [] [].

Definition isLocalEffectivelyEmpty (localFlatData : FlatData) : bool :=
  isEmpty (f_clients localFlatData)
  && isEmpty (f_admin_tasks localFlatData)
  && isEmpty (f_appointments localFlatData)
  && isEmpty (f_accounting_entries localFlatData)
  && isEmpty (f_invoices localFlatData)
  && isEmpty (f_case_documents localFlatData).

(** [Object.values(deletedIds)] *)
Definition deletedIdsValues (deletedIds : DeletedIds) : list (list string) :=
  [d_clients deletedIds; d_cases deletedIds; d_stages deletedIds;
   d_sessions deletedIds; d_adminTasks deletedIds; d_appointments deletedIds;
   d_accountingEntries deletedIds; d_invoices deletedIds;
   d_invoiceItems deletedIds; d_assistants deletedIds; d_documents deletedIds;
   d_documentPaths deletedIds; d_profiles deletedIds;
   d_siteFinances deletedIds].

Definition hasPendingDeletions (deletedIds : DeletedIds) : bool :=
  existsb (λ arr, negb (isEmpty arr)) (deletedIdsValues deletedIds).

Definition allTables : list table :=
  [T_clients; T_cases; T_stages; T_sessions; T_admin_tasks; T_appointments;
   T_accounting_entries; T_assistants; T_invoices; T_invoice_items;
   T_case_documents; T_profiles; T_site_finances].

(** [Object.values(flat).every(arr => arr.length === 0)] *)
Definition isRemoteEffectivelyEmpty (remoteDataRaw : FlatData) : bool :=
  forallb (λ key, isEmpty (tbl key remoteDataRaw)) allTables.

Definition idOnly (i : string) : item :=
  mkItem (Some i) None None None None None None None None None None ∅.

Definition nameOnly (n : string) : item :=
  mkItem None (Some n) None None None None None None None None None ∅.

(** [flatDeletes]; it has no [profiles] entry. *)
Definition flatDeletesOf (deletedIds : DeletedIds) : FlatData :=
  {| f_clients := idOnly <$> d_clients deletedIds;
     f_cases := idOnly <$> d_cases deletedIds;
     f_stages := idOnly <$> d_stages deletedIds;
     f_sessions := idOnly <$> d_sessions deletedIds;
     f_admin_tasks := idOnly <$> d_adminTasks deletedIds;
     f_appointments := idOnly <$> d_appointments deletedIds;
     f_accounting_entries := idOnly <$> d_accountingEntries deletedIds;
     f_assistants := nameOnly <$> d_assistants deletedIds;
     f_invoices := idOnly <$> d_invoices deletedIds;
     f_invoice_items := idOnly <$> d_invoiceItems deletedIds;
     f_case_documents := idOnly <$> d_documents deletedIds;
     f_profiles := [];
     f_site_finances := idOnly <$> d_siteFinances deletedIds |}.

Definition withDocumentPaths (paths : list string) (d : DeletedIds)
    : DeletedIds :=
  mkDeletedIds (d_clients d) (d_cases d) (d_stages d) (d_sessions d)
    (d_adminTasks d) (d_appointments d) (d_accountingEntries d)
    (d_invoices d) (d_invoiceItems d) (d_assistants d) (d_documents d)
    paths (d_profiles d) (d_siteFinances d).

(** The answers of the remote store during one round.  [fetchError] is
    the error of the two fetches, if one of them throws; [storage] is [None]
    when no client is configured and otherwise tells whether the removal of
    the document files succeeded; [deleteError] and [upsertError] are the
    answers to the hard delete and to the upsert on each table;
    [upsertedDataRaw] is what the upserts echo. *)
Record RemoteAnswers := mkRemoteAnswers {
  fetchError : option RemoteError;
  remoteDataRaw : FlatData;
  remoteDeletions : list SyncDeletion;
  storage : option bool;
  deleteError : table → option RemoteError;
  upsertError : table → option RemoteError;
  upsertedDataRaw : FlatData
}.

(** The status the [catch] block reports. *)
Definition statusOfError (err : RemoteError) : SyncStatus :=
  match err with
  | MissingSchema => S_uninitialized
  | OtherError => S_error
  end.

(** [mergedItems.map(item => upsertedDataMap.get(item.id ?? item.name) || item)] *)
Definition applyEcho (upsertedFlatData mergedFlatData : FlatData) : FlatData :=
  let upsertedDataMap :=
    itemMap (allTables ≫= (λ key, tbl key upsertedFlatData)) in
  flatOf (λ key,
    (λ it, default it (upsertedDataMap !! idOrName it))
      <$> tbl key mergedFlatData).

(** The [try] block of [manualSync] with its [catch], from the answers of
    the two fetches on: a throw anywhere ends the round with the status of
    the error and without the callbacks. *)
Definition syncRound (userId : string) (localData : AppData)
    (deletedIds : DeletedIds) (env : RemoteAnswers) : list effect :=
  match fetchError env with
  | Some err => [SetStatus (statusOfError err)]
  | None =>
  let remoteFlatData := transformRemoteToLocal (remoteDataRaw env) in
  let localFlatData :=
    applyDeletionsToLocal (flattenData localData) (remoteDeletions env) in
  if isLocalEffectivelyEmpty localFlatData
     && negb (isRemoteEffectivelyEmpty (remoteDataRaw env))
     && negb (hasPendingDeletions deletedIds)
  then [OnDataSynced (constructData remoteFlatData); SetStatus S_synced]
  else
    let '(flatUpserts, mergedFlatData) :=
      mergeAll deletedIds localFlatData remoteFlatData in
    let storageEffects :=
      match d_documentPaths deletedIds, storage env with
      | [], _ => []
      | _, None => [SetStatus S_syncing]
      | paths, Some _ => [SetStatus S_syncing; StorageRemove paths]
      end in
    let successfulDeletions :=
      match d_documentPaths deletedIds, storage env with
      | (_ :: _) as paths, Some true =>
          withDocumentPaths paths getInitialDeletedIds
      | _, _ => getInitialDeletedIds
      end in
    let flatDeletes := flatDeletesOf deletedIds in
    let anyDeletes :=
      existsb (λ key, negb (isEmpty (tbl key flatDeletes))) allTables in
    let deleted :=
      if anyDeletes then deleteDataFromSupabase (deleteError env) flatDeletes
      else ([], None) in
    let deleteEffects :=
      if anyDeletes then SetStatus S_syncing :: deleted.1 else [] in
    let successfulDeletions' :=
      if anyDeletes then deletedIds else successfulDeletions in
    let upserted :=
      upsertDataToSupabase (upsertError env) flatUpserts userId in
    let upsertEffects := (λ r, RemoteUpsert r.1 r.2) <$> upserted.1 in
    let finalMergedData :=
      constructData
        (applyEcho (transformRemoteToLocal (upsertedDataRaw env))
                   mergedFlatData) in
    storageEffects ++ deleteEffects ++
    match deleted.2 with
    | Some err => [SetStatus (statusOfError err)]
    | None =>
        [SetStatus S_syncing] ++ upsertEffects ++
        match upserted.2 with
        | Some err => [SetStatus (statusOfError err)]
        | None =>
            [OnDataSynced finalMergedData;
             OnDeletionsSynced successfulDeletions';
             SetStatus S_synced]
        end
    end
  end.

(** A remote write: anything that changes the remote store. *)
Definition isRemoteWrite (e : effect) : bool :=
  match e with
  | StorageRemove _ | LogDeletions _ _ | RemoteDelete _ _ | RemoteUpsert _ _ =>
      true
  | _ => false
  end.

(** The residency test of the document callback. *)
Definition isResident (doc : item) : bool :=
  bool_decide (localState doc = Some synced) || truthy (isLocalOnly doc).

(** ** Sample data used by the examples below *)

Definition sampleItem (i : string) (t : Z) : item :=
  mkItem (Some i) None (Some t) None None None None None None None None ∅.

(** A client, one of its cases, and an invoice issued to that client. *)
Definition sampleClient : item := sampleItem "c1" 1000.
Definition sampleCase : item := sampleItem "k1" 1000.
Definition sampleInvoice : item := set_clientId (Some "c1") (sampleItem "inv1" 1000).
Definition sampleInvoiceItem : item := sampleItem "it1" 1000.

Definition sampleData : AppData :=
  {| clients := [mkClient sampleClient [mkCase sampleCase []]];
     adminTasks := [];
     appointments := [];
     accountingEntries := [];
     invoices := [mkInvoice sampleInvoice [sampleInvoiceItem]];
     assistants := [];
     documents := [];
     profiles := [];
     siteFinances := [] |}.

Definition emptyFlat : FlatData := flatOf (λ _, []).

(** A task edited exactly 2000 ms after its tombstone. *)
Definition boundaryTask : item := sampleItem "t1" 3000.
Definition boundaryLocal : FlatData :=
  flatOf (λ key, match key with T_admin_tasks => [boundaryTask] | _ => [] end).
Definition boundaryLog : list SyncDeletion :=
  [mkSyncDeletion "admin_tasks" "t1" 1000].

(** A case file of [sampleCase] and a local snapshot holding it. *)
Definition sampleDoc (st : LocalState) (t : Z) : item :=
  set_localState (Some st) (set_caseId (Some "k1") (sampleItem "d1" t)).

Definition docLocal (doc : item) : FlatData :=
  flatOf (λ key,
    match key with
    | T_clients => [sampleClient]
    | T_cases => [set_client_id (Some "c1") sampleCase]
    | T_case_documents => [doc]
    | _ => []
    end).

Definition docLog : list SyncDeletion :=
  [mkSyncDeletion "case_documents" "d1" 1000].

(** A deletion log whose only tombstone names a record that is not in
    [sampleData]. *)
Definition unrelatedLog : list SyncDeletion :=
  [mkSyncDeletion "admin_tasks" "zzz" 5000].

(** Two case files, one of them local-only. *)
Definition pushedDoc : item := sampleDoc synced 1000.
Definition localOnlyDoc : item :=
  set_isLocalOnly (Some true)
    (set_localState (Some synced) (set_caseId (Some "k1") (sampleItem "d2" 1000))).

Definition pushData : FlatData :=
  flatOf (λ key,
    match key with
    | T_case_documents => [localOnlyDoc; pushedDoc]
    | _ => []
    end).

(** A new device: nothing local, three clients on the remote side. *)
Definition noData : AppData := mkAppData [] [] [] [] [] [] [] [] [].

Definition threeClients : RemoteAnswers :=
  {| remoteDataRaw :=
       flatOf (λ key,
         match key with
         | T_clients =>
             [sampleItem "c1" 1000; sampleItem "c2" 1000; sampleItem "c3" 1000]
         | _ => []
         end);
     fetchError := None;
     remoteDeletions := [];
     storage := Some true;
     deleteError := λ _, None;
     upsertError := λ _, None;
     upsertedDataRaw := emptyFlat |}.

(** A remote invoice item whose invoice is nowhere. *)
Definition ghostInvoiceItem : item :=
  set_invoice_id (Some "ghost") (sampleItem "it9" 1000).

Definition ghostRemote : FlatData :=
  flatOf (λ key,
    match key with
    | T_invoice_items => [ghostInvoiceItem]
    | _ => []
    end).

(** A client deleted locally and still in the local snapshot. *)
Definition clientsDeleted : DeletedIds :=
  mkDeletedIds ["c1"] [] [] [] [] [] [] [] [] [] [] [] [] [].

(** A case deleted locally. *)
Definition casesDeleted : DeletedIds :=
  mkDeletedIds [] ["k1"] [] [] [] [] [] [] [] [] [] [] [] [].

(** The local and the remote version of a case of [sampleClient]. *)
Definition localCase : item := set_client_id (Some "c1") (sampleItem "k1" 2000).
Definition remoteCase : item := set_client_id (Some "c1") (sampleItem "k1" 1000).

(** ** The nested graph with the foreign keys written out

    What the amended round-trip law compares the reconstruction with: the
    graph itself, each child record carrying the id of its parent in the
    synthetic field [flattenData] adds. *)

Definition annotateStage (parent : option string) (st : Stage) : Stage :=
  mkStage (set_case_id parent (stage_item st))
          (set_stage_id (id (stage_item st)) <$> sessions st).

Definition annotateCase (parent : option string) (cs : Case) : Case :=
  mkCase (set_client_id parent (case_item cs))
         (annotateStage (id (case_item cs)) <$> stages cs).

Definition annotateClient (c : Client) : Client :=
  mkClient (client_item c) (annotateCase (id (client_item c)) <$> cases c).

Definition annotateInvoice (inv : Invoice) : Invoice :=
  mkInvoice (invoice_item inv)
            (set_invoice_id (id (invoice_item inv)) <$> items inv).

Definition withForeignKeys (data : AppData) : AppData :=
  {| clients := annotateClient <$> clients data;
     adminTasks := adminTasks data;
     appointments := appointments data;
     accountingEntries := accountingEntries data;
     invoices := annotateInvoice <$> invoices data;
     assistants := assistants data;
     documents := documents data;
     profiles := profiles data;
     siteFinances := siteFinances data |}.

(** Every case and every stage of the graph. *)
Definition allCases (data : AppData) : list Case := clients data ≫= cases.
Definition allStages (data : AppData) : list Stage := allCases data ≫= stages.

(** Structural validity: within the clients, the cases, the stages and the
    invoices no id occurs twice. *)
Definition distinctIds (data : AppData) : Prop :=
  NoDup ((λ c, id (client_item c)) <$> clients data)
  ∧ NoDup ((λ cs, id (case_item cs)) <$> allCases data)
  ∧ NoDup ((λ st, id (stage_item st)) <$> allStages data)
  ∧ NoDup ((λ inv, id (invoice_item inv)) <$> invoices data).

(** ** Refresh path: [mergeForRefresh] and [fetchAndRefresh] *)

(** One iteration of [for (const remoteItem of remote)] in
    [mergeForRefresh]. *)
Definition refreshRemoteItem (finalItems : list (option string * item))
    (remoteItem : item) : list (option string * item) :=
  let k := idOrName remoteItem in
  match mapGet k finalItems with
  | Some existingItem =>
      if timeOf (updated_at remoteItem) >? timeOf (updated_at existingItem)
      then mapSet k remoteItem finalItems
      else finalItems
  | None => mapSet k remoteItem finalItems
  end.

(** [finalItems] after [for (const localItem of local)]. *)
Definition refreshLocalMap (localItems : list item)
    : list (option string * item) :=
  foldl (λ m localItem, mapSet (idOrName localItem) localItem m) []
        localItems.

Definition refreshMap (localItems remoteItems : list item)
    : list (option string * item) :=
  foldl refreshRemoteItem (refreshLocalMap localItems) remoteItems.

Definition mergeForRefresh (localItems remoteItems : list item) : list item :=
  (refreshMap localItems remoteItems).*2.

(** The loop of [fetchAndRefresh] that drops from a remote table the
    records pending for deletion; an empty pending set leaves the table as
    it is. *)
Definition dropPending (deletedIds : DeletedIds) (key : table)
    (remoteItems : list item) : list item :=
  let deletedSet := deletedIdsSets deletedIds (entityKey key) in
  if decide (deletedSet = ∅) then remoteItems
  else filter (λ it, negb (setHasId key deletedSet (idOrName it)))
              remoteItems.

(** [Array.from(new Set(l))]: the first occurrence of every value, in
    order. *)
Definition dedupe (l : list (option string)) : list (option string) :=
  foldl (λ acc x, if decide (x ∈ acc) then acc else acc ++ [x]) [] l.

(** [mergedAssistants] *)
Definition mergedAssistants (localItems remoteItems : list item)
    : list item :=
  (λ n, mkItem None n None None None None None None None None None ∅)
    <$> dedupe ((name <$> localItems) ++ (name <$> remoteItems)).

(** [mergedFlatData] of [fetchAndRefresh]. *)
Definition refreshedFlatData (localData : AppData) (deletedIds : DeletedIds)
    (remoteRaw : FlatData) (deletions : list SyncDeletion) : FlatData :=
  let remoteFlatDataUntyped := transformRemoteToLocal remoteRaw in
  let remoteFlatData :=
    flatOf (λ key, dropPending deletedIds key (tbl key remoteFlatDataUntyped)) in
  let localFlatData := applyDeletionsToLocal (flattenData localData) deletions in
  flatOf (λ key,
    match key with
    | T_assistants =>
        mergedAssistants (f_assistants localFlatData)
                         (f_assistants remoteFlatData)
    | _ => mergeForRefresh (tbl key localFlatData) (tbl key remoteFlatData)
    end).

(** What the caller holds when a sync or a refresh is asked for. *)
Record SyncContext := mkSyncContext {
  syncStatus : SyncStatus;
  isAuthLoading : bool;
  isOnline : bool;
  user : option string
}.

(** [fetchAndRefresh]; a failing fetch is reported as an error. *)
Definition fetchAndRefresh (ctx : SyncContext) (localData : AppData)
    (deletedIds : DeletedIds) (env : RemoteAnswers) : list effect :=
  match syncStatus ctx with
  | S_syncing => []
  | _ =>
    if isAuthLoading ctx then []
    else if negb (isOnline ctx) then []
    else match user ctx with
         | None => []
         | Some _ =>
           SetStatus S_syncing ::
           match fetchError env with
           | Some _ => [SetStatus S_error]
           | None =>
               [OnDataSynced
                  (constructData
                     (refreshedFlatData localData deletedIds
                        (remoteDataRaw env) (remoteDeletions env)));
                SetStatus S_synced]
           end
         end
  end.

(** ** The guards of [manualSync] *)

(** The answer of [checkSupabaseSchema]. *)
Inductive SchemaCheck :=
| SchemaOk | SchemaUnconfigured | SchemaUninitialized | SchemaOtherError.

(** [manualSync]: the guards, the schema check, then the round. *)
Definition manualSync (ctx : SyncContext) (schemaCheck : SchemaCheck)
    (localData : AppData) (deletedIds : DeletedIds) (env : RemoteAnswers)
    : list effect :=
  match syncStatus ctx with
  | S_syncing => []
  | _ =>
    if isAuthLoading ctx then []
    else
      match isOnline ctx, user ctx with
      | true, Some userId =>
          SetStatus S_syncing ::
          match schemaCheck with
          | SchemaUnconfigured => [SetStatus S_unconfigured]
          | SchemaUninitialized => [SetStatus S_uninitialized]
          | SchemaOtherError => [SetStatus S_error]
          | SchemaOk =>
              SetStatus S_syncing :: syncRound userId localData deletedIds env
          end
      | _, _ => [SetStatus S_error]
      end
  end.

(** ** Pending deletions after a round: [handleDeletionsSynced]
    ([useSupabaseData.ts]) *)

(** [if (synced.size > 0) pending = pending.filter(id => !synced.has(id))] *)
Definition removeSynced (pending synced : list string) : list string :=
  match synced with
  | [] => pending
  | _ => filter (λ i, i ∉ (list_to_set synced : gset string)) pending
  end.

(** The pending deletions [handleDeletionsSynced] leaves. *)
Definition handleDeletionsSynced (effectiveUserId : option string)
    (deletedIds syncedDeletions : DeletedIds) : DeletedIds :=
  match effectiveUserId with
  | None => deletedIds
  | Some _ =>
    mkDeletedIds
      (removeSynced (d_clients deletedIds) (d_clients syncedDeletions))
      (removeSynced (d_cases deletedIds) (d_cases syncedDeletions))
      (removeSynced (d_stages deletedIds) (d_stages syncedDeletions))
      (removeSynced (d_sessions deletedIds) (d_sessions syncedDeletions))
      (removeSynced (d_adminTasks deletedIds) (d_adminTasks syncedDeletions))
      (removeSynced (d_appointments deletedIds)
                    (d_appointments syncedDeletions))
      (removeSynced (d_accountingEntries deletedIds)
                    (d_accountingEntries syncedDeletions))
      (removeSynced (d_invoices deletedIds) (d_invoices syncedDeletions))
      (removeSynced (d_invoiceItems deletedIds)
                    (d_invoiceItems syncedDeletions))
      (removeSynced (d_assistants deletedIds) (d_assistants syncedDeletions))
      (removeSynced (d_documents deletedIds) (d_documents syncedDeletions))
      (removeSynced (d_documentPaths deletedIds)
                    (d_documentPaths syncedDeletions))
      (removeSynced (d_profiles deletedIds) (d_profiles syncedDeletions))
      (removeSynced (d_siteFinances deletedIds)
                    (d_siteFinances syncedDeletions))
  end.

(** ** Vocabulary of the further properties *)

(** [ref] is the id of a record of [parents]. *)
Definition refersTo (parents : list item) (ref : option string) : Prop :=
  ∃ p, p ∈ parents ∧ id p = ref.

(** A client with a case, a stage and a session under it, as flat tables. *)
Definition chainLocal : FlatData :=
  flatOf (λ key,
    match key with
    | T_clients => [sampleClient]
    | T_cases => [set_client_id (Some "c1") sampleCase]
    | T_stages => [set_case_id (Some "k1") (sampleItem "s1" 1000)]
    | T_sessions => [set_stage_id (Some "s1") (sampleItem "e1" 1000)]
    | _ => []
    end).

(** The tombstone of that client, later than every edit. *)
Definition clientLog : list SyncDeletion :=
  [mkSyncDeletion "clients" "c1" 5000].

(** A remote snapshot with [sampleClient] only. *)
Definition oneClientRemote : FlatData :=
  flatOf (λ key, match key with T_clients => [sampleClient] | _ => [] end).

(** [e1] is directly followed by [e2] in [l]. *)
Definition adjacent {A} (e1 e2 : A) (l : list A) : Prop :=
  ∃ pre post, l = pre ++ e1 :: e2 :: post.

(** [deletedIds[e]] *)
Definition pendingIds (deletedIds : DeletedIds) (e : entity) : list string :=
  match e with
  | E_clients => d_clients deletedIds
  | E_cases => d_cases deletedIds
  | E_stages => d_stages deletedIds
  | E_sessions => d_sessions deletedIds
  | E_adminTasks => d_adminTasks deletedIds
  | E_appointments => d_appointments deletedIds
  | E_accountingEntries => d_accountingEntries deletedIds
  | E_invoices => d_invoices deletedIds
  | E_invoiceItems => d_invoiceItems deletedIds
  | E_assistants => d_assistants deletedIds
  | E_documents => d_documents deletedIds
  | E_profiles => d_profiles deletedIds
  | E_siteFinances => d_siteFinances deletedIds
  end.

(** Two clients and a case pending for deletion. *)
Definition somePending : DeletedIds :=
  mkDeletedIds ["c1"; "c2"] ["k1"] [] [] [] [] [] [] [] [] [] [] ["p1"] [].

(** The properties [upsertDataToSupabase] renames in a table, as pairs
    (local name, remote name), for the tables it pushes by renaming. *)
Definition renamedProps (key : table) : list (string * string) :=
  match key with
  | T_clients => [("contactInfo", "contact_info")]
  | T_cases =>
      [("clientName", "client_name"); ("opponentName", "opponent_name");
       ("feeAgreement", "fee_agreement")]
  | T_stages =>
      [("caseNumber", "case_number");
       ("firstSessionDate", "first_session_date");
       ("decisionDate", "decision_date");
       ("decisionNumber", "decision_number");
       ("decisionSummary", "decision_summary");
       ("decisionNotes", "decision_notes")]
  | T_admin_tasks => [("dueDate", "due_date"); ("orderIndex", "order_index")]
  | T_appointments =>
      [("reminderTimeInMinutes", "reminder_time_in_minutes")]
  | T_accounting_entries => [("clientName", "client_name")]
  | T_invoices =>
      [("clientName", "client_name"); ("caseSubject", "case_subject");
       ("issueDate", "issue_date"); ("dueDate", "due_date");
       ("taxRate", "tax_rate")]
  | _ => []
  end.

(** A local record of the table: it has none of the remote property names
    (nor, where the parent references are renamed, their remote form). *)
Definition isLocalRecord (key : table) (x : item) : Prop :=
  (∀ n, n ∈ snd <$> renamedProps key → rest x !! n = None)
  ∧ (key = T_accounting_entries ∨ key = T_invoices →
     client_id x = None ∧ case_id x = None).

(** The tables pushed by renaming properties. *)
Definition renamedTables : list table :=
  [T_clients; T_cases; T_stages; T_admin_tasks; T_appointments;
   T_accounting_entries; T_invoices; T_invoice_items].

(** The properties of a session the push copies. *)
Definition sessionRowProps : list string :=
  ["court"; "case_number"; "date"; "client_name"; "opponent_name";
   "postponement_reason"; "next_postponement_reason"; "is_postponed";
   "next_session_date"; "assignee"].

(** A local client with its contact information. *)
Definition clientWithContact : item :=
  set_rest {["contactInfo" := JStr "phone"]} sampleClient.

Definition contactData : FlatData :=
  flatOf (λ key, match key with T_clients => [clientWithContact] | _ => [] end).


(** The grouping maps of [constructData], by their names in the source. *)
Definition sessionMap (flatData : FlatData)
    : gmap (option string) (list item) :=
  foldl (λ m s, groupPush (stage_id s) s m) ∅ (f_sessions flatData).

Definition stageMap (flatData : FlatData)
    : gmap (option string) (list Stage) :=
  foldl (λ m st, groupPush (case_id st)
                   (mkStage st (groupGet (sessionMap flatData) (id st))) m)
        ∅ (f_stages flatData).

(** A status change, as opposed to a call on the remote store or a
    callback of the data layer. *)
Definition isStatusChange (e : effect) : bool :=
  match e with
  | SetStatus _ => true
  | _ => false
  end.

(** The stage of a round an effect belongs to; status changes belong to
    none. *)
Definition phase (e : effect) : option nat :=
  match e with
  | SetStatus _ => None
  | StorageRemove _ => Some 0%nat
  | LogDeletions _ _ | RemoteDelete _ _ => Some 1%nat
  | RemoteUpsert _ _ => Some 2%nat
  | OnDataSynced _ => Some 3%nat
  | OnDeletionsSynced _ => Some 4%nat
  end.

(** A sync context in which a round may run. *)
Definition readyContext : SyncContext :=
  mkSyncContext S_synced false true (Some "u1").

(** Some row deletion is pending: what [flatDeletes] is made of.  Pending
    [profiles] and [documentPaths] are not part of it. *)
Definition rowDeletionsPending (deletedIds : DeletedIds) : Prop :=
  ∃ key, key ≠ T_profiles ∧ pendingIds deletedIds (entityKey key) ≠ [].

(** A remote answer with no data, no tombstones and no storage client. *)
Definition silentRemote : RemoteAnswers :=
  mkRemoteAnswers None emptyFlat [] None (λ _, None) (λ _, None) emptyFlat.

(** ** Vocabulary of the fast path *)

(** The tables whose records [constructData] nests under a parent. *)
Definition nestedTables : list table :=
  [T_cases; T_stages; T_sessions; T_invoice_items].

(** [adopted] holds what the graph built from the remote snapshot [raw]
    holds: every row of a table that is not nested, in order and in local
    form, and of the nested tables the rows whose parent is there; a local
    form keeps the id and the [updated_at] of its row (the name, for an
    assistant). *)
Definition adopts (raw adopted : FlatData) : Prop :=
  (∀ key, key ∉ nestedTables →
          tbl key adopted = remoteToLocal key <$> tbl key raw)
  ∧ (∀ x, x ∈ f_cases adopted
          ↔ ∃ row, row ∈ f_cases raw ∧ x = remoteToLocal T_cases row
                   ∧ refersTo (f_clients raw) (client_id row))
  ∧ (∀ x, x ∈ f_stages adopted
          ↔ ∃ row, row ∈ f_stages raw ∧ x = remoteToLocal T_stages row
                   ∧ refersTo (f_cases adopted) (case_id row))
  ∧ (∀ x, x ∈ f_sessions adopted
          ↔ ∃ row, row ∈ f_sessions raw ∧ x = remoteToLocal T_sessions row
                   ∧ refersTo (f_stages adopted) (stage_id row))
  ∧ (∀ x, x ∈ f_invoice_items adopted
          ↔ ∃ row, row ∈ f_invoice_items raw
                   ∧ x = remoteToLocal T_invoice_items row
                   ∧ refersTo (f_invoices raw) (invoice_id row))
  ∧ (∀ key row, key ≠ T_assistants →
                id (remoteToLocal key row) = id row
                ∧ updated_at (remoteToLocal key row) = updated_at row)
  ∧ (∀ row, name (remoteToLocal T_assistants row) = name row).

(** A remote snapshot whose only row is a case of a client that is not in
    it. *)
Definition orphanCase : item :=
  set_client_id (Some "c9") (sampleItem "k9" 1000).

Definition orphanOnly : RemoteAnswers :=
  {| remoteDataRaw :=
       flatOf (λ key, match key with T_cases => [orphanCase] | _ => [] end);
     fetchError := None;
     remoteDeletions := [];
     storage := Some true;
     deleteError := λ _, None;
     upsertError := λ _, None;
     upsertedDataRaw := emptyFlat |}.

(** A pending deletion of the [site_finances] row 7, and a remote snapshot
    that still has the row. *)
Definition financeDeleted : DeletedIds :=
  mkDeletedIds [] [] [] [] [] [] [] [] [] [] [] [] [] ["7"].

Definition financeRemote : FlatData :=
  flatOf (λ key,
    match key with T_site_finances => [sampleItem "7" 1000] | _ => [] end).
(** * Properties *)

(** ** Generic facts about loops and maps *)

(** Closed decidable goals are settled by evaluation. *)
Ltac decide_by_computation :=
  apply (bool_decide_unpack _); vm_compute; exact I.

Section Loops.
Context {S A : Type} (f : S → A → S).

(** A property kept by every iteration holds after the loop. *)
Lemma foldl_invariant (P : S → Prop) (l : list A) (s : S) :
  P s → (∀ s' x, x ∈ l → P s' → P (f s' x)) → P (foldl f s l).
Proof.
  revert s. induction l as [|x l IH]; intros s Hs Hstep; simpl; [done|].
  apply IH.
  - apply Hstep; [left | done].
  - intros s' y Hy. apply Hstep. by right.
Qed.
End Loops.

(** Distinct keys: two elements with the same key are the same. *)
Lemma NoDup_fmap_elem_inj {A B} (f : A → B) (l : list A) x y :
  NoDup (f <$> l) → x ∈ l → y ∈ l → f x = f y → x = y.
Proof.
  induction l as [|z l IH]; [by intros _ ?%elem_of_nil|].
  rewrite fmap_cons. intros [Hnot Hnd]%NoDup_cons.
  intros [->|Hx]%elem_of_cons [->|Hy]%elem_of_cons Hf; [done|..].
  - destruct Hnot. rewrite Hf. by apply list_elem_of_fmap_2.
  - destruct Hnot. rewrite <-Hf. by apply list_elem_of_fmap_2.
  - by apply IH.
Qed.

(** ** Deletion-log applier *)

Lemma buildDeletionMap_nil : buildDeletionMap [] = ∅.
Proof. reflexivity. Qed.

Lemma buildDeletionMap_snoc deletions d :
  buildDeletionMap (deletions ++ [d])
  = <[table_name d +:+ ":" +:+ record_id d := deleted_at d]>
      (buildDeletionMap deletions).
Proof. unfold buildDeletionMap. by rewrite foldl_app. Qed.

(** The time found under a key is the [deleted_at] of a tombstone of the
    log with that table and record id: the last one. *)
Lemma buildDeletionMap_lookup_Some deletions k t :
  buildDeletionMap deletions !! k = Some t →
  ∃ d, d ∈ deletions
       ∧ table_name d +:+ ":" +:+ record_id d = k
       ∧ deleted_at d = t.
Proof.
  induction deletions as [|d ds IH] using rev_ind; [done|].
  rewrite buildDeletionMap_snoc, lookup_insert. case_decide as Hk.
  - intros [= <-]. exists d. split; [|done]. apply elem_of_app. right. by left.
  - intros (d' & Hin & Hd')%IH. exists d'. split; [|done].
    apply elem_of_app. by left.
Qed.

Lemma buildDeletionMap_lookup_last deletions d :
  buildDeletionMap (deletions ++ [d])
    !! (table_name d +:+ ":" +:+ record_id d) = Some (deleted_at d).
Proof. by rewrite buildDeletionMap_snoc, lookup_insert_eq. Qed.

Lemma keepItem_tombstone (dm : gmap string Z) tn it t :
  dm !! deletionKey tn (idOrName it) = Some t →
  keepItem dm tn it = negb (timeOf (updated_at it) <? t + 2000).
Proof. intros H. unfold keepItem. rewrite H. by destruct (_ <? _). Qed.

Lemma keepItem_no_tombstone (dm : gmap string Z) tn it :
  dm !! deletionKey tn (idOrName it) = None → keepItem dm tn it = true.
Proof. intros H. unfold keepItem. by rewrite H. Qed.

Lemma elem_of_filterItems (dm : gmap string Z) l tn it :
  it ∈ filterItems dm l tn ↔ keepItem dm tn it = true ∧ it ∈ l.
Proof.
  unfold filterItems. rewrite list_elem_of_filter.
  by rewrite Is_true_true.
Qed.

(** C3 (as the code has it): a record that goes through the direct
    tombstone filter and has a tombstone at [t_del] is removed when its
    [updated_at] is strictly below [t_del + 2000] and is kept when it is
    [t_del + 2000] or later. *)
Theorem filterItems_tombstone_precedence
    (deletions : list SyncDeletion) (l : list item) (tn : string)
    (r : item) (t_del : Z) :
  r ∈ l →
  buildDeletionMap deletions !! deletionKey tn (idOrName r) = Some t_del →
  (timeOf (updated_at r) < t_del + 2000 →
     r ∉ filterItems (buildDeletionMap deletions) l tn)
  ∧ (t_del + 2000 ≤ timeOf (updated_at r) →
     r ∈ filterItems (buildDeletionMap deletions) l tn).
Proof.
  intros Hin Hdel. split; intros Ht; rewrite elem_of_filterItems,
    (keepItem_tombstone _ _ _ _ Hdel).
  - intros [Hk _]. apply negb_true_iff, Z.ltb_ge in Hk. lia.
  - split; [|done]. apply negb_true_iff, Z.ltb_ge. lia.
Qed.

Lemma filterItems_tombstone_precedence_witness :
  boundaryTask ∈ filterItems (buildDeletionMap boundaryLog) [boundaryTask]
                             "admin_tasks".
Proof.
  apply (filterItems_tombstone_precedence boundaryLog [boundaryTask]
           "admin_tasks" boundaryTask 1000).
  - by left.
  - reflexivity.
  - simpl. lia.
Defined.

(** C3 fails at the boundary: a task edited exactly 2000 ms after its
    tombstone has [updated_at <= t_del + 2000] and is still in the output
    of the applier. *)
Lemma tombstone_boundary_record_survives :
  buildDeletionMap boundaryLog
    !! deletionKey "admin_tasks" (idOrName boundaryTask) = Some 1000
  ∧ timeOf (updated_at boundaryTask) ≤ 1000 + 2000
  ∧ boundaryTask ∈ f_admin_tasks (applyDeletionsToLocal boundaryLocal boundaryLog).
Proof.
  split; [reflexivity|]. split; [simpl; lia|].
  decide_by_computation.
Qed.

(** On the output of the whole applier: every table but [case_documents]
    and [profiles] goes through the direct filter (and some through a
    cascade after it), so a stale tombstoned record is gone from it. *)
Lemma stale_record_is_purged localFlatData deletions key r t_del :
  key ≠ T_case_documents →
  key ≠ T_profiles →
  buildDeletionMap deletions !! deletionKey (tableName key) (idOrName r)
    = Some t_del →
  timeOf (updated_at r) < t_del + 2000 →
  r ∉ tbl key (applyDeletionsToLocal localFlatData deletions).
Proof.
  intros Hdoc Hprof Hdel Ht.
  assert (Hgone : ∀ l, r ∉ filterItems (buildDeletionMap deletions) l
                              (tableName key)).
  { intros l [Hk _]%elem_of_filterItems.
    rewrite (keepItem_tombstone _ _ _ _ Hdel) in Hk.
    apply negb_true_iff, Z.ltb_ge in Hk. lia. }
  destruct deletions as [|d ds]; [done|].
  destruct key; try done; simpl; try apply Hgone;
    intros [_ Hin]%list_elem_of_filter; by apply Hgone in Hin.
Qed.

(** The tables without a parent are filtered by their tombstones alone: a
    record edited 2000 ms or more after its tombstone stays in the output
    of the applier. *)
Lemma fresh_record_survives localFlatData deletions key r t_del :
  key ∈ [T_clients; T_admin_tasks; T_appointments; T_assistants;
         T_site_finances] →
  r ∈ tbl key localFlatData →
  buildDeletionMap deletions !! deletionKey (tableName key) (idOrName r)
    = Some t_del →
  t_del + 2000 ≤ timeOf (updated_at r) →
  r ∈ tbl key (applyDeletionsToLocal localFlatData deletions).
Proof.
  intros Hkey Hin Hdel Ht.
  assert (Hkept : r ∈ filterItems (buildDeletionMap deletions)
                        (tbl key localFlatData) (tableName key)).
  { apply elem_of_filterItems. split; [|done].
    rewrite (keepItem_tombstone _ _ _ _ Hdel).
    apply negb_true_iff, Z.ltb_ge. lia. }
  destruct deletions as [|d ds]; [done|].
  rewrite !elem_of_cons, elem_of_nil in Hkey.
  destruct Hkey as [->|[->|[->|[->|[->|[]]]]]]; exact Hkept.
Qed.

(** What the applier returns for [case_documents] once the log is not
    empty. *)
Lemma applyDeletionsToLocal_documents localFlatData deletions :
  deletions ≠ [] →
  f_case_documents (applyDeletionsToLocal localFlatData deletions)
  = filter (λ d, bool_decide
                   (caseId d ∈ idSet (f_cases (applyDeletionsToLocal
                                                 localFlatData deletions))))
           (omap (applyDeletionToDoc (buildDeletionMap deletions))
                 (f_case_documents localFlatData)).
Proof. by destruct deletions. Qed.

Lemma lookup_deletion_nonempty deletions k (t : Z) :
  buildDeletionMap deletions !! k = Some t → deletions ≠ [].
Proof. by intros H ->. Qed.

Lemma applyDeletionToDoc_stale (dm : gmap string Z) doc t :
  dm !! deletionKey "case_documents" (id doc) = Some t →
  timeOf (updated_at doc) < t + 2000 →
  applyDeletionToDoc dm doc
  = if isResident doc then Some (set_isLocalOnly (Some true) doc) else None.
Proof.
  intros H Ht. unfold applyDeletionToDoc, isResident. rewrite H.
  by apply Z.ltb_lt in Ht as ->.
Qed.

Lemma applyDeletionToDoc_result (dm : gmap string Z) doc doc' :
  applyDeletionToDoc dm doc = Some doc' →
  doc' = doc ∨ (isResident doc = true ∧ doc' = set_isLocalOnly (Some true) doc).
Proof.
  unfold applyDeletionToDoc, isResident.
  destruct (dm !! _) as [t|]; [|naive_solver].
  destruct (_ <? _); [|naive_solver].
  destruct (_ || _); naive_solver.
Qed.

Lemma applyDeletionToDoc_id (dm : gmap string Z) doc doc' :
  applyDeletionToDoc dm doc = Some doc' → id doc' = id doc.
Proof. by intros [->|[_ ->]]%applyDeletionToDoc_result. Qed.

(** C10 (as the code has it): with pairwise distinct document ids, a
    tombstoned document whose [updated_at] is strictly below the tombstone
    time plus 2000 ms is turned into a local-only document when its
    [localState] is [synced] or its [isLocalOnly] flag is set: that copy
    stays in the output exactly when its case survives the cascade, and no
    other record of the output has its id; in every other local state no
    record with its id is in the output. *)
Theorem stale_document_kept_only_when_resident
    (localFlatData : FlatData) (deletions : list SyncDeletion)
    (doc : item) (t_del : Z) :
  NoDup (id <$> f_case_documents localFlatData) →
  doc ∈ f_case_documents localFlatData →
  buildDeletionMap deletions !! deletionKey "case_documents" (id doc)
    = Some t_del →
  timeOf (updated_at doc) < t_del + 2000 →
  let out := applyDeletionsToLocal localFlatData deletions in
  if bool_decide (localState doc = Some synced) || truthy (isLocalOnly doc)
  then (set_isLocalOnly (Some true) doc ∈ f_case_documents out
        ↔ caseId doc ∈ idSet (f_cases out))
       ∧ (∀ d, d ∈ f_case_documents out → id d = id doc →
               d = set_isLocalOnly (Some true) doc)
  else ∀ d, d ∈ f_case_documents out → id d ≠ id doc.
Proof.
  intros Hnd Hin Hdel Ht out. unfold out.
  rewrite applyDeletionsToLocal_documents
    by (by eapply lookup_deletion_nonempty).
  pose proof (applyDeletionToDoc_stale _ _ _ Hdel Ht) as Hstep.
  unfold isResident in Hstep.
  assert (Hfate : ∀ d,
    d ∈ filter (λ d, bool_decide
                       (caseId d ∈ idSet (f_cases (applyDeletionsToLocal
                                                     localFlatData deletions))))
               (omap (applyDeletionToDoc (buildDeletionMap deletions))
                     (f_case_documents localFlatData)) →
    id d = id doc →
    applyDeletionToDoc (buildDeletionMap deletions) doc = Some d).
  { intros d [_ (x & Hx & Hfx)%list_elem_of_omap]%list_elem_of_filter Hid.
    rewrite (applyDeletionToDoc_id _ _ _ Hfx) in Hid.
    by rewrite <-(NoDup_fmap_elem_inj id _ x doc Hnd Hx Hin Hid). }
  destruct (_ || _) eqn:Hres.
  - split.
    + rewrite list_elem_of_filter, list_elem_of_omap, bool_decide_spec.
      split; [by intros [? _]|]. intros Hc. split; [done|]. by exists doc.
    + intros d Hd Hid. apply Hfate in Hd; [|done].
      rewrite Hstep in Hd. by injection Hd.
  - intros d Hd Hid. apply Hfate in Hd; [|done]. by rewrite Hstep in Hd.
Qed.

Lemma stale_document_kept_only_when_resident_witness :
  (set_isLocalOnly (Some true) (sampleDoc synced 1000)
     ∈ f_case_documents
         (applyDeletionsToLocal (docLocal (sampleDoc synced 1000)) docLog)
   ↔ caseId (sampleDoc synced 1000)
       ∈ idSet (f_cases
                  (applyDeletionsToLocal (docLocal (sampleDoc synced 1000))
                                         docLog)))
  ∧ (∀ d, d ∈ f_case_documents
                (applyDeletionsToLocal (docLocal (sampleDoc synced 1000))
                                       docLog) →
          id d = id (sampleDoc synced 1000) →
          d = set_isLocalOnly (Some true) (sampleDoc synced 1000)).
Proof.
  apply (stale_document_kept_only_when_resident
           (docLocal (sampleDoc synced 1000)) docLog
           (sampleDoc synced 1000) 1000).
  - decide_by_computation.
  - by left.
  - reflexivity.
  - simpl. lia.
Defined.

(** C10 fails at the boundary: a document still waiting for its upload and
    edited exactly 2000 ms after its tombstone does not postdate the
    tombstone plus the buffer, and is kept as it is. *)
Lemma boundary_pending_document_is_kept :
  let doc := sampleDoc pending_upload 3000 in
  buildDeletionMap docLog !! deletionKey "case_documents" (id doc) = Some 1000
  ∧ ¬ (timeOf (updated_at doc) > 1000 + 2000)
  ∧ localState doc = Some pending_upload
  ∧ isLocalOnly doc = None
  ∧ doc ∈ f_case_documents (applyDeletionsToLocal (docLocal doc) docLog).
Proof.
  repeat split; try reflexivity.
  - simpl. lia.
  - decide_by_computation.
Qed.

(** The invoice cascade reads [client_id]: whatever survives it carries a
    [client_id] that is the id of a surviving client. *)
Lemma surviving_invoice_has_client_id localFlatData deletions i :
  deletions ≠ [] →
  i ∈ f_invoices (applyDeletionsToLocal localFlatData deletions) →
  client_id i ∈ idSet (f_clients (applyDeletionsToLocal localFlatData deletions)).
Proof.
  intros Hne. destruct deletions as [|d ds]; [done|]. simpl.
  rewrite list_elem_of_filter, bool_decide_spec. by intros [? _].
Qed.

(** An invoice of the nested graph has a [clientId] and no [client_id]; when
    every surviving client has an id, the cascade removes all of them. *)
Lemma typed_invoices_all_purged localFlatData deletions :
  deletions ≠ [] →
  (∀ c, c ∈ f_clients localFlatData → id c ≠ None) →
  (∀ i, i ∈ f_invoices localFlatData → client_id i = None) →
  f_invoices (applyDeletionsToLocal localFlatData deletions) = [].
Proof.
  intros Hne Hc Hi.
  destruct (f_invoices (applyDeletionsToLocal localFlatData deletions))
    as [|i l] eqn:E; [done|exfalso].
  assert (Hin : i ∈ f_invoices (applyDeletionsToLocal localFlatData deletions))
    by (rewrite E; left).
  pose proof (surviving_invoice_has_client_id _ _ _ Hne Hin) as Hcl.
  destruct deletions as [|d ds]; [done|]. simpl in Hin, Hcl.
  apply list_elem_of_filter in Hin as [_ Hin].
  apply elem_of_filterItems in Hin as [_ Hin].
  rewrite (Hi _ Hin) in Hcl.
  unfold idSet in Hcl. apply elem_of_list_to_set, list_elem_of_fmap in Hcl
    as (c & Hid & Hcin).
  apply elem_of_filterItems in Hcin as [_ Hcin].
  by apply (Hc _ Hcin).
Qed.

(** C1 does not hold of the code: with one tombstone of an unrelated record
    in the log, the invoice of [sampleData] has no tombstone, its client
    survives the client filter, and the invoice is removed all the same. *)
Theorem invoice_of_surviving_client_is_purged :
  let localFlatData := flattenData sampleData in
  let out := applyDeletionsToLocal localFlatData unrelatedLog in
  sampleInvoice ∈ f_invoices localFlatData
  ∧ buildDeletionMap unrelatedLog
      !! deletionKey "invoices" (idOrName sampleInvoice) = None
  ∧ sampleClient ∈ f_clients out
  ∧ clientId sampleInvoice = id sampleClient
  ∧ sampleInvoice ∉ f_invoices out.
Proof.
  repeat split; try reflexivity; try decide_by_computation.
Qed.

(** ** Remote push stage *)

Lemma elem_of_documentsToUpsert data doc :
  doc ∈ documentsToUpsert data
  ↔ truthy (isLocalOnly doc) = false ∧ doc ∈ f_case_documents data.
Proof.
  unfold documentsToUpsert. rewrite list_elem_of_filter.
  by rewrite Is_true_true, negb_true_iff.
Qed.

Lemma elem_of_upsertTable key records t rows :
  (t, rows) ∈ upsertTable key records → t = tableName key ∧ rows = records.
Proof.
  destruct records; simpl; [by intros ?%elem_of_nil|].
  intros Hin%list_elem_of_singleton. by inversion Hin.
Qed.

(** *** Loops of requests *)

Lemma awaitEach_reached {A} (request : table → list A) failure order :
  ∃ reached rest,
    order = reached ++ rest
    ∧ (awaitEach request failure order).1 = reached ≫= request
    ∧ ((awaitEach request failure order).2 = None → rest = []).
Proof.
  induction order as [|key order IH].
  - by exists [], [].
  - destruct IH as (reached & rest & E & H1 & H2). cbn [awaitEach].
    destruct (if isEmpty (request key) then None else failure key) as [err|].
    + exists [key], order. split; [done|]. split; [|done].
      simpl. by rewrite app_nil_r.
    + exists (key :: reached), rest. cbn [fst snd].
      split; [by rewrite E|]. split; [|done].
      by rewrite bind_cons, H1.
Qed.


(** The requests of a push are those of the tables reached, in the order of
    [upsertOrder]; a push that does not fail reaches every table. *)
Lemma upsert_requests_reached failure data userId :
  ∃ reached rest,
    upsertOrder = reached ++ rest
    ∧ (upsertDataToSupabase failure data userId).1
      = reached ≫= (λ key, upsertTable key (rowsToUpsert userId data key))
    ∧ ((upsertDataToSupabase failure data userId).2 = None → rest = []).
Proof.
  unfold upsertDataToSupabase.
  destruct (awaitEach_reached
              (λ key, upsertTable key (rowsToUpsert userId data key))
              failure awaitedUpserts) as (reached & rest & E & H1 & H2).
  cbn zeta.
  destruct (awaitEach _ failure awaitedUpserts).2 as [err|] eqn:Hout.
  - exists reached, (rest ++ parallelUpserts).
    split; [|split; [done|by rewrite Hout]].
    rewrite app_assoc, <-E. reflexivity.
  - exists (reached ++ parallelUpserts), []. cbn [awaitAll fst snd].
    rewrite (H2 eq_refl), app_nil_r in E.
    split; [by rewrite app_nil_r, <-E|]. split; [|done].
    by rewrite bind_app, H1.
Qed.

Lemma elem_of_upsert_requests failure data userId t rows :
  (t, rows) ∈ (upsertDataToSupabase failure data userId).1 →
  ∃ key, t = tableName key ∧ rows = rowsToUpsert userId data key ∧ rows ≠ [].
Proof.
  destruct (upsert_requests_reached failure data userId)
    as (reached & rest & _ & -> & _).
  rewrite list_elem_of_bind. intros (key & Hreq & _). exists key.
  unfold upsertTable in Hreq.
  destruct (rowsToUpsert userId data key) eqn:E;
    [by apply elem_of_nil in Hreq|].
  apply list_elem_of_singleton in Hreq. by injection Hreq as -> ->.
Qed.

(** The only request for [case_documents] carries the rows of
    [documentsToUpsert]. *)
Lemma upsert_request_of_documents failure data userId rows :
  ("case_documents", rows) ∈ (upsertDataToSupabase failure data userId).1 →
  rows = documentRow userId <$> documentsToUpsert data.
Proof.
  intros (key & Hname & -> & _)%elem_of_upsert_requests.
  by destruct key.
Qed.

(** C9: a document whose [isLocalOnly] flag is set is not among the records
    selected for the push, and every row of the [case_documents] request
    comes from a document of the input whose flag is not set, whatever the
    remote store answers. *)
Theorem local_only_documents_are_not_pushed
    (failure : table → option RemoteError)
    (data : FlatData) (userId : string) (rows : list item) :
  ("case_documents", rows) ∈ (upsertDataToSupabase failure data userId).1 →
  (∀ doc, doc ∈ f_case_documents data → isLocalOnly doc = Some true →
          doc ∉ documentsToUpsert data)
  ∧ (∀ row, row ∈ rows →
       ∃ doc, doc ∈ f_case_documents data
              ∧ isLocalOnly doc ≠ Some true
              ∧ row = documentRow userId doc).
Proof.
  intros Hreq. split.
  - intros doc _ Hflag [Hno _]%elem_of_documentsToUpsert.
    by rewrite Hflag in Hno.
  - intros row Hrow.
    rewrite (upsert_request_of_documents _ _ _ _ Hreq) in Hrow.
    apply list_elem_of_fmap in Hrow as (doc & -> & Hdoc).
    apply elem_of_documentsToUpsert in Hdoc as [Hno Hin].
    exists doc. split; [done|]. split; [|done].
    intros Hflag. by rewrite Hflag in Hno.
Qed.

(** ** Sync orchestrator *)

Lemma isEmpty_true {A} (l : list A) : isEmpty l = true ↔ l = [].
Proof. by destruct l. Qed.

Lemma hasPendingDeletions_false deletedIds :
  (∀ arr, arr ∈ deletedIdsValues deletedIds → arr = []) →
  hasPendingDeletions deletedIds = false.
Proof.
  intros H. unfold hasPendingDeletions.
  apply not_true_iff_false. intros Hex.
  apply existsb_exists in Hex as (arr & Hin & Hne).
  apply list_elem_of_In, H in Hin. by subst.
Qed.

Lemma isRemoteEffectivelyEmpty_false remote key :
  tbl key remote ≠ [] → isRemoteEffectivelyEmpty remote = false.
Proof.
  intros Hne. unfold isRemoteEffectivelyEmpty.
  apply not_true_iff_false. intros Hall.
  rewrite forallb_forall in Hall.
  apply Hne, isEmpty_true, Hall, list_elem_of_In.
  unfold allTables. destruct key; rewrite !elem_of_cons; tauto.
Qed.

Lemma local_only_documents_are_not_pushed_witness :
  (∀ doc, doc ∈ f_case_documents pushData → isLocalOnly doc = Some true →
          doc ∉ documentsToUpsert pushData)
  ∧ (∀ row, row ∈ [documentRow "u1" pushedDoc] →
       ∃ doc, doc ∈ f_case_documents pushData
              ∧ isLocalOnly doc ≠ Some true
              ∧ row = documentRow "u1" doc).
Proof.
  apply (local_only_documents_are_not_pushed (λ _, None) pushData "u1").
  decide_by_computation.
Defined.

(** ** Orphan safety net *)

(** [p] is a record of the parent table that is on the remote side or is
    about to be pushed, and [ref] is its id. *)
Definition parentPresent (remoteItems upsertItems : list item)
    (ref : option string) : Prop :=
  ∃ p, (p ∈ remoteItems ∨ p ∈ upsertItems) ∧ id p = ref.

Lemma elem_of_validIds remoteItems upsertItems ref :
  ref ∈ validIds remoteItems upsertItems
  ↔ parentPresent remoteItems upsertItems ref.
Proof.
  unfold validIds, parentPresent.
  rewrite elem_of_list_to_set, elem_of_app, !list_elem_of_fmap.
  split.
  - intros [(p & -> & Hp)|(p & -> & Hp)]; exists p; auto.
  - intros (p & [Hp|Hp] & <-); [left|right]; by exists p.
Qed.

(** C5 (as the code has it): after the safety net every case, stage,
    session and case document of the merged output and of the upserts
    output refers to a parent that is on the remote side or among the
    (filtered) upserts of the parent table. *)
Theorem safety_net_leaves_no_orphan
    (remoteFlatData flatUpserts mergedFlatData : FlatData) :
  let out := orphanSafetyNet remoteFlatData flatUpserts mergedFlatData in
  (∀ c, c ∈ f_cases out.1 ∨ c ∈ f_cases out.2 →
        parentPresent (f_clients remoteFlatData) (f_clients out.1)
                      (client_id c))
  ∧ (∀ s, s ∈ f_stages out.1 ∨ s ∈ f_stages out.2 →
          parentPresent (f_cases remoteFlatData) (f_cases out.1) (case_id s))
  ∧ (∀ s, s ∈ f_sessions out.1 ∨ s ∈ f_sessions out.2 →
          parentPresent (f_stages remoteFlatData) (f_stages out.1)
                        (stage_id s))
  ∧ (∀ d, d ∈ f_case_documents out.1 ∨ d ∈ f_case_documents out.2 →
          parentPresent (f_cases remoteFlatData) (f_cases out.1) (caseId d)).
Proof.
  simpl. repeat split; intros x [Hx|Hx];
    apply list_elem_of_filter in Hx as [Hx _];
    apply bool_decide_unpack in Hx; by apply elem_of_validIds.
Qed.

(** C5 fails for [invoice_items]: the safety net does not look at that
    table, so next to the records of [sampleData] a remote invoice item
    whose invoice is neither on the remote side nor among the upserts stays
    in the merged output. *)
Lemma invoice_item_orphan_is_kept :
  let out :=
    mergeAll getInitialDeletedIds (flattenData sampleData) ghostRemote in
  ghostInvoiceItem ∈ f_invoice_items out.2
  ∧ ¬ parentPresent (f_invoices ghostRemote) (f_invoices out.1)
                    (invoice_id ghostInvoiceItem).
Proof.
  split; [decide_by_computation|].
  rewrite <-elem_of_validIds. decide_by_computation.
Qed.

(** ** Merge engine *)

(** *** The insertion-ordered map *)

Lemma elem_of_mapSet k v m k' v' :
  (k', v') ∈ mapSet k v m → (k', v') = (k, v) ∨ (k', v') ∈ m.
Proof.
  induction m as [|[k0 v0] m IH]; simpl.
  - intros ?%list_elem_of_singleton. by left.
  - case_decide as Hk.
    + intros [->|?]%elem_of_cons; [by left|]. right. by right.
    + intros [->|?]%elem_of_cons; [right; by left|].
      destruct IH as [?|?]; [done|by left|]. right. by right.
Qed.

Lemma mapGet_mapSet_eq k v m : mapGet k (mapSet k v m) = Some v.
Proof.
  induction m as [|[k0 v0] m IH]; simpl.
  - by rewrite decide_True.
  - case_decide as Hk; simpl.
    + by rewrite decide_True.
    + by rewrite decide_False.
Qed.

Lemma mapGet_mapSet_ne k k' v m :
  k ≠ k' → mapGet k' (mapSet k v m) = mapGet k' m.
Proof.
  intros Hne. induction m as [|[k0 v0] m IH]; simpl.
  - by rewrite decide_False.
  - case_decide as Hk; simpl.
    + subst k0. by rewrite !decide_False.
    + by rewrite IH.
Qed.

Lemma mapGet_Some_elem k v m : mapGet k m = Some v → (k, v) ∈ m.
Proof.
  induction m as [|[k0 v0] m IH]; simpl; [done|].
  case_decide as Hk.
  - intros [= ->]. subst. by left.
  - intros H. right. by apply IH.
Qed.

Lemma mapSet_keys k v m :
  fst <$> mapSet k v m = fst <$> m
  ∨ (k ∉ fst <$> m) ∧ fst <$> mapSet k v m = (fst <$> m) ++ [k].
Proof.
  induction m as [|[k0 v0] m IH]; simpl.
  - right. split; [apply not_elem_of_nil|done].
  - case_decide as Hk; rewrite !fmap_cons; simpl.
    + left. by subst.
    + destruct IH as [->|[Hnot ->]]; [by left|right].
      split; [|done]. rewrite not_elem_of_cons. by split.
Qed.

(** Keys are pairwise distinct and every record sits under its own key. *)
Definition wellKeyed (m : list (option string * item)) : Prop :=
  NoDup (fst <$> m) ∧ ∀ k v, (k, v) ∈ m → idOrName v = k.

Lemma wellKeyed_nil : wellKeyed [].
Proof. split; [constructor|]. by intros k v ?%elem_of_nil. Qed.

Lemma wellKeyed_mapSet k v m :
  idOrName v = k → wellKeyed m → wellKeyed (mapSet k v m).
Proof.
  intros Hk [Hnd Hco]. split.
  - destruct (mapSet_keys k v m) as [->|[Hnot ->]]; [done|].
    apply NoDup_app. split; [done|]. split; [|apply NoDup_singleton].
    intros x Hx ->%list_elem_of_singleton. done.
  - intros k' v' [[= -> ->]|Hin]%elem_of_mapSet; [done|]. by apply Hco.
Qed.

Lemma wellKeyed_unique m k v v' :
  wellKeyed m → (k, v) ∈ m → mapGet k m = Some v' → v = v'.
Proof.
  intros [Hnd _]. induction m as [|[k0 v0] m IH]; simpl; [done|].
  simpl in Hnd. apply NoDup_cons in Hnd as [Hnot Hnd].
  intros [[= -> ->]|Hin]%elem_of_cons.
  - rewrite decide_True by done. by intros [= ->].
  - case_decide as Hk.
    + subst k0. exfalso. apply Hnot.
      apply list_elem_of_fmap. by exists (k, v).
    + by apply IH.
Qed.

(** What [mapGet] finds under a key is the only record of the values with
    that key. *)
Lemma wellKeyed_values m k v :
  wellKeyed m → mapGet k m = Some v →
  v ∈ snd <$> m ∧ ∀ x, x ∈ snd <$> m → idOrName x = k → x = v.
Proof.
  intros Hwk Hget. split.
  - apply list_elem_of_fmap. exists (k, v). split; [done|].
    by apply mapGet_Some_elem.
  - intros x ([k' x'] & -> & Hin)%list_elem_of_fmap Hk. simpl in *.
    destruct Hwk as [Hnd Hco]. rewrite (Hco _ _ Hin) in Hk. subst k'.
    by eapply wellKeyed_unique.
Qed.

Lemma mapGet_elem_is_Some k v m : (k, v) ∈ m → is_Some (mapGet k m).
Proof.
  induction m as [|[k0 v0] m IH]; simpl; [by intros ?%elem_of_nil|].
  case_decide as Hk; [by eexists|].
  intros [[= -> ->]|?]%elem_of_cons; [done|by apply IH].
Qed.

(** Nothing is found under a key no record of the values has. *)
Lemma wellKeyed_absent m k :
  wellKeyed m → mapGet k m = None →
  ∀ x, x ∈ snd <$> m → idOrName x ≠ k.
Proof.
  intros [_ Hco] Hget x ([k' x'] & -> & Hin)%list_elem_of_fmap Hk.
  simpl in Hk. rewrite (Hco _ _ Hin) in Hk. subst k'.
  apply mapGet_elem_is_Some in Hin as [v Hv]. by rewrite Hv in Hget.
Qed.

(** *** The queried maps *)

Lemma itemMap_snoc l x : itemMap (l ++ [x]) = <[idOrName x := x]> (itemMap l).
Proof. unfold itemMap. by rewrite foldl_app. Qed.

Lemma itemMap_lookup_Some l k v :
  itemMap l !! k = Some v → v ∈ l ∧ idOrName v = k.
Proof.
  induction l as [|x l IH] using rev_ind; [done|].
  rewrite itemMap_snoc, lookup_insert. case_decide as Hk.
  - intros [= ->]. split; [|done]. apply elem_of_app. right. by left.
  - intros [? ?]%IH. split; [|done]. apply elem_of_app. by left.
Qed.

Lemma itemMap_lookup_elem l x : x ∈ l → is_Some (itemMap l !! idOrName x).
Proof.
  induction l as [|y l IH] using rev_ind; [by intros ?%elem_of_nil|].
  rewrite itemMap_snoc, lookup_insert. case_decide as Hk; [by eexists|].
  intros [?|Hx%list_elem_of_singleton]%elem_of_app; [by apply IH|].
  by subst.
Qed.

Lemma itemMap_lookup_None l k :
  (∀ x, x ∈ l → idOrName x ≠ k) → itemMap l !! k = None.
Proof.
  intros H. destruct (itemMap l !! k) as [v|] eqn:E; [|done].
  apply itemMap_lookup_Some in E as [Hin Hk]. by destruct (H _ Hin).
Qed.

Lemma itemMap_lookup_NoDup l x :
  NoDup (idOrName <$> l) → x ∈ l → itemMap l !! idOrName x = Some x.
Proof.
  induction l as [|y l IH] using rev_ind; [by intros _ ?%elem_of_nil|].
  rewrite fmap_app, itemMap_snoc. intros [Hnd [Hdisj _]]%NoDup_app.
  rewrite lookup_insert. case_decide as Hk.
  - intros [Hin|Hx%list_elem_of_singleton]%elem_of_app; [|by subst].
    exfalso. apply (Hdisj (idOrName x)).
    + by apply list_elem_of_fmap_2.
    + rewrite <-Hk. by left.
  - intros [Hin|Hx%list_elem_of_singleton]%elem_of_app; [by apply IH|].
    by subst.
Qed.

(** *** One iteration of each loop *)

Section MergeSteps.
Context (key : table) (deletedIds : DeletedIds).
Context (remoteMap localMap : gmap (option string) item).

Abbreviation step := (mergeLocalItem key deletedIds remoteMap).
Abbreviation rstep := (mergeRemoteItem key deletedIds localMap).

(** The record an iteration stores under the key of [x], if any, and
    whether it queues [x]; neither depends on the state. *)
Lemma mergeLocalItem_cases st x :
  (step st x = st)
  ∨ (∃ v, step st x = (mapSet (idOrName x) v st.1, st.2)
          ∧ (remoteMap !! idOrName x = Some v
             ∨ v = set_isLocalOnly (Some true) x))
  ∨ step st x = (mapSet (idOrName x) x st.1, st.2 ++ [x]).
Proof.
  unfold mergeLocalItem. destruct (isParentDeleted _ _ _); [by left|].
  destruct (remoteMap !! idOrName x) as [r|] eqn:Hr.
  - destruct (_ >? _); [by right; right|].
    right; left. exists r. by split; [|left].
  - destruct (_ && _); [|by right; right].
    right; left. eexists. by split; [|right].
Qed.

Lemma mergeLocalItem_elem st x k v :
  (k, v) ∈ (step st x).1 →
  (k, v) ∈ st.1
  ∨ (k = idOrName x
     ∧ (v = x ∨ remoteMap !! k = Some v
        ∨ v = set_isLocalOnly (Some true) x)).
Proof.
  destruct (mergeLocalItem_cases st x) as [->|[(w & -> & Hw)| ->]];
    [by left|..]; simpl;
    (intros [[= -> ->]|?]%elem_of_mapSet; [right|by left]).
  - split; [done|]. destruct Hw; auto.
  - split; [done|]. auto.
Qed.

Lemma mergeLocalItem_get_other st x k :
  idOrName x ≠ k → mapGet k (step st x).1 = mapGet k st.1.
Proof.
  intros Hne.
  destruct (mergeLocalItem_cases st x) as [->|[(w & -> & _)| ->]];
    [done|..]; simpl; by apply mapGet_mapSet_ne.
Qed.

Lemma mergeLocalItem_get_self st x :
  mapGet (idOrName x) st.1 = None →
  mapGet (idOrName x) (step st x).1
  = mapGet (idOrName x) (step ([], []) x).1.
Proof.
  intros Hnone. unfold mergeLocalItem.
  destruct (isParentDeleted _ _ _); [done|].
  destruct (remoteMap !! idOrName x) as [r|].
  - destruct (_ >? _); simpl; by rewrite mapGet_mapSet_eq, decide_True.
  - destruct (_ && _); simpl; by rewrite mapGet_mapSet_eq, decide_True.
Qed.

Lemma mergeLocalItem_upserts st x y :
  y ∈ (step st x).2 ↔ y ∈ st.2 ∨ (y = x ∧ x ∈ (step ([], []) x).2).
Proof.
  assert (Hskip : ∀ l : list item, y ∈ l ↔ y ∈ l ∨ (y = x ∧ x ∈ [])).
  { intros l. split; [by left|]. by intros [?|[_ ?%elem_of_nil]]. }
  assert (Hpush : ∀ l : list item,
             y ∈ l ++ [x] ↔ y ∈ l ∨ (y = x ∧ x ∈ [] ++ [x])).
  { intros l. rewrite elem_of_app, list_elem_of_singleton. simpl.
    split; (intros [?|H]; [by left|right]); [|by destruct H].
    split; [done|by left]. }
  unfold mergeLocalItem. destruct (isParentDeleted _ _ _); [apply Hskip|].
  destruct (remoteMap !! idOrName x) as [r|].
  - destruct (_ >? _); simpl; [apply Hpush|apply Hskip].
  - destruct (_ && _); simpl; [apply Hskip|apply Hpush].
Qed.

Hypothesis remoteMap_keyed :
  ∀ k r, remoteMap !! k = Some r → idOrName r = k.

Lemma mergeLocalItem_wellKeyed st x :
  wellKeyed st.1 → wellKeyed (step st x).1.
Proof.
  intros Hwk.
  destruct (mergeLocalItem_cases st x) as [->|[(w & -> & Hw)| ->]];
    [done|..]; simpl; apply wellKeyed_mapSet; try done.
  destruct Hw as [Hw| ->]; [by apply remoteMap_keyed|done].
Qed.

Lemma mergeRemoteItem_elem m r k v :
  (k, v) ∈ rstep m r →
  (k, v) ∈ m
  ∨ (v = r ∧ k = idOrName r ∧ localMap !! k = None
     ∧ setHasId key (deletedIdsSets deletedIds (entityKey key)) k = false).
Proof.
  unfold mergeRemoteItem.
  destruct (localMap !! idOrName r) eqn:Hl; [by left|].
  destruct (setHasId _ _ _) eqn:Hd; [by left|].
  intros [[= -> ->]|?]%elem_of_mapSet; [by right|by left].
Qed.

Lemma mergeRemoteItem_get m r k :
  is_Some (localMap !! k) → mapGet k (rstep m r) = mapGet k m.
Proof.
  intros [v Hv]. unfold mergeRemoteItem.
  destruct (localMap !! idOrName r) eqn:Hl; [done|].
  destruct (setHasId _ _ _); [done|].
  apply mapGet_mapSet_ne. intros <-. by rewrite Hl in Hv.
Qed.

Lemma mergeRemoteItem_wellKeyed m r : wellKeyed m → wellKeyed (rstep m r).
Proof.
  intros Hwk. unfold mergeRemoteItem.
  destruct (localMap !! idOrName r); [done|].
  destruct (setHasId _ _ _); [done|]. by apply wellKeyed_mapSet.
Qed.
End MergeSteps.

(** *** The two loops *)

Lemma itemMap_keyed l k r : itemMap l !! k = Some r → idOrName r = k.
Proof. by intros [_ ?]%itemMap_lookup_Some. Qed.

Lemma localLoop_wellKeyed key deletedIds localItems remoteItems :
  wellKeyed (localLoop key deletedIds localItems remoteItems).1.
Proof.
  unfold localLoop. apply (foldl_invariant _ (λ st, wellKeyed st.1)).
  - apply wellKeyed_nil.
  - intros st x _. apply mergeLocalItem_wellKeyed, itemMap_keyed.
Qed.

Lemma remoteLoop_wellKeyed key deletedIds localItems remoteItems :
  wellKeyed (remoteLoop key deletedIds localItems remoteItems).
Proof.
  unfold remoteLoop. apply (foldl_invariant _ wellKeyed).
  - apply localLoop_wellKeyed.
  - intros m r _. apply mergeRemoteItem_wellKeyed.
Qed.

(** Only local records are queued for upsert. *)
Lemma localLoop_upserts_local key deletedIds localItems remoteItems y :
  y ∈ (localLoop key deletedIds localItems remoteItems).2 → y ∈ localItems.
Proof.
  unfold localLoop.
  apply (foldl_invariant _ (λ st, y ∈ st.2 → y ∈ localItems)).
  - by intros ?%elem_of_nil.
  - intros st x Hx IH [?|[-> _]]%mergeLocalItem_upserts; [by apply IH|done].
Qed.

(** A record of the merged map either has the key of a local record or has
    a key that is not pending for deletion. *)
Lemma remoteLoop_origin key deletedIds localItems remoteItems k v :
  (k, v) ∈ remoteLoop key deletedIds localItems remoteItems →
  idOrName v = k
  ∧ ((∃ l, l ∈ localItems ∧ idOrName l = k)
     ∨ setHasId key (deletedIdsSets deletedIds (entityKey key)) k = false).
Proof.
  intros Hin. split.
  { by apply (remoteLoop_wellKeyed key deletedIds localItems remoteItems). }
  revert k v Hin. unfold remoteLoop.
  apply (foldl_invariant _ (λ m, ∀ k v, (k, v) ∈ m →
    (∃ l, l ∈ localItems ∧ idOrName l = k)
    ∨ setHasId key (deletedIdsSets deletedIds (entityKey key)) k = false)).
  - unfold localLoop.
    apply (foldl_invariant _ (λ st, ∀ k v, (k, v) ∈ st.1 →
      (∃ l, l ∈ localItems ∧ idOrName l = k)
      ∨ setHasId key (deletedIdsSets deletedIds (entityKey key)) k = false)).
    + by intros k v ?%elem_of_nil.
    + intros st x Hx IH k v [?|[-> _]]%mergeLocalItem_elem; [by eapply IH|].
      left. by exists x.
  - intros m r _ IH k v [?|(_ & _ & _ & ?)]%mergeRemoteItem_elem;
      [by eapply IH|by right].
Qed.

Section LocalItemFate.
Context (key : table) (deletedIds : DeletedIds).
Context (localItems remoteItems : list item) (a : item).
Hypothesis local_ids_distinct : NoDup (idOrName <$> localItems).
Hypothesis a_local : a ∈ localItems.

Abbreviation verdict :=
  (mergeLocalItem key deletedIds (itemMap remoteItems) ([], []) a).

Lemma local_split :
  ∃ l1 l2, localItems = l1 ++ a :: l2
           ∧ (∀ x, x ∈ l1 → idOrName x ≠ idOrName a)
           ∧ (∀ x, x ∈ l2 → idOrName x ≠ idOrName a).
Proof.
  destruct (list_elem_of_split _ _ a_local) as (l1 & l2 & E).
  exists l1, l2. split; [done|].
  pose proof local_ids_distinct as Hnd.
  rewrite E, fmap_app, fmap_cons in Hnd.
  apply NoDup_app in Hnd as (_ & Hdisj & [Hnot _]%NoDup_cons).
  split; intros x Hx Hk.
  - apply (Hdisj (idOrName x)); [by apply list_elem_of_fmap_2|].
    rewrite Hk. by left.
  - apply Hnot. rewrite <-Hk. by apply list_elem_of_fmap_2.
Qed.

Lemma foldl_get_other st l :
  (∀ x, x ∈ l → idOrName x ≠ idOrName a) →
  mapGet (idOrName a)
    (foldl (mergeLocalItem key deletedIds (itemMap remoteItems)) st l).1
  = mapGet (idOrName a) st.1.
Proof.
  intros Hl.
  apply (foldl_invariant _
           (λ s, mapGet (idOrName a) s.1 = mapGet (idOrName a) st.1));
    [done|].
  intros s x Hx <-. by apply mergeLocalItem_get_other, Hl.
Qed.

Lemma foldl_upserts_other st l :
  (∀ x, x ∈ l → idOrName x ≠ idOrName a) →
  a ∈ (foldl (mergeLocalItem key deletedIds (itemMap remoteItems)) st l).2
  ↔ a ∈ st.2.
Proof.
  intros Hl.
  apply (foldl_invariant _ (λ s, a ∈ s.2 ↔ a ∈ st.2)); [done|].
  intros s x Hx <-. rewrite mergeLocalItem_upserts.
  split; [|by left]. intros [?|[-> _]]; [done|]. by destruct (Hl _ Hx).
Qed.

(** What the engine does with a local record whose key no other local
    record has is what one iteration on the empty state does with it. *)
Lemma local_item_fate :
  mapGet (idOrName a) (remoteLoop key deletedIds localItems remoteItems)
  = mapGet (idOrName a) verdict.1
  ∧ (a ∈ (localLoop key deletedIds localItems remoteItems).2
     ↔ a ∈ verdict.2).
Proof.
  destruct local_split as (l1 & l2 & E & H1 & H2).
  assert (Hloop : mapGet (idOrName a)
            (localLoop key deletedIds localItems remoteItems).1
          = mapGet (idOrName a) verdict.1
          ∧ (a ∈ (localLoop key deletedIds localItems remoteItems).2
             ↔ a ∈ verdict.2)).
  { unfold localLoop. rewrite E, foldl_app. simpl. split.
    - rewrite foldl_get_other by done.
      apply mergeLocalItem_get_self. by rewrite foldl_get_other.
    - rewrite foldl_upserts_other by done.
      rewrite mergeLocalItem_upserts, foldl_upserts_other by done.
      split; [|by right]. by intros [?%elem_of_nil|[_ ?]]. }
  destruct Hloop as [Hget Hups]. split; [|done]. rewrite <-Hget.
  unfold remoteLoop.
  apply (foldl_invariant _ (λ m, mapGet (idOrName a) m
    = mapGet (idOrName a)
        (localLoop key deletedIds localItems remoteItems).1)); [done|].
  intros m r _ <-. by apply mergeRemoteItem_get, itemMap_lookup_elem.
Qed.
End LocalItemFate.

(** *** The claims on the merge engine *)

Lemma tbl_flatOf key f : tbl key (flatOf f) = f key.
Proof. by destruct key. Qed.

(** The safety net only removes records. *)
Lemma orphanSafetyNet_subset key remoteFlatData flatUpserts mergedFlatData x :
  (x ∈ tbl key (orphanSafetyNet remoteFlatData flatUpserts mergedFlatData).1 →
   x ∈ tbl key flatUpserts)
  ∧ (x ∈ tbl key (orphanSafetyNet remoteFlatData flatUpserts mergedFlatData).2 →
     x ∈ tbl key mergedFlatData).
Proof.
  destruct key; simpl; split; try done;
    by intros [_ ?]%list_elem_of_filter.
Qed.

Lemma mergeAll_subset key deletedIds localFlatData remoteFlatData x :
  (x ∈ tbl key (mergeAll deletedIds localFlatData remoteFlatData).1 →
   x ∈ (mergeTable key deletedIds (tbl key localFlatData)
                   (tbl key remoteFlatData)).1)
  ∧ (x ∈ tbl key (mergeAll deletedIds localFlatData remoteFlatData).2 →
     x ∈ (mergeTable key deletedIds (tbl key localFlatData)
                     (tbl key remoteFlatData)).2).
Proof.
  unfold mergeAll. split; intros Hx;
    apply orphanSafetyNet_subset in Hx;
    unfold mergeUpserts, mergeMerged in Hx; by rewrite tbl_flatOf in Hx.
Qed.

Lemma setHasId_strings key deletedSet k :
  key ≠ T_site_finances → setHasId key deletedSet k = hasStr deletedSet k.
Proof. intros Hkey. unfold setHasId. by rewrite bool_decide_eq_false_2. Qed.

Lemma setHasId_false key deletedSet k :
  hasStr deletedSet k = false → setHasId key deletedSet k = false.
Proof. intros H. unfold setHasId. by case_bool_decide. Qed.

(** C4 (as the code has it): in a table other than [site_finances], a
    record whose id (or name) is pending for deletion in its table and is
    the id of no local record appears neither in the upserts output nor in
    the merged output. *)
Theorem no_resurrection_from_remote
    (key : table) (deletedIds : DeletedIds)
    (localFlatData remoteFlatData : FlatData) (x : item) :
  key ≠ T_site_finances →
  hasStr (deletedIdsSets deletedIds (entityKey key)) (idOrName x) = true →
  (∀ l, l ∈ tbl key localFlatData → idOrName l ≠ idOrName x) →
  (x ∉ tbl key (mergeAll deletedIds localFlatData remoteFlatData).1)
  ∧ (x ∉ tbl key (mergeAll deletedIds localFlatData remoteFlatData).2).
Proof.
  intros Hkey Hdel Hlocal. split; intros Hx%mergeAll_subset; simpl in Hx.
  - apply localLoop_upserts_local in Hx. by apply (Hlocal x).
  - apply list_elem_of_fmap in Hx as ([k v] & -> & Hin). simpl in *.
    apply remoteLoop_origin in Hin as [<- [(l & Hl & Hk)|Hno]].
    + by apply (Hlocal l).
    + rewrite setHasId_strings in Hno by done. by rewrite Hno in Hdel.
Qed.

Lemma no_resurrection_from_remote_witness :
  (sampleClient
     ∉ tbl T_clients
         (mergeAll clientsDeleted emptyFlat (flattenData sampleData)).1)
  ∧ (sampleClient
       ∉ tbl T_clients
           (mergeAll clientsDeleted emptyFlat (flattenData sampleData)).2).
Proof.
  apply (no_resurrection_from_remote T_clients clientsDeleted emptyFlat
           (flattenData sampleData) sampleClient).
  - discriminate.
  - reflexivity.
  - by intros l ?%elem_of_nil.
Defined.

(** C4 fails for a record that is still in the local snapshot: its own id
    in the pending set stops neither the push nor the merge. *)
Lemma pending_local_record_is_pushed :
  let out := mergeAll clientsDeleted (flattenData sampleData) emptyFlat in
  hasStr (deletedIdsSets clientsDeleted (entityKey T_clients))
         (idOrName sampleClient) = true
  ∧ sampleClient ∈ tbl T_clients out.1
  ∧ sampleClient ∈ tbl T_clients out.2.
Proof. repeat split; try reflexivity; decide_by_computation. Qed.

(** C6 (as the code has it): in a table whose ids are pairwise distinct on
    each side, for a local record [a] whose structural parent is not pending
    for deletion and a remote record [b] with the same id, the merged output
    holds exactly one record with that id: [a] when [a.updated_at] is
    strictly newer, [b] otherwise; and [a] is queued for upsert exactly when
    it is strictly newer. *)
Theorem last_write_wins
    (key : table) (deletedIds : DeletedIds)
    (localItems remoteItems : list item) (a b : item) :
  NoDup (idOrName <$> localItems) →
  NoDup (idOrName <$> remoteItems) →
  a ∈ localItems →
  b ∈ remoteItems →
  idOrName a = idOrName b →
  isParentDeleted key deletedIds a = false →
  let out := mergeTable key deletedIds localItems remoteItems in
  let kept :=
    if timeOf (updated_at a) >? timeOf (updated_at b) then a else b in
  kept ∈ out.2
  ∧ (∀ x, x ∈ out.2 → idOrName x = idOrName a → x = kept)
  ∧ (a ∈ out.1 ↔ timeOf (updated_at a) > timeOf (updated_at b)).
Proof.
  intros Hl Hr Ha Hb Hk Hparent out kept.
  destruct (local_item_fate key deletedIds _ remoteItems a Hl Ha)
    as [Hget Hups].
  assert (Hverdict :
    mergeLocalItem key deletedIds (itemMap remoteItems) ([], []) a
    = if timeOf (updated_at a) >? timeOf (updated_at b)
      then ([(idOrName a, a)], [a]) else ([(idOrName a, b)], [])).
  { unfold mergeLocalItem. rewrite Hparent, Hk.
    rewrite (itemMap_lookup_NoDup _ _ Hr Hb). by destruct (_ >? _). }
  rewrite Hverdict in Hget, Hups.
  assert (Hkept : mapGet (idOrName a)
            (remoteLoop key deletedIds localItems remoteItems) = Some kept).
  { rewrite Hget. unfold kept.
    destruct (_ >? _); simpl; by rewrite decide_True. }
  destruct (wellKeyed_values _ _ _
              (remoteLoop_wellKeyed key deletedIds localItems remoteItems)
              Hkept) as [Hin Huniq].
  split; [done|]. split; [done|]. simpl. rewrite Hups.
  destruct (timeOf (updated_at a) >? timeOf (updated_at b)) eqn:Hcmp; simpl.
  - apply Z.gtb_gt in Hcmp. split; [done|]. intros _. by left.
  - split; [by intros ?%elem_of_nil|]. intros Hgt.
    apply Z.gtb_gt in Hgt. by rewrite Hgt in Hcmp.
Qed.

Lemma last_write_wins_witness :
  sampleItem "c1" 2000 ∈ (mergeTable T_clients getInitialDeletedIds
                            [sampleItem "c1" 2000] [sampleItem "c1" 1000]).2
  ∧ (∀ x, x ∈ (mergeTable T_clients getInitialDeletedIds
                 [sampleItem "c1" 2000] [sampleItem "c1" 1000]).2 →
          idOrName x = idOrName (sampleItem "c1" 2000) →
          x = sampleItem "c1" 2000)
  ∧ (sampleItem "c1" 2000
       ∈ (mergeTable T_clients getInitialDeletedIds
            [sampleItem "c1" 2000] [sampleItem "c1" 1000]).1
     ↔ timeOf (updated_at (sampleItem "c1" 2000))
       > timeOf (updated_at (sampleItem "c1" 1000))).
Proof.
  apply (last_write_wins T_clients getInitialDeletedIds
           [sampleItem "c1" 2000] [sampleItem "c1" 1000]
           (sampleItem "c1" 2000) (sampleItem "c1" 1000));
    try reflexivity; try decide_by_computation.
Defined.

(** C6 fails for the child of a parent that is pending for deletion: the
    local case is strictly newer than the remote one, and the merge keeps
    neither of them and queues nothing. *)
Lemma newer_child_of_deleted_parent_is_dropped :
  let out := mergeTable T_cases clientsDeleted [localCase] [remoteCase] in
  idOrName localCase = idOrName remoteCase
  ∧ timeOf (updated_at localCase) > timeOf (updated_at remoteCase)
  ∧ (localCase ∉ out.2)
  ∧ (remoteCase ∉ out.2)
  ∧ (localCase ∉ out.1).
Proof.
  repeat split; try reflexivity; by intros Hin%elem_of_nil.
Qed.

(** Step 1 of the merge: a local record whose structural parent is pending
    for deletion is in neither output, and no other record takes its id in
    the merged output, whatever the remote side holds. *)
Lemma child_of_deleted_parent_is_dropped
    (key : table) (deletedIds : DeletedIds)
    (localItems remoteItems : list item) (a : item) :
  NoDup (idOrName <$> localItems) →
  a ∈ localItems →
  isParentDeleted key deletedIds a = true →
  let out := mergeTable key deletedIds localItems remoteItems in
  (∀ x, x ∈ out.2 → idOrName x ≠ idOrName a) ∧ (a ∉ out.1).
Proof.
  intros Hl Ha Hparent out.
  destruct (local_item_fate key deletedIds _ remoteItems a Hl Ha)
    as [Hget Hups].
  unfold mergeLocalItem in Hget, Hups. rewrite Hparent in Hget, Hups.
  split.
  - by apply (wellKeyed_absent _ _
                (remoteLoop_wellKeyed key deletedIds localItems remoteItems)).
  - simpl. rewrite Hups. apply not_elem_of_nil.
Qed.

(** C7 (as the code has it): in [case_documents] with pairwise distinct local
    ids, a local document in state [synced] whose case is not pending for
    deletion, whose id no remote document has and is not pending for
    deletion, is in the merged output of the merge loop with [isLocalOnly]
    set, is the only record there with its id, and is not queued for
    upsert. *)
Theorem vanished_document_becomes_local_only
    (deletedIds : DeletedIds) (localItems remoteItems : list item)
    (doc : item) :
  NoDup (idOrName <$> localItems) →
  doc ∈ localItems →
  localState doc = Some synced →
  (∀ r, r ∈ remoteItems → idOrName r ≠ idOrName doc) →
  hasStr (deletedIdsSets deletedIds E_documents) (idOrName doc) = false →
  hasStr (deletedIdsSets deletedIds E_cases) (caseId doc) = false →
  let out := mergeTable T_case_documents deletedIds localItems remoteItems in
  set_isLocalOnly (Some true) doc ∈ out.2
  ∧ (∀ x, x ∈ out.2 → idOrName x = idOrName doc →
          x = set_isLocalOnly (Some true) doc)
  ∧ doc ∉ out.1.
Proof.
  intros Hl Hdoc Hstate Hremote Hpending Hparent out.
  destruct (local_item_fate T_case_documents deletedIds _ remoteItems doc
              Hl Hdoc) as [Hget Hups].
  assert (Hverdict :
    mergeLocalItem T_case_documents deletedIds (itemMap remoteItems)
                   ([], []) doc
    = ([(idOrName doc, set_isLocalOnly (Some true) doc)], [])).
  { unfold mergeLocalItem. simpl. rewrite Hparent.
    rewrite (itemMap_lookup_None _ _ Hremote), Hstate, Hpending.
    by rewrite !bool_decide_eq_true_2. }
  rewrite Hverdict in Hget, Hups. simpl in Hget.
  rewrite decide_True in Hget by done.
  destruct (wellKeyed_values _ _ _
              (remoteLoop_wellKeyed T_case_documents deletedIds localItems
                                    remoteItems) Hget) as [Hin Huniq].
  split; [done|]. split; [done|]. simpl. rewrite Hups.
  apply not_elem_of_nil.
Qed.

Lemma vanished_document_becomes_local_only_witness :
  set_isLocalOnly (Some true) pushedDoc
    ∈ (mergeTable T_case_documents getInitialDeletedIds [pushedDoc] []).2
  ∧ (∀ x, x ∈ (mergeTable T_case_documents getInitialDeletedIds
                 [pushedDoc] []).2 →
          idOrName x = idOrName pushedDoc →
          x = set_isLocalOnly (Some true) pushedDoc)
  ∧ pushedDoc
      ∉ (mergeTable T_case_documents getInitialDeletedIds [pushedDoc] []).1.
Proof.
  apply (vanished_document_becomes_local_only getInitialDeletedIds
           [pushedDoc] [] pushedDoc); try reflexivity.
  - decide_by_computation.
  - by left.
  - by intros r ?%elem_of_nil.
Defined.

(** C7 fails for a document whose case is pending for deletion: it is
    [synced], absent from the remote set and not pending itself, and the
    merge drops it. *)
Lemma vanished_document_of_deleted_case_is_dropped :
  let out := mergeTable T_case_documents casesDeleted [pushedDoc] [] in
  localState pushedDoc = Some synced
  ∧ hasStr (deletedIdsSets casesDeleted E_documents) (idOrName pushedDoc)
    = false
  ∧ out.2 = []
  ∧ out.1 = [].
Proof. by repeat split. Qed.

(** ** Flattener and reconstructor *)

(** *** Grouping by a key *)

Lemma groupGet_groupPush {A} k k' (x : A) m :
  groupGet (groupPush k' x m) k
  = if decide (k' = k) then groupGet m k ++ [x] else groupGet m k.
Proof.
  unfold groupGet, groupPush. rewrite lookup_insert.
  case_decide; by subst.
Qed.

Lemma groupGet_foldl {A B} (kf : A → option string) (vf : A → B) l m k :
  groupGet (foldl (λ m x, groupPush (kf x) (vf x) m) m l) k
  = groupGet m k ++ (vf <$> filter (λ x, kf x = k) l).
Proof.
  revert m. induction l as [|x l IH]; intros m; simpl.
  - by rewrite app_nil_r.
  - rewrite IH, groupGet_groupPush, filter_cons.
    case_decide; [|done]. by rewrite fmap_cons, <-app_assoc.
Qed.

Lemma groupGet_group {A B} (kf : A → option string) (vf : A → B) l k :
  groupGet (foldl (λ m x, groupPush (kf x) (vf x) m) ∅ l) k
  = vf <$> filter (λ x, kf x = k) l.
Proof. by rewrite groupGet_foldl. Qed.

Section Filter.
Context {A : Type} (P : A → Prop) `{∀ x, Decision (P x)}.

Lemma filter_all (l : list A) : (∀ x, x ∈ l → P x) → filter P l = l.
Proof.
  induction l as [|x l IH]; intros Hl; [done|].
  rewrite filter_cons_True by (apply Hl; left).
  f_equal. apply IH. intros y Hy. apply Hl. by right.
Qed.

Lemma filter_none (l : list A) : (∀ x, x ∈ l → ¬ P x) → filter P l = [].
Proof.
  induction l as [|x l IH]; intros Hl; [done|].
  rewrite filter_cons_False by (apply Hl; left).
  apply IH. intros y Hy. apply Hl. by right.
Qed.
End Filter.

Lemma filter_fmap_comm {A B} (f : A → B) (P : B → Prop)
    `{∀ y, Decision (P y)} (l : list A) :
  filter P (f <$> l) = f <$> filter (λ x, P (f x)) l.
Proof.
  induction l as [|x l IH]; [done|].
  rewrite fmap_cons, !filter_cons, IH. by destruct (decide (P (f x))).
Qed.

(** Children that carry the id of their parent are found again by that id
    when no two parents share an id. *)
Lemma filter_children {P C} (pid : P → option string) (ch : P → list C)
    (fk : C → option string) (ps : list P) (p : P) :
  (∀ q c, q ∈ ps → c ∈ ch q → fk c = pid q) →
  NoDup (pid <$> ps) →
  p ∈ ps →
  filter (λ c, fk c = pid p) (ps ≫= ch) = ch p.
Proof.
  intros Htag Hnd Hp.
  assert (Hother : ∀ qs, (∀ q, q ∈ qs → q ∈ ps ∧ pid q ≠ pid p) →
            filter (λ c, fk c = pid p) (qs ≫= ch) = []).
  { intros qs Hqs. apply filter_none.
    intros c (q & Hc & Hq)%list_elem_of_bind Hfk.
    destruct (Hqs _ Hq) as [Hin Hne]. apply Hne.
    by rewrite <-(Htag _ _ Hin Hc). }
  destruct (list_elem_of_split _ _ Hp) as (l1 & l2 & E).
  rewrite E, fmap_app, fmap_cons in Hnd.
  apply NoDup_app in Hnd as (_ & Hdisj & [Hnot _]%NoDup_cons).
  rewrite E, bind_app, bind_cons, !filter_app.
  rewrite (Hother l1), (Hother l2), app_nil_r; simpl.
  - apply filter_all. intros c Hc. by apply Htag.
  - intros q Hq. split; [rewrite E, elem_of_app; right; by right|].
    intros Hk. apply Hnot. rewrite <-Hk. by apply list_elem_of_fmap_2.
  - intros q Hq. split; [rewrite E, elem_of_app; by left|].
    intros Hk. apply (Hdisj (pid q)); [by apply list_elem_of_fmap_2|].
    rewrite Hk. by left.
Qed.

(** *** The round trip *)

Section RoundTrip.
Context (data : AppData).
Hypothesis ids_distinct : distinctIds data.

Lemma flatCases_ids :
  (λ cs, id (case_item cs)) <$> flatCases data
  = (λ cs, id (case_item cs)) <$> allCases data.
Proof.
  unfold flatCases, allCases.
  induction (clients data) as [|c cl IH]; [done|].
  rewrite !bind_cons, !fmap_app, IH. f_equal.
  by rewrite <-list_fmap_compose.
Qed.

Lemma flatStages_ids :
  (λ st, id (stage_item st)) <$> flatStages data
  = (λ st, id (stage_item st)) <$> allStages data.
Proof.
  unfold flatStages, flatCases, allStages, allCases.
  induction (clients data) as [|c cl IH]; [done|].
  rewrite !bind_cons, !bind_app, !fmap_app, IH. f_equal.
  induction (cases c) as [|cs l IHl]; [done|].
  rewrite fmap_cons, !bind_cons, !fmap_app, IHl. f_equal.
  by rewrite <-list_fmap_compose.
Qed.

(** The sessions grouped under the id of a flat stage are its own. *)
Lemma sessions_regrouped st :
  st ∈ flatStages data →
  groupGet (foldl (λ m s, groupPush (stage_id s) s m) ∅ (flatSessions data))
           (id (stage_item st))
  = (λ s, set_stage_id (id (stage_item st)) s) <$> sessions st.
Proof.
  intros Hst.
  rewrite (groupGet_group stage_id (λ s, s)), list_fmap_id.
  unfold flatSessions.
  apply (filter_children (λ st, id (stage_item st))
           (λ st, (λ s, set_stage_id (id (stage_item st)) s) <$> sessions st)
           stage_id); [|by rewrite flatStages_ids; apply ids_distinct|done].
  by intros q c _ (s & -> & _)%list_elem_of_fmap.
Qed.

(** The stages grouped under the id of a flat case are its own, each with
    its sessions. *)
Lemma stages_regrouped cs :
  cs ∈ flatCases data →
  groupGet
    (foldl (λ m st,
              groupPush (case_id st)
                (mkStage st
                   (groupGet (foldl (λ m s, groupPush (stage_id s) s m) ∅
                                    (flatSessions data)) (id st))) m)
           ∅ (stage_item <$> flatStages data))
    (id (case_item cs))
  = annotateStage (id (case_item cs)) <$> stages cs.
Proof.
  intros Hcs.
  rewrite (groupGet_group case_id
             (λ st, mkStage st
                (groupGet (foldl (λ m s, groupPush (stage_id s) s m) ∅
                                 (flatSessions data)) (id st)))).
  rewrite filter_fmap_comm. unfold flatStages.
  rewrite (filter_children (λ cs, id (case_item cs))
             (λ cs, (λ st, mkStage (set_case_id (id (case_item cs))
                                                (stage_item st))
                                   (sessions st)) <$> stages cs)
             (λ st, case_id (stage_item st)));
    [|by intros q c _ (s & -> & _)%list_elem_of_fmap
     |by rewrite flatCases_ids; apply ids_distinct|done].
  rewrite <-!list_fmap_compose. apply Forall_fmap_ext_1, Forall_forall.
  intros st Hst. simpl. unfold annotateStage. f_equal.
  apply (sessions_regrouped
           (mkStage (set_case_id (id (case_item cs)) (stage_item st))
                    (sessions st))).
  unfold flatStages. apply list_elem_of_bind. exists cs. split; [|done].
  apply list_elem_of_fmap. by exists st.
Qed.

(** The cases grouped under the id of a client are its own, each with its
    stages. *)
Lemma cases_regrouped c :
  c ∈ clients data →
  groupGet
    (foldl (λ m cs,
              groupPush (client_id cs)
                (mkCase cs
                   (groupGet
                      (foldl (λ m st,
                         groupPush (case_id st)
                           (mkStage st
                              (groupGet
                                 (foldl (λ m s, groupPush (stage_id s) s m)
                                        ∅ (flatSessions data)) (id st))) m)
                         ∅ (stage_item <$> flatStages data)) (id cs))) m)
           ∅ (case_item <$> flatCases data))
    (id (client_item c))
  = annotateCase (id (client_item c)) <$> cases c.
Proof.
  intros Hc.
  rewrite (groupGet_group client_id
             (λ cs, mkCase cs
                (groupGet
                   (foldl (λ m st,
                      groupPush (case_id st)
                        (mkStage st
                           (groupGet
                              (foldl (λ m s, groupPush (stage_id s) s m)
                                     ∅ (flatSessions data)) (id st))) m)
                      ∅ (stage_item <$> flatStages data)) (id cs)))).
  rewrite filter_fmap_comm. unfold flatCases.
  rewrite (filter_children (λ c, id (client_item c))
             (λ c, (λ cs, mkCase (set_client_id (id (client_item c))
                                                (case_item cs))
                                 (stages cs)) <$> cases c)
             (λ cs, client_id (case_item cs)));
    [|by intros q x _ (s & -> & _)%list_elem_of_fmap
     |by apply ids_distinct|done].
  rewrite <-!list_fmap_compose. apply Forall_fmap_ext_1, Forall_forall.
  intros cs Hin. simpl. unfold annotateCase. f_equal.
  apply (stages_regrouped
           (mkCase (set_client_id (id (client_item c)) (case_item cs))
                   (stages cs))).
  unfold flatCases. apply list_elem_of_bind. exists c. split; [|done].
  apply list_elem_of_fmap. by exists cs.
Qed.

(** The items grouped under the id of an invoice are its own. *)
Lemma items_regrouped inv :
  inv ∈ invoices data →
  groupGet (foldl (λ m it, groupPush (invoice_id it) it m) ∅
                  (flatInvoiceItems data))
           (id (invoice_item inv))
  = (λ it, set_invoice_id (id (invoice_item inv)) it) <$> items inv.
Proof.
  intros Hinv.
  rewrite (groupGet_group invoice_id (λ it, it)), list_fmap_id.
  unfold flatInvoiceItems.
  apply (filter_children (λ inv, id (invoice_item inv))
           (λ inv, (λ it, set_invoice_id (id (invoice_item inv)) it)
                     <$> items inv)
           invoice_id); [|by apply ids_distinct|done].
  by intros q x _ (s & -> & _)%list_elem_of_fmap.
Qed.

(** C2 (as the code has it): for a nested graph in which no two clients,
    no two cases, no two stages and no two invoices share an id,
    [constructData (flattenData G)] is [G] with, in addition, the id of
    the parent in the [client_id] of every case, the [case_id] of every
    stage, the [stage_id] of every session and the [invoice_id] of every
    invoice item. *)
Theorem reconstruct_flatten :
  constructData (flattenData data) = withForeignKeys data.
Proof.
  unfold constructData, withForeignKeys, flattenData; simpl. f_equal.
  - rewrite <-list_fmap_compose. apply Forall_fmap_ext_1, Forall_forall.
    intros c Hc. simpl. unfold annotateClient. f_equal.
    by apply cases_regrouped.
  - rewrite <-list_fmap_compose. apply Forall_fmap_ext_1, Forall_forall.
    intros inv Hinv. simpl. unfold annotateInvoice. f_equal.
    by apply items_regrouped.
  - rewrite <-list_fmap_compose. by apply list_fmap_id.
Qed.
End RoundTrip.

Lemma reconstruct_flatten_witness :
  constructData (flattenData sampleData) = withForeignKeys sampleData.
Proof.
  apply (reconstruct_flatten sampleData).
  repeat split; decide_by_computation.
Defined.

(** C2 fails as stated: the case of [sampleData] comes back with a
    [client_id] it did not have, so the reconstruction is not the graph. *)
Lemma reconstruct_flatten_adds_client_id :
  distinctIds sampleData
  ∧ constructData (flattenData sampleData) ≠ sampleData.
Proof.
  split; [repeat split; decide_by_computation|].
  decide_by_computation.
Qed.

(** * Further properties of the engine *)

(** ** Deletion-log applier: the cascade *)

Lemma elem_of_idSet l ref : ref ∈ idSet l ↔ refersTo l ref.
Proof.
  unfold idSet, refersTo. rewrite elem_of_list_to_set, list_elem_of_fmap.
  split; intros (p & ? & ?); by exists p.
Qed.

(** X1. Cascade completeness: once the deletion log is not empty, every
    case the applier keeps refers to a client it keeps, every stage to a
    kept case, every session to a kept stage, every invoice item to a kept
    invoice, every case document to a kept case, and every accounting entry
    with a client to a kept client. *)
Theorem cascade_is_complete
    (localFlatData : FlatData) (deletions : list SyncDeletion) :
  deletions ≠ [] →
  let out := applyDeletionsToLocal localFlatData deletions in
  (∀ c, c ∈ f_cases out → refersTo (f_clients out) (client_id c))
  ∧ (∀ s, s ∈ f_stages out → refersTo (f_cases out) (case_id s))
  ∧ (∀ s, s ∈ f_sessions out → refersTo (f_stages out) (stage_id s))
  ∧ (∀ i, i ∈ f_invoice_items out → refersTo (f_invoices out) (invoice_id i))
  ∧ (∀ d, d ∈ f_case_documents out → refersTo (f_cases out) (caseId d))
  ∧ (∀ e, e ∈ f_accounting_entries out → truthyStr (clientId e) = true →
          refersTo (f_clients out) (clientId e)).
Proof.
  intros Hne. destruct deletions as [|d ds]; [done|]. simpl.
  repeat split; intros x [Hx _]%list_elem_of_filter;
    try (apply elem_of_idSet; by apply bool_decide_unpack in Hx).
  intros Hclient. apply elem_of_idSet.
  apply Is_true_true, orb_true_iff in Hx as [Hx|Hx].
  - by rewrite Hclient in Hx.
  - by apply bool_decide_eq_true in Hx.
Qed.

Lemma cascade_is_complete_witness :
  let out := applyDeletionsToLocal chainLocal unrelatedLog in
  (∀ c, c ∈ f_cases out → refersTo (f_clients out) (client_id c))
  ∧ (∀ s, s ∈ f_stages out → refersTo (f_cases out) (case_id s))
  ∧ (∀ s, s ∈ f_sessions out → refersTo (f_stages out) (stage_id s))
  ∧ (∀ i, i ∈ f_invoice_items out → refersTo (f_invoices out) (invoice_id i))
  ∧ (∀ d, d ∈ f_case_documents out → refersTo (f_cases out) (caseId d))
  ∧ (∀ e, e ∈ f_accounting_entries out → truthyStr (clientId e) = true →
          refersTo (f_clients out) (clientId e)).
Proof. apply (cascade_is_complete chainLocal unrelatedLog). discriminate. Defined.

(** The applier keeps a subset of every table it filters. *)
Lemma applier_keeps_subset localFlatData deletions key x :
  key ≠ T_case_documents →
  x ∈ tbl key (applyDeletionsToLocal localFlatData deletions) →
  x ∈ tbl key localFlatData.
Proof.
  intros Hkey. destruct deletions as [|d ds]; [done|].
  destruct key; try done; simpl;
    repeat (intros [_ Hx]%list_elem_of_filter; revert Hx);
    try done; by intros [_ ?]%elem_of_filterItems.
Qed.

Lemma surviving_case_has_client localFlatData deletions c :
  deletions ≠ [] →
  c ∈ f_cases (applyDeletionsToLocal localFlatData deletions) →
  refersTo (f_clients (applyDeletionsToLocal localFlatData deletions))
           (client_id c).
Proof.
  intros Hne. destruct deletions as [|d ds]; [done|]. simpl.
  intros [Hx _]%list_elem_of_filter.
  apply elem_of_idSet. by apply bool_decide_unpack in Hx.
Qed.

Lemma surviving_stage_has_case localFlatData deletions s :
  deletions ≠ [] →
  s ∈ f_stages (applyDeletionsToLocal localFlatData deletions) →
  refersTo (f_cases (applyDeletionsToLocal localFlatData deletions))
           (case_id s).
Proof.
  intros Hne. destruct deletions as [|d ds]; [done|]. simpl.
  intros [Hx _]%list_elem_of_filter.
  apply elem_of_idSet. by apply bool_decide_unpack in Hx.
Qed.

Lemma surviving_session_has_stage localFlatData deletions s :
  deletions ≠ [] →
  s ∈ f_sessions (applyDeletionsToLocal localFlatData deletions) →
  refersTo (f_stages (applyDeletionsToLocal localFlatData deletions))
           (stage_id s).
Proof.
  intros Hne. destruct deletions as [|d ds]; [done|]. simpl.
  intros [Hx _]%list_elem_of_filter.
  apply elem_of_idSet. by apply bool_decide_unpack in Hx.
Qed.

(** X2. A purged client takes its descendants with it: when the ids of the
    local clients, cases and stages are pairwise distinct and a client has a
    tombstone it has not been edited 2000 ms after, then no case of that
    client, no stage of such a case and no session of such a stage is in
    the output of the applier. *)
Theorem purged_client_purges_descendants
    (localFlatData : FlatData) (deletions : list SyncDeletion)
    (c k s e : item) (t_del : Z) :
  NoDup (id <$> f_clients localFlatData) →
  NoDup (id <$> f_cases localFlatData) →
  NoDup (id <$> f_stages localFlatData) →
  c ∈ f_clients localFlatData →
  k ∈ f_cases localFlatData →
  s ∈ f_stages localFlatData →
  buildDeletionMap deletions !! deletionKey "clients" (idOrName c)
    = Some t_del →
  timeOf (updated_at c) < t_del + 2000 →
  client_id k = id c →
  case_id s = id k →
  stage_id e = id s →
  let out := applyDeletionsToLocal localFlatData deletions in
  (c ∉ f_clients out) ∧ (k ∉ f_cases out) ∧ (s ∉ f_stages out)
  ∧ (e ∉ f_sessions out).
Proof.
  intros Hc Hk Hs Hcin Hkin Hsin Hdel Ht Hkc Hsk Hes out.
  assert (Hne : deletions ≠ []) by (by eapply lookup_deletion_nonempty).
  pose proof (surviving_case_has_client localFlatData deletions) as Hcases.
  pose proof (surviving_stage_has_case localFlatData deletions) as Hstages.
  pose proof (surviving_session_has_stage localFlatData deletions)
    as Hsessions.
  fold out in Hcases, Hstages, Hsessions.
  assert (Hcout : c ∉ f_clients out).
  { by apply (stale_record_is_purged localFlatData deletions T_clients c t_del). }
  assert (Hkout : k ∉ f_cases out).
  { intros Hin. destruct (Hcases _ Hne Hin) as (p & Hp & Hid). apply Hcout.
    assert (p = c) as <-; [|done].
    apply (NoDup_fmap_elem_inj id (f_clients localFlatData)); try done.
    - by apply (applier_keeps_subset _ deletions T_clients).
    - by rewrite Hid. }
  assert (Hsout : s ∉ f_stages out).
  { intros Hin. destruct (Hstages _ Hne Hin) as (p & Hp & Hid). apply Hkout.
    assert (p = k) as <-; [|done].
    apply (NoDup_fmap_elem_inj id (f_cases localFlatData)); try done.
    - by apply (applier_keeps_subset _ deletions T_cases).
    - by rewrite Hid. }
  repeat split; try done.
  intros Hin. destruct (Hsessions _ Hne Hin) as (p & Hp & Hid). apply Hsout.
  assert (p = s) as <-; [|done].
  apply (NoDup_fmap_elem_inj id (f_stages localFlatData)); try done.
  - by apply (applier_keeps_subset _ deletions T_stages).
  - by rewrite Hid.
Qed.

Lemma purged_client_purges_descendants_witness :
  let out := applyDeletionsToLocal chainLocal clientLog in
  (sampleClient ∉ f_clients out)
  ∧ (set_client_id (Some "c1") sampleCase ∉ f_cases out)
  ∧ (set_case_id (Some "k1") (sampleItem "s1" 1000) ∉ f_stages out)
  ∧ (set_stage_id (Some "s1") (sampleItem "e1" 1000) ∉ f_sessions out).
Proof.
  apply (purged_client_purges_descendants chainLocal clientLog
           sampleClient (set_client_id (Some "c1") sampleCase)
           (set_case_id (Some "k1") (sampleItem "s1" 1000))
           (set_stage_id (Some "s1") (sampleItem "e1" 1000)) 5000);
    try reflexivity; try decide_by_computation.
Defined.

(** X3. The applier only removes or relabels: every record of an output
    table other than [case_documents] is a record of the same input table,
    every output document is an input document or the local-only copy of
    one, and [profiles] come back unchanged. *)
Theorem applier_invents_nothing
    (localFlatData : FlatData) (deletions : list SyncDeletion) :
  let out := applyDeletionsToLocal localFlatData deletions in
  (∀ key x, key ≠ T_case_documents → x ∈ tbl key out →
            x ∈ tbl key localFlatData)
  ∧ (∀ d, d ∈ f_case_documents out →
          ∃ d0, d0 ∈ f_case_documents localFlatData
                ∧ (d = d0 ∨ d = set_isLocalOnly (Some true) d0))
  ∧ f_profiles out = f_profiles localFlatData.
Proof.
  split; [|split].
  - intros key x Hkey. by apply applier_keeps_subset.
  - intros d. destruct deletions as [|t ts]; simpl.
    { intros Hd. exists d. by split; [|left]. }
    intros [_ (d0 & Hd0 & Hstep)%list_elem_of_omap]%list_elem_of_filter.
    exists d0. split; [done|].
    destruct (applyDeletionToDoc_result _ _ _ Hstep) as [?|[_ ?]]; auto.
  - by destruct deletions.
Qed.

(** ** Merge engine: what the outputs hold *)

Lemma wellKeyed_NoDup_values m :
  wellKeyed m → NoDup (idOrName <$> (snd <$> m)).
Proof.
  intros [Hnd Hco].
  assert (E : idOrName <$> (snd <$> m) = fst <$> m); [|by rewrite E].
  rewrite <-list_fmap_compose. apply Forall_fmap_ext_1, Forall_forall.
  intros [k v] Hin. simpl. by apply Hco.
Qed.

Lemma orphanSafetyNet_sublist key remoteFlatData flatUpserts mergedFlatData :
  tbl key (orphanSafetyNet remoteFlatData flatUpserts mergedFlatData).1
    `sublist_of` tbl key flatUpserts
  ∧ tbl key (orphanSafetyNet remoteFlatData flatUpserts mergedFlatData).2
      `sublist_of` tbl key mergedFlatData.
Proof. destruct key; simpl; split; try done; apply sublist_filter. Qed.

(** X4. In every table of the merged output, before and after the safety
    net, no two records have the same id (or name), whatever the inputs. *)
Theorem merged_ids_are_distinct
    (key : table) (deletedIds : DeletedIds)
    (localFlatData remoteFlatData : FlatData) :
  NoDup (idOrName <$> (mergeTable key deletedIds (tbl key localFlatData)
                                  (tbl key remoteFlatData)).2)
  ∧ NoDup (idOrName <$>
             tbl key (mergeAll deletedIds localFlatData remoteFlatData).2).
Proof.
  assert (Hloop : NoDup (idOrName <$>
            (mergeTable key deletedIds (tbl key localFlatData)
                        (tbl key remoteFlatData)).2)).
  { apply wellKeyed_NoDup_values, remoteLoop_wellKeyed. }
  split; [done|].
  eapply sublist_NoDup; [exact Hloop|].
  apply fmap_sublist. unfold mergeAll.
  etrans; [apply orphanSafetyNet_sublist|].
  unfold mergeMerged. by rewrite tbl_flatOf.
Qed.

(** Where an iteration takes the record it stores from. *)
Lemma mergeLocalItem_origin key deletedIds remoteItems st x k v :
  (k, v) ∈ (mergeLocalItem key deletedIds (itemMap remoteItems) st x).1 →
  (k, v) ∈ st.1 ∨ v = x ∨ v ∈ remoteItems
  ∨ (key = T_case_documents ∧ localState x = Some synced
     ∧ v = set_isLocalOnly (Some true) x).
Proof.
  unfold mergeLocalItem. destruct (isParentDeleted _ _ _); [by left|].
  destruct (itemMap remoteItems !! idOrName x) as [r|] eqn:Hr.
  - apply itemMap_lookup_Some in Hr as [Hr _].
    destruct (_ >? _); simpl;
      intros [[= -> ->]|?]%elem_of_mapSet; auto.
  - destruct (bool_decide (key = T_case_documents)) eqn:Hkey;
      [destruct (bool_decide (localState x = Some synced)) eqn:Hst|];
      simpl; try destruct (negb _); simpl;
      intros [[= -> ->]|?]%elem_of_mapSet; auto.
    apply bool_decide_eq_true in Hkey, Hst. by right; right; right.
Qed.

(** X5. The merge invents nothing: a record of the merged output, in any
    table, is a local record, a remote record, or (in [case_documents]) a
    local document in state [synced] with [isLocalOnly] set. *)
Theorem merged_records_have_an_origin
    (key : table) (deletedIds : DeletedIds)
    (localFlatData remoteFlatData : FlatData) (x : item) :
  x ∈ tbl key (mergeAll deletedIds localFlatData remoteFlatData).2 →
  x ∈ tbl key localFlatData
  ∨ x ∈ tbl key remoteFlatData
  ∨ (key = T_case_documents
     ∧ ∃ l, l ∈ tbl key localFlatData ∧ localState l = Some synced
            ∧ x = set_isLocalOnly (Some true) l).
Proof.
  intros Hx%mergeAll_subset. simpl in Hx.
  apply list_elem_of_fmap in Hx as ([k v] & -> & Hin). simpl.
  revert k v Hin. unfold remoteLoop.
  set (P := λ v : item,
    v ∈ tbl key localFlatData ∨ v ∈ tbl key remoteFlatData
    ∨ (key = T_case_documents
       ∧ ∃ l, l ∈ tbl key localFlatData ∧ localState l = Some synced
              ∧ v = set_isLocalOnly (Some true) l)).
  apply (foldl_invariant _ (λ m, ∀ k v, (k, v) ∈ m → P v)).
  - unfold localLoop.
    apply (foldl_invariant _ (λ st, ∀ k v, (k, v) ∈ st.1 → P v)).
    + by intros k v ?%elem_of_nil.
    + intros st l Hl IH k v
        [?|[->|[?|(? & ? & ->)]]]%mergeLocalItem_origin; unfold P.
      * by eapply IH.
      * by left.
      * by right; left.
      * right; right. split; [done|]. by exists l.
  - intros m r Hr IH k v [?|(-> & _)]%mergeRemoteItem_elem.
    + by eapply IH.
    + by right; left.
Qed.

(** When one iteration on the empty state queues the record. *)
Lemma verdict_pushed key deletedIds remoteMap x :
  x ∈ (mergeLocalItem key deletedIds remoteMap ([], []) x).2 →
  isParentDeleted key deletedIds x = false
  ∧ ∀ r, remoteMap !! idOrName x = Some r →
         timeOf (updated_at x) > timeOf (updated_at r).
Proof.
  unfold mergeLocalItem. destruct (isParentDeleted _ _ _); simpl.
  { by intros ?%elem_of_nil. }
  destruct (remoteMap !! idOrName x) as [r|]; [|done].
  destruct (_ >? _) eqn:Hcmp; simpl; [|by intros ?%elem_of_nil].
  intros _. split; [done|]. intros r' [= <-]. by apply Z.gtb_gt.
Qed.

Lemma localLoop_upserts_verdict key deletedIds localItems remoteItems y :
  y ∈ (localLoop key deletedIds localItems remoteItems).2 →
  y ∈ (mergeLocalItem key deletedIds (itemMap remoteItems) ([], []) y).2.
Proof.
  unfold localLoop.
  apply (foldl_invariant _ (λ st, y ∈ st.2 →
    y ∈ (mergeLocalItem key deletedIds (itemMap remoteItems) ([], []) y).2)).
  - by intros ?%elem_of_nil.
  - intros st x Hx IH [?|[-> ?]]%mergeLocalItem_upserts; [by apply IH|done].
Qed.

(** X6. What is pushed: a record of the upserts output is a local record
    whose structural parent is not pending for deletion and, when the remote
    ids of the table are pairwise distinct, it is strictly newer than every
    remote record with its id. *)
Theorem pushed_records_are_local_and_newer
    (key : table) (deletedIds : DeletedIds)
    (localFlatData remoteFlatData : FlatData) (x : item) :
  NoDup (idOrName <$> tbl key remoteFlatData) →
  x ∈ tbl key (mergeAll deletedIds localFlatData remoteFlatData).1 →
  x ∈ tbl key localFlatData
  ∧ isParentDeleted key deletedIds x = false
  ∧ ∀ r, r ∈ tbl key remoteFlatData → idOrName r = idOrName x →
         timeOf (updated_at x) > timeOf (updated_at r).
Proof.
  intros Hnd Hx%mergeAll_subset. simpl in Hx.
  split; [by eapply localLoop_upserts_local|].
  apply localLoop_upserts_verdict, verdict_pushed in Hx as [Hparent Hnewer].
  split; [done|]. intros r Hr Hk. apply Hnewer.
  rewrite <-Hk. by apply itemMap_lookup_NoDup.
Qed.

Lemma pushed_records_are_local_and_newer_witness :
  sampleClient ∈ tbl T_clients (flattenData sampleData)
  ∧ isParentDeleted T_clients getInitialDeletedIds sampleClient = false
  ∧ ∀ r, r ∈ tbl T_clients emptyFlat → idOrName r = idOrName sampleClient →
         timeOf (updated_at sampleClient) > timeOf (updated_at r).
Proof.
  apply (pushed_records_are_local_and_newer T_clients getInitialDeletedIds
           (flattenData sampleData) emptyFlat sampleClient);
    decide_by_computation.
Defined.

Lemma mergeRemoteItem_get_other key deletedIds localMap m r k :
  idOrName r ≠ k →
  mapGet k (mergeRemoteItem key deletedIds localMap m r) = mapGet k m.
Proof.
  intros Hne. unfold mergeRemoteItem.
  destruct (localMap !! idOrName r); [done|].
  destruct (setHasId _ _ _); [done|]. by apply mapGet_mapSet_ne.
Qed.

(** A remote record whose key no local record has and that the pending
    set of its table does not hold ends up in the merged map as it is. *)
Lemma remote_only_adopted key deletedIds localItems remoteItems r :
  NoDup (idOrName <$> remoteItems) →
  r ∈ remoteItems →
  (∀ l, l ∈ localItems → idOrName l ≠ idOrName r) →
  setHasId key (deletedIdsSets deletedIds (entityKey key)) (idOrName r)
    = false →
  r ∈ (mergeTable key deletedIds localItems remoteItems).2
  ∧ (∀ x, x ∈ (mergeTable key deletedIds localItems remoteItems).2 →
          idOrName x = idOrName r → x = r)
  ∧ (r ∉ (mergeTable key deletedIds localItems remoteItems).1).
Proof.
  intros Hnd Hr Hlocal Hpending.
  assert (Hget : mapGet (idOrName r)
            (remoteLoop key deletedIds localItems remoteItems) = Some r).
  { destruct (local_split remoteItems r Hnd Hr) as (r1 & r2 & E & H1 & H2).
    unfold remoteLoop. rewrite E, foldl_app. simpl.
    assert (Hother : ∀ l m, (∀ x, x ∈ l → idOrName x ≠ idOrName r) →
      mapGet (idOrName r)
        (foldl (mergeRemoteItem key deletedIds (itemMap localItems)) m l)
      = mapGet (idOrName r) m).
    { intros l m Hl.
      apply (foldl_invariant _
               (λ m', mapGet (idOrName r) m' = mapGet (idOrName r) m));
        [done|].
      intros m' x Hx <-. by apply mergeRemoteItem_get_other, Hl. }
    rewrite Hother by done. unfold mergeRemoteItem at 1.
    rewrite (itemMap_lookup_None _ _ Hlocal), Hpending.
    apply mapGet_mapSet_eq. }
  destruct (wellKeyed_values _ _ _
              (remoteLoop_wellKeyed key deletedIds localItems remoteItems)
              Hget) as [Hin Huniq].
  split; [done|]. split; [done|].
  intros Hups%localLoop_upserts_local. by apply (Hlocal r).
Qed.

(** X7. What is pulled: in a table whose remote ids are pairwise distinct,
    a remote record whose id no local record has and is not pending for
    deletion is in the merged output of the loop, is the only record there
    with its id, and is not queued for upsert. *)
Theorem remote_only_record_is_adopted
    (key : table) (deletedIds : DeletedIds)
    (localItems remoteItems : list item) (r : item) :
  NoDup (idOrName <$> remoteItems) →
  r ∈ remoteItems →
  (∀ l, l ∈ localItems → idOrName l ≠ idOrName r) →
  hasStr (deletedIdsSets deletedIds (entityKey key)) (idOrName r) = false →
  let out := mergeTable key deletedIds localItems remoteItems in
  r ∈ out.2
  ∧ (∀ x, x ∈ out.2 → idOrName x = idOrName r → x = r)
  ∧ (r ∉ out.1).
Proof.
  intros Hnd Hr Hlocal Hpending out.
  by apply remote_only_adopted; [..|apply setHasId_false].
Qed.

Lemma remote_only_record_is_adopted_witness :
  let out := mergeTable T_clients getInitialDeletedIds [] [sampleClient] in
  sampleClient ∈ out.2
  ∧ (∀ x, x ∈ out.2 → idOrName x = idOrName sampleClient → x = sampleClient)
  ∧ (sampleClient ∉ out.1).
Proof.
  apply (remote_only_record_is_adopted T_clients getInitialDeletedIds
           [] [sampleClient] sampleClient); try reflexivity.
  - decide_by_computation.
  - by left.
  - by intros l ?%elem_of_nil.
Defined.

(** X8. What is created: in a table whose local ids are pairwise distinct,
    a local record whose structural parent is not pending for deletion,
    whose id no remote record has and which is not a vanished document (a
    [case_documents] record in state [synced] that is not pending itself) is
    kept in the merged output of the loop as it is, is the only record there
    with its id, and is queued for upsert. *)
Theorem new_local_record_is_kept_and_pushed
    (key : table) (deletedIds : DeletedIds)
    (localItems remoteItems : list item) (a : item) :
  NoDup (idOrName <$> localItems) →
  a ∈ localItems →
  isParentDeleted key deletedIds a = false →
  (∀ r, r ∈ remoteItems → idOrName r ≠ idOrName a) →
  (key ≠ T_case_documents ∨ localState a ≠ Some synced
   ∨ hasStr (deletedIdsSets deletedIds E_documents) (idOrName a) = true) →
  let out := mergeTable key deletedIds localItems remoteItems in
  a ∈ out.2
  ∧ (∀ x, x ∈ out.2 → idOrName x = idOrName a → x = a)
  ∧ a ∈ out.1.
Proof.
  intros Hl Ha Hparent Hremote Hnew out.
  destruct (local_item_fate key deletedIds _ remoteItems a Hl Ha)
    as [Hget Hups].
  assert (Hverdict :
    mergeLocalItem key deletedIds (itemMap remoteItems) ([], []) a
    = ([(idOrName a, a)], [a])).
  { unfold mergeLocalItem.
    rewrite Hparent, (itemMap_lookup_None _ _ Hremote).
    destruct Hnew as [Hk|[Hs|Hp]].
    - by rewrite (bool_decide_eq_false_2 _ Hk).
    - rewrite (bool_decide_eq_false_2 _ Hs). by rewrite andb_false_r.
    - rewrite Hp. by rewrite andb_false_r. }
  rewrite Hverdict in Hget, Hups. simpl in Hget.
  rewrite decide_True in Hget by done.
  destruct (wellKeyed_values _ _ _
              (remoteLoop_wellKeyed key deletedIds localItems remoteItems)
              Hget) as [Hin Huniq].
  split; [done|]. split; [done|]. simpl. apply Hups. by left.
Qed.

Lemma new_local_record_is_kept_and_pushed_witness :
  let out := mergeTable T_clients getInitialDeletedIds [sampleClient] [] in
  sampleClient ∈ out.2
  ∧ (∀ x, x ∈ out.2 → idOrName x = idOrName sampleClient → x = sampleClient)
  ∧ sampleClient ∈ out.1.
Proof.
  apply (new_local_record_is_kept_and_pushed T_clients getInitialDeletedIds
           [sampleClient] [] sampleClient); try reflexivity.
  - decide_by_computation.
  - by left.
  - by intros r ?%elem_of_nil.
  - by left.
Defined.

(** ** Orphan safety net: what it keeps *)

Lemma filter_idem {A} (P : A → Prop) `{∀ x, Decision (P x)} (l : list A) :
  filter P (filter P l) = filter P l.
Proof. apply filter_all. by intros x [? _]%list_elem_of_filter. Qed.

Lemma elem_of_filter_valid (ref : item → option string)
    (valid : gset (option string)) (l : list item) x :
  x ∈ filter (λ y, bool_decide (ref y ∈ valid)) l ↔ ref x ∈ valid ∧ x ∈ l.
Proof. by rewrite list_elem_of_filter, bool_decide_spec. Qed.

(** X9. The safety net never removes a record whose parent exists: a case,
    stage, session or case document of either output whose parent id is on
    the remote side or among the upserts that survive the net is still in
    that output afterwards, and every other table is left as it is. *)
Theorem safety_net_keeps_valid_records
    (remoteFlatData flatUpserts mergedFlatData : FlatData) :
  let out := orphanSafetyNet remoteFlatData flatUpserts mergedFlatData in
  (∀ c, parentPresent (f_clients remoteFlatData) (f_clients out.1)
                      (client_id c) →
        (c ∈ f_cases flatUpserts → c ∈ f_cases out.1)
        ∧ (c ∈ f_cases mergedFlatData → c ∈ f_cases out.2))
  ∧ (∀ s, parentPresent (f_cases remoteFlatData) (f_cases out.1) (case_id s) →
          (s ∈ f_stages flatUpserts → s ∈ f_stages out.1)
          ∧ (s ∈ f_stages mergedFlatData → s ∈ f_stages out.2))
  ∧ (∀ s, parentPresent (f_stages remoteFlatData) (f_stages out.1)
                        (stage_id s) →
          (s ∈ f_sessions flatUpserts → s ∈ f_sessions out.1)
          ∧ (s ∈ f_sessions mergedFlatData → s ∈ f_sessions out.2))
  ∧ (∀ d, parentPresent (f_cases remoteFlatData) (f_cases out.1) (caseId d) →
          (d ∈ f_case_documents flatUpserts → d ∈ f_case_documents out.1)
          ∧ (d ∈ f_case_documents mergedFlatData →
             d ∈ f_case_documents out.2))
  ∧ (∀ key, key ∉ [T_cases; T_stages; T_sessions; T_case_documents] →
            tbl key out.1 = tbl key flatUpserts
            ∧ tbl key out.2 = tbl key mergedFlatData).
Proof.
  simpl. repeat split;
    try (intros Hin; apply elem_of_filter_valid; split; [|done];
         by apply elem_of_validIds).
  - destruct key; try done; exfalso; apply H;
      rewrite !elem_of_cons; tauto.
  - destruct key; try done; exfalso; apply H;
      rewrite !elem_of_cons; tauto.
Qed.

(** X10. The safety net is idempotent: run on its own outputs, it changes
    nothing. *)
Theorem safety_net_is_idempotent
    (remoteFlatData flatUpserts mergedFlatData : FlatData) :
  let out := orphanSafetyNet remoteFlatData flatUpserts mergedFlatData in
  orphanSafetyNet remoteFlatData out.1 out.2 = out.
Proof.
  unfold orphanSafetyNet. simpl.
  set (validClientIds :=
         validIds (f_clients remoteFlatData) (f_clients flatUpserts)).
  rewrite (filter_idem (λ c, bool_decide (client_id c ∈ validClientIds))
                       (f_cases flatUpserts)).
  set (upCases := filter (λ c, bool_decide (client_id c ∈ validClientIds))
                         (f_cases flatUpserts)).
  set (validCaseIds := validIds (f_cases remoteFlatData) upCases).
  rewrite (filter_idem (λ s, bool_decide (case_id s ∈ validCaseIds))
                       (f_stages flatUpserts)).
  set (upStages := filter (λ s, bool_decide (case_id s ∈ validCaseIds))
                          (f_stages flatUpserts)).
  set (validStageIds := validIds (f_stages remoteFlatData) upStages).
  by rewrite !filter_idem.
Qed.

(** ** Refresh path *)

Lemma mapGet_mapSet_is_Some k k' v m :
  is_Some (mapGet k m) → is_Some (mapGet k (mapSet k' v m)).
Proof.
  intros Hk. destruct (decide (k' = k)) as [->|Hne].
  - rewrite mapGet_mapSet_eq. by eexists.
  - by rewrite mapGet_mapSet_ne.
Qed.

Lemma refreshLocalMap_snoc l x :
  refreshLocalMap (l ++ [x]) = mapSet (idOrName x) x (refreshLocalMap l).
Proof. unfold refreshLocalMap. by rewrite foldl_app. Qed.

Lemma refreshLocalMap_wellKeyed l : wellKeyed (refreshLocalMap l).
Proof.
  induction l as [|x l IH] using rev_ind; [apply wellKeyed_nil|].
  rewrite refreshLocalMap_snoc. by apply wellKeyed_mapSet.
Qed.

Lemma refreshLocalMap_elem l k v : (k, v) ∈ refreshLocalMap l → v ∈ l.
Proof.
  induction l as [|x l IH] using rev_ind; [by intros ?%elem_of_nil|].
  rewrite refreshLocalMap_snoc, elem_of_app.
  intros [[= -> ->]|?]%elem_of_mapSet; [right; by left|left; by apply IH].
Qed.

Lemma refreshLocalMap_get l x :
  x ∈ l → is_Some (mapGet (idOrName x) (refreshLocalMap l)).
Proof.
  induction l as [|y l IH] using rev_ind; [by intros ?%elem_of_nil|].
  rewrite refreshLocalMap_snoc.
  intros [?|Hx%list_elem_of_singleton]%elem_of_app.
  - by apply mapGet_mapSet_is_Some, IH.
  - subst. rewrite mapGet_mapSet_eq. by eexists.
Qed.

Lemma refreshLocalMap_get_NoDup l x :
  NoDup (idOrName <$> l) → x ∈ l →
  mapGet (idOrName x) (refreshLocalMap l) = Some x.
Proof.
  intros Hnd Hx.
  destruct (local_split l x Hnd Hx) as (l1 & l2 & E & H1 & H2).
  rewrite E. unfold refreshLocalMap. rewrite foldl_app. simpl.
  apply (foldl_invariant _ (λ m, mapGet (idOrName x) m = Some x)).
  - apply mapGet_mapSet_eq.
  - intros m y Hy <-. by apply mapGet_mapSet_ne, H2.
Qed.

Lemma refreshLocalMap_get_None l k :
  (∀ x, x ∈ l → idOrName x ≠ k) → mapGet k (refreshLocalMap l) = None.
Proof.
  intros Hl. destruct (mapGet k (refreshLocalMap l)) as [v|] eqn:E; [|done].
  pose proof (mapGet_Some_elem _ _ _ E) as Hin.
  destruct (refreshLocalMap_wellKeyed l) as [_ Hco].
  apply Hco in Hin as Hk. apply refreshLocalMap_elem in Hin.
  by destruct (Hl _ Hin).
Qed.

Lemma refreshRemoteItem_wellKeyed m r :
  wellKeyed m → wellKeyed (refreshRemoteItem m r).
Proof.
  intros Hwk. unfold refreshRemoteItem.
  destruct (mapGet (idOrName r) m); [destruct (_ >? _)|]; try done;
    by apply wellKeyed_mapSet.
Qed.

Lemma refreshRemoteItem_elem m r k v :
  (k, v) ∈ refreshRemoteItem m r → (k, v) ∈ m ∨ v = r.
Proof.
  unfold refreshRemoteItem.
  destruct (mapGet (idOrName r) m); [destruct (_ >? _)|]; auto;
    intros [[= -> ->]|?]%elem_of_mapSet; auto.
Qed.

Lemma refreshRemoteItem_get_other m r k :
  idOrName r ≠ k → mapGet k (refreshRemoteItem m r) = mapGet k m.
Proof.
  intros Hne. unfold refreshRemoteItem.
  destruct (mapGet (idOrName r) m); [destruct (_ >? _)|]; try done;
    by apply mapGet_mapSet_ne.
Qed.

Lemma refreshRemoteItem_is_Some m r k :
  is_Some (mapGet k m) → is_Some (mapGet k (refreshRemoteItem m r)).
Proof.
  intros Hk. unfold refreshRemoteItem.
  destruct (mapGet (idOrName r) m); [destruct (_ >? _)|]; try done;
    by apply mapGet_mapSet_is_Some.
Qed.

Lemma refreshRemoteItem_self m r :
  is_Some (mapGet (idOrName r) (refreshRemoteItem m r)).
Proof.
  unfold refreshRemoteItem.
  destruct (mapGet (idOrName r) m) as [e|] eqn:E.
  - destruct (_ >? _); [rewrite mapGet_mapSet_eq|rewrite E]; by eexists.
  - rewrite mapGet_mapSet_eq. by eexists.
Qed.

Lemma refreshMap_wellKeyed localItems remoteItems :
  wellKeyed (refreshMap localItems remoteItems).
Proof.
  unfold refreshMap. apply (foldl_invariant _ wellKeyed).
  - apply refreshLocalMap_wellKeyed.
  - intros m r _. apply refreshRemoteItem_wellKeyed.
Qed.

Lemma refreshMap_covers localItems remoteItems x :
  x ∈ localItems ∨ x ∈ remoteItems →
  is_Some (mapGet (idOrName x) (refreshMap localItems remoteItems)).
Proof.
  unfold refreshMap. intros [Hx|Hx].
  - apply (foldl_invariant _ (λ m, is_Some (mapGet (idOrName x) m))).
    + by apply refreshLocalMap_get.
    + intros m r _. apply refreshRemoteItem_is_Some.
  - destruct (list_elem_of_split _ _ Hx) as (r1 & r2 & ->).
    rewrite foldl_app. simpl.
    apply (foldl_invariant _ (λ m, is_Some (mapGet (idOrName x) m))).
    + apply refreshRemoteItem_self.
    + intros m r _. apply refreshRemoteItem_is_Some.
Qed.

Lemma refreshMap_origin localItems remoteItems k v :
  (k, v) ∈ refreshMap localItems remoteItems →
  v ∈ localItems ∨ v ∈ remoteItems.
Proof.
  revert k v. unfold refreshMap.
  apply (foldl_invariant _ (λ m, ∀ k v, (k, v) ∈ m →
           v ∈ localItems ∨ v ∈ remoteItems)).
  - intros k v ?%refreshLocalMap_elem. by left.
  - intros m r Hr IH k v [?|Hv]%refreshRemoteItem_elem;
      [by eapply IH|subst; by right].
Qed.

(** X11. A refresh loses no id and invents no record: the result of
    [mergeForRefresh] has pairwise distinct ids, holds a record for the id
    of every local and of every remote record, and each of its records is a
    local or a remote record. *)
Theorem refresh_merge_covers_both_sides (localItems remoteItems : list item) :
  NoDup (idOrName <$> mergeForRefresh localItems remoteItems)
  ∧ (∀ x, x ∈ localItems ∨ x ∈ remoteItems →
          ∃ y, y ∈ mergeForRefresh localItems remoteItems
               ∧ idOrName y = idOrName x)
  ∧ (∀ y, y ∈ mergeForRefresh localItems remoteItems →
          y ∈ localItems ∨ y ∈ remoteItems).
Proof.
  unfold mergeForRefresh. split; [|split].
  - apply wellKeyed_NoDup_values, refreshMap_wellKeyed.
  - intros x Hx. destruct (refreshMap_covers _ _ _ Hx) as [y Hy].
    destruct (wellKeyed_values _ _ _ (refreshMap_wellKeyed _ _) Hy)
      as [Hin _].
    exists y. split; [done|].
    apply mapGet_Some_elem in Hy.
    by apply (refreshMap_wellKeyed localItems remoteItems).
  - intros y ([k v] & -> & Hin)%list_elem_of_fmap. simpl.
    by eapply refreshMap_origin.
Qed.

(** X12. Last write wins on refresh, the local record winning ties: with
    pairwise distinct ids on each side, for a local record [a] and a remote
    record [b] with the same id, the result of [mergeForRefresh] holds
    exactly one record with that id: [b] when [b.updated_at] is strictly
    newer, [a] otherwise. *)
Theorem refresh_keeps_local_on_ties
    (localItems remoteItems : list item) (a b : item) :
  NoDup (idOrName <$> localItems) →
  NoDup (idOrName <$> remoteItems) →
  a ∈ localItems →
  b ∈ remoteItems →
  idOrName a = idOrName b →
  let kept :=
    if timeOf (updated_at b) >? timeOf (updated_at a) then b else a in
  kept ∈ mergeForRefresh localItems remoteItems
  ∧ ∀ x, x ∈ mergeForRefresh localItems remoteItems →
         idOrName x = idOrName a → x = kept.
Proof.
  intros Hl Hr Ha Hb Hk kept.
  assert (Hget : mapGet (idOrName a) (refreshMap localItems remoteItems)
                 = Some kept).
  { destruct (local_split remoteItems b Hr Hb) as (r1 & r2 & E & H1 & H2).
    unfold refreshMap. rewrite E, foldl_app. simpl.
    assert (Hother : ∀ l m, (∀ x, x ∈ l → idOrName x ≠ idOrName b) →
      mapGet (idOrName a) (foldl refreshRemoteItem m l)
      = mapGet (idOrName a) m).
    { intros l m Hl'.
      apply (foldl_invariant _
               (λ m', mapGet (idOrName a) m' = mapGet (idOrName a) m));
        [done|].
      intros m' x Hx <-. apply refreshRemoteItem_get_other.
      rewrite Hk. by apply Hl'. }
    rewrite Hother by done. unfold refreshRemoteItem at 1.
    rewrite <-Hk, Hother by done.
    rewrite (refreshLocalMap_get_NoDup _ _ Hl Ha). unfold kept.
    destruct (_ >? _).
    - apply mapGet_mapSet_eq.
    - rewrite Hother by done. by apply refreshLocalMap_get_NoDup. }
  unfold mergeForRefresh.
  by apply wellKeyed_values; [apply refreshMap_wellKeyed|].
Qed.

Lemma refresh_keeps_local_on_ties_witness :
  sampleItem "c1" 1000
    ∈ mergeForRefresh [sampleItem "c1" 1000]
                      [set_clientId (Some "x") (sampleItem "c1" 1000)]
  ∧ ∀ x, x ∈ mergeForRefresh [sampleItem "c1" 1000]
                 [set_clientId (Some "x") (sampleItem "c1" 1000)] →
         idOrName x = idOrName (sampleItem "c1" 1000) →
         x = sampleItem "c1" 1000.
Proof.
  apply (refresh_keeps_local_on_ties [sampleItem "c1" 1000]
           [set_clientId (Some "x") (sampleItem "c1" 1000)]
           (sampleItem "c1" 1000)
           (set_clientId (Some "x") (sampleItem "c1" 1000)));
    try reflexivity; decide_by_computation.
Defined.

Lemma dropPending_not_pending deletedIds key l x :
  x ∈ dropPending deletedIds key l →
  setHasId key (deletedIdsSets deletedIds (entityKey key)) (idOrName x)
    = false.
Proof.
  unfold dropPending. case_decide as Hempty.
  - intros _. apply setHasId_false. rewrite Hempty.
    destruct (idOrName x) as [v|]; [|done].
    simpl. apply bool_decide_eq_false_2, not_elem_of_empty.
  - intros [Hx _]%list_elem_of_filter.
    by apply Is_true_true, negb_true_iff in Hx.
Qed.

Lemma dropPending_subset deletedIds key l x :
  x ∈ dropPending deletedIds key l → x ∈ l.
Proof.
  unfold dropPending. case_decide; [done|]. by intros [_ ?]%list_elem_of_filter.
Qed.

Lemma dedupe_snoc l x :
  dedupe (l ++ [x])
  = if decide (x ∈ dedupe l) then dedupe l else dedupe l ++ [x].
Proof. unfold dedupe. by rewrite foldl_app. Qed.

Lemma elem_of_dedupe l x : x ∈ dedupe l ↔ x ∈ l.
Proof.
  induction l as [|y l IH] using rev_ind; [done|].
  rewrite dedupe_snoc, elem_of_app, list_elem_of_singleton, <-IH.
  case_decide as Hy; [|by rewrite elem_of_app, list_elem_of_singleton].
  split; [by left|]. intros [?|Hx]; [done|by subst].
Qed.

Lemma NoDup_dedupe l : NoDup (dedupe l).
Proof.
  induction l as [|y l IH] using rev_ind; [constructor|].
  rewrite dedupe_snoc. case_decide as Hy; [done|].
  apply NoDup_app. split; [done|]. split; [|apply NoDup_singleton].
  intros x Hx Hxy%list_elem_of_singleton. by subst.
Qed.

Lemma refreshed_table key localData deletedIds remoteRaw deletions :
  key ≠ T_assistants →
  tbl key (refreshedFlatData localData deletedIds remoteRaw deletions)
  = mergeForRefresh
      (tbl key (applyDeletionsToLocal (flattenData localData) deletions))
      (dropPending deletedIds key (tbl key (transformRemoteToLocal remoteRaw))).
Proof. by destruct key. Qed.

Lemma local_assistant_has_no_id localData deletions a :
  a ∈ f_assistants (applyDeletionsToLocal (flattenData localData) deletions) →
  id a = None.
Proof.
  intros Ha%(applier_keeps_subset _ _ T_assistants); [|done].
  simpl in Ha. by apply list_elem_of_fmap in Ha as (n & -> & _).
Qed.

Lemma remote_assistant_has_no_id remoteRaw a :
  a ∈ f_assistants (transformRemoteToLocal remoteRaw) → id a = None.
Proof. simpl. by intros (r & -> & _)%list_elem_of_fmap. Qed.

Lemma dropPending_keeps deletedIds key l x :
  x ∈ l →
  setHasId key (deletedIdsSets deletedIds (entityKey key)) (idOrName x)
    = false →
  x ∈ dropPending deletedIds key l.
Proof.
  intros Hx Hno. unfold dropPending. case_decide; [done|].
  apply list_elem_of_filter. split; [|done]. by rewrite Hno.
Qed.

(** X13. No resurrection on refresh: in a table other than
    [site_finances], a record of the refreshed tables whose id (or name) is
    pending for deletion in its table has the id of a record of the local
    snapshot; the remote side alone never brings it back. *)
Theorem refresh_does_not_resurrect
    (key : table) (localData : AppData) (deletedIds : DeletedIds)
    (remoteRaw : FlatData) (deletions : list SyncDeletion) (x : item) :
  key ≠ T_site_finances →
  x ∈ tbl key (refreshedFlatData localData deletedIds remoteRaw deletions) →
  hasStr (deletedIdsSets deletedIds (entityKey key)) (idOrName x) = true →
  ∃ l, l ∈ tbl key (applyDeletionsToLocal (flattenData localData) deletions)
       ∧ idOrName l = idOrName x.
Proof.
  intros Hnum Hx Hpending. destruct (decide (key = T_assistants)) as [->|Hkey].
  - simpl in Hx. unfold mergedAssistants in Hx.
    apply list_elem_of_fmap in Hx as (n & -> & Hn).
    apply elem_of_dedupe, elem_of_app in Hn as [Hn|Hn];
      apply list_elem_of_fmap in Hn as (a & -> & Ha).
    + exists a. split; [done|]. unfold idOrName.
      by rewrite (local_assistant_has_no_id _ _ _ Ha).
    + exfalso. apply dropPending_not_pending in Ha as Hno.
      rewrite setHasId_strings in Hno by done.
      apply dropPending_subset, remote_assistant_has_no_id in Ha.
      unfold idOrName in Hno, Hpending. rewrite Ha in Hno.
      simpl in Hno, Hpending. by rewrite Hno in Hpending.
  - rewrite refreshed_table in Hx by done. unfold mergeForRefresh in Hx.
    apply list_elem_of_fmap in Hx as ([k v] & -> & Hin). simpl in *.
    apply refreshMap_origin in Hin as [Hl|Hr]; [by exists v|].
    apply dropPending_not_pending in Hr.
    rewrite setHasId_strings in Hr by done. by rewrite Hr in Hpending.
Qed.

Lemma refresh_does_not_resurrect_witness :
  ∃ l, l ∈ tbl T_clients
             (applyDeletionsToLocal (flattenData sampleData) [])
       ∧ idOrName l = idOrName sampleClient.
Proof.
  apply (refresh_does_not_resurrect T_clients sampleData clientsDeleted
           emptyFlat [] sampleClient).
  - discriminate.
  - decide_by_computation.
  - reflexivity.
Defined.

(** X14. Assistants after a refresh are the union, by name and without
    repetition, of the local assistants and the remote assistants that are
    not pending for deletion: no name occurs twice, every local assistant is
    there, every remote assistant whose name is not pending is there, and
    every name comes from one of the two. *)
Theorem refreshed_assistants_are_a_union
    (localData : AppData) (deletedIds : DeletedIds)
    (remoteRaw : FlatData) (deletions : list SyncDeletion) :
  let out := refreshedFlatData localData deletedIds remoteRaw deletions in
  let localFlatData :=
    applyDeletionsToLocal (flattenData localData) deletions in
  NoDup (name <$> f_assistants out)
  ∧ (∀ a, a ∈ f_assistants localFlatData →
          ∃ b, b ∈ f_assistants out ∧ name b = name a)
  ∧ (∀ r, r ∈ f_assistants remoteRaw →
          hasStr (deletedIdsSets deletedIds E_assistants) (name r) = false →
          ∃ b, b ∈ f_assistants out ∧ name b = name r)
  ∧ (∀ b, b ∈ f_assistants out →
          (∃ a, a ∈ f_assistants localFlatData ∧ name a = name b)
          ∨ (∃ r, r ∈ f_assistants remoteRaw ∧ name r = name b
                  ∧ hasStr (deletedIdsSets deletedIds E_assistants) (name b)
                    = false)).
Proof.
  simpl. unfold mergedAssistants.
  set (names := dedupe _).
  assert (E : name <$> ((λ n, mkItem None n None None None None None None
                                None None None ∅) <$> names) = names).
  { rewrite <-list_fmap_compose. apply list_fmap_id. }
  split; [|split; [|split]].
  - rewrite E. apply NoDup_dedupe.
  - intros a Ha. eexists. split.
    + apply list_elem_of_fmap. exists (name a). split; [done|].
      apply elem_of_dedupe, elem_of_app. left. by apply list_elem_of_fmap_2.
    + done.
  - intros r Hr Hno. eexists. split.
    + apply list_elem_of_fmap. exists (name r). split; [done|].
      apply elem_of_dedupe, elem_of_app. right.
      apply (list_elem_of_fmap_2' name _
               (mkItem None (name r) None None None None None None None
                       None None ∅)); [|done].
      apply dropPending_keeps; [|by apply setHasId_false].
      by apply (list_elem_of_fmap_2 (λ a, mkItem None (name a) None None
                  None None None None None None None ∅)).
    + done.
  - intros b (n & -> & Hn)%list_elem_of_fmap. simpl.
    apply elem_of_dedupe, elem_of_app in Hn as [Hn|Hn];
      apply list_elem_of_fmap in Hn as (a & -> & Ha).
    + left. by exists a.
    + right. apply dropPending_not_pending in Ha as Hno.
      rewrite setHasId_strings in Hno by done.
      apply dropPending_subset in Ha. simpl in Ha.
      apply list_elem_of_fmap in Ha as (r & -> & Hr).
      exists r. split; [done|]. split; [done|]. by simpl in Hno.
Qed.

(** ** Remote delete stage *)

Lemma tableName_inj key key' : tableName key = tableName key' → key = key'.
Proof. by destruct key, key'. Qed.

Lemma elem_of_bind_split {A B} (g : A → list B) (l : list A) (e : B) :
  e ∈ l ≫= g →
  ∃ l1 x l2, l = l1 ++ x :: l2 ∧ e ∈ g x
             ∧ l ≫= g = (l1 ≫= g) ++ g x ++ (l2 ≫= g).
Proof.
  intros (x & He & Hx)%list_elem_of_bind.
  destruct (list_elem_of_split _ _ Hx) as (l1 & l2 & ->).
  exists l1, x, l2. split; [done|]. split; [done|].
  by rewrite bind_app, bind_cons.
Qed.

(** The effects [deleteDataFromSupabase] issues for one table. *)
Lemma delete_effects_of_table deletions key e :
  e ∈ deleteRequests deletions key →
  ∃ ids, ids ≠ []
    ∧ ids = (if bool_decide (key = T_assistants) then name else id)
              <$> tbl key deletions
    ∧ ((key = T_profiles ∧ e = RemoteDelete (tableName key) ids)
       ∨ (key ≠ T_profiles
          ∧ (e = LogDeletions (tableName key) ids
             ∨ e = RemoteDelete (tableName key) ids))).
Proof.
  unfold deleteRequests.
  destruct (tbl key deletions) as [|x l] eqn:E; [by intros ?%elem_of_nil|].
  remember (x :: l) as items. intros He.
  exists ((if bool_decide (key = T_assistants) then name else id) <$> items).
  split; [by subst items|]. split; [done|]. simpl in He.
  case_bool_decide as Hp; simpl in He.
  - left. split; [done|]. by apply list_elem_of_singleton in He.
  - right. split; [done|].
    apply elem_of_cons in He as [->|He]; [by left|].
    right. by apply list_elem_of_singleton in He.
Qed.

(** The requests of a delete run are those of the tables reached, in the
    order of [deletionOrder]; a run that does not fail reaches every
    table. *)
Lemma delete_requests_reached failure deletions :
  ∃ reached rest,
    deletionOrder = reached ++ rest
    ∧ (deleteDataFromSupabase failure deletions).1
      = reached ≫= deleteRequests deletions
    ∧ ((deleteDataFromSupabase failure deletions).2 = None → rest = []).
Proof. apply awaitEach_reached. Qed.

(** X15. Tombstones are written before rows are deleted, whatever the
    remote store answers: every remote delete [deleteDataFromSupabase]
    issues carries at least one id and, for every table but [profiles],
    directly follows the deletion-log entry for the same table and the same
    ids; every log entry is directly followed by its delete, and [profiles]
    are never logged. *)
Theorem deletes_follow_their_tombstones
    (failure : table → option RemoteError)
    (deletions : FlatData) (t : string) (ids : list (option string)) :
  let effects := (deleteDataFromSupabase failure deletions).1 in
  (RemoteDelete t ids ∈ effects →
     ids ≠ []
     ∧ (t = "profiles"
        ∨ adjacent (LogDeletions t ids) (RemoteDelete t ids) effects))
  ∧ (LogDeletions t ids ∈ effects →
       t ≠ "profiles"
       ∧ adjacent (LogDeletions t ids) (RemoteDelete t ids) effects).
Proof.
  cbn zeta.
  destruct (delete_requests_reached failure deletions)
    as (reached & rest & _ & -> & _).
  assert (Hadj : ∀ key l1 l2 g,
    key ≠ T_profiles → tbl key deletions ≠ [] →
    g key = [LogDeletions (tableName key)
               ((if bool_decide (key = T_assistants) then name else id)
                  <$> tbl key deletions);
             RemoteDelete (tableName key)
               ((if bool_decide (key = T_assistants) then name else id)
                  <$> tbl key deletions)] →
    adjacent (LogDeletions (tableName key)
                ((if bool_decide (key = T_assistants) then name else id)
                   <$> tbl key deletions))
             (RemoteDelete (tableName key)
                ((if bool_decide (key = T_assistants) then name else id)
                   <$> tbl key deletions))
             ((l1 ≫= g) ++ g key ++ (l2 ≫= g))).
  { intros key l1 l2 g _ _ ->. by exists (l1 ≫= g), (l2 ≫= g). }
  split; intros (l1 & key & l2 & _ & He & ->)%elem_of_bind_split;
    pose proof He as He';
    apply delete_effects_of_table in He'
      as (ids' & Hne & Hids & [[Hkey He']|[Hkey He']]).
  - injection He' as -> ->. split; [done|]. left. by subst key.
  - destruct He' as [?|[= -> ->]]; [done|]. split; [done|]. right.
    rewrite Hids. apply Hadj; [done|by intros E; rewrite E in Hids|].
    unfold deleteRequests. destruct (tbl key deletions); [done|].
    by rewrite (bool_decide_eq_false_2 _ Hkey).
  - done.
  - destruct He' as [[= -> ->]|?]; [|done].
    split; [by destruct key|].
    rewrite Hids. apply Hadj; [done|by intros E; rewrite E in Hids|].
    unfold deleteRequests. destruct (tbl key deletions); [done|].
    by rewrite (bool_decide_eq_false_2 _ Hkey).
Qed.

Lemma flatDeletes_ids deletedIds key :
  (if bool_decide (key = T_assistants) then name else id)
    <$> tbl key (flatDeletesOf deletedIds)
  = if bool_decide (key = T_profiles) then []
    else Some <$> pendingIds deletedIds (entityKey key).
Proof.
  destruct key; simpl; try done; by rewrite <-list_fmap_compose.
Qed.

(** The delete requests for a table of [flatDeletes]. *)
Lemma elem_of_pending_deletes deletedIds keys key ids :
  RemoteDelete (tableName key) ids
    ∈ keys ≫= deleteRequests (flatDeletesOf deletedIds)
  ↔ key ∈ keys
    ∧ key ≠ T_profiles
    ∧ pendingIds deletedIds (entityKey key) ≠ []
    ∧ ids = Some <$> pendingIds deletedIds (entityKey key).
Proof.
  rewrite list_elem_of_bind. split.
  - intros (key' & He & Hin).
    apply delete_effects_of_table in He
      as (ids' & Hne & Hids & [[Hkey He]|[Hkey [He|He]]]); [|done|].
    + rewrite flatDeletes_ids, bool_decide_eq_true_2 in Hids by done.
      by subst ids'.
    + injection He as Hname ->. apply tableName_inj in Hname as ->.
      rewrite flatDeletes_ids in Hids.
      rewrite (bool_decide_eq_false_2 (key' = T_profiles)) in Hids by done.
      split; [done|]. split; [done|]. split; [|done]. intros E.
      rewrite E in Hids. by subst ids'.
  - intros (Hin & Hkey & Hne & ->). exists key. split; [|done].
    pose proof (flatDeletes_ids deletedIds key) as Hids.
    rewrite (bool_decide_eq_false_2 (key = T_profiles)) in Hids by done.
    unfold deleteRequests.
    destruct (tbl key (flatDeletesOf deletedIds)) as [|x l] eqn:E.
    { simpl in Hids. by destruct (pendingIds _ _). }
    rewrite Hids, (bool_decide_eq_false_2 _ Hkey). simpl.
    apply elem_of_cons. right. by left.
Qed.

(** ** Remote push stage: order and shape of the requests *)

Lemma upsert_names_sublist (f : table → list item) (l : list table) :
  fst <$> (l ≫= (λ key, upsertTable key (f key)))
    `sublist_of` (tableName <$> l).
Proof.
  induction l as [|key l IH]; [done|].
  rewrite bind_cons, fmap_app, fmap_cons.
  destruct (f key) as [|x rows]; simpl.
  - by apply sublist_cons.
  - by apply sublist_skip.
Qed.

(** X17. Shape of a push, whatever the remote store answers: the upsert
    requests name each table at most once and are issued in the order
    profiles, assistants, clients, cases, stages, sessions, invoices,
    invoice_items, case_documents, admin_tasks, appointments,
    accounting_entries, site_finances (a parent table before its children;
    the last four are started together, in that order), and no request is
    sent for a table without rows. *)
Theorem upsert_requests_are_ordered
    (failure : table → option RemoteError)
    (data : FlatData) (userId : string) :
  fst <$> (upsertDataToSupabase failure data userId).1
    `sublist_of` ["profiles"; "assistants"; "clients"; "cases"; "stages";
                  "sessions"; "invoices"; "invoice_items"; "case_documents";
                  "admin_tasks"; "appointments"; "accounting_entries";
                  "site_finances"]
  ∧ NoDup (fst <$> (upsertDataToSupabase failure data userId).1)
  ∧ ∀ t rows, (t, rows) ∈ (upsertDataToSupabase failure data userId).1 →
              rows ≠ [].
Proof.
  assert (Hsub : fst <$> (upsertDataToSupabase failure data userId).1
                   `sublist_of` (tableName <$> upsertOrder)).
  { destruct (upsert_requests_reached failure data userId)
      as (reached & rest & -> & -> & _).
    etrans; [apply upsert_names_sublist|].
    rewrite fmap_app. by apply sublist_inserts_r. }
  split; [exact Hsub|]. split.
  - eapply sublist_NoDup; [|exact Hsub]. decide_by_computation.
  - by intros t rows (key & _ & _ & Hne)%elem_of_upsert_requests.
Qed.

(** ** Renaming properties: push, echo and back *)

Lemma lookup_setProp k (v : option jsval) (m : gmap string jsval) k' :
  setProp k v m !! k' = if decide (k = k') then v else m !! k'.
Proof.
  unfold setProp. destruct v.
  - rewrite lookup_insert. by case_decide.
  - rewrite lookup_delete. by case_decide.
Qed.

Lemma lookup_deleted_props (pairs : list (string * string))
    (m : gmap string jsval) i :
  foldr (λ p acc, delete p.1 acc) m pairs !! i
  = if decide (i ∈ fst <$> pairs) then None else m !! i.
Proof.
  induction pairs as [|p ps IH].
  - case_decide as Hi; [by apply elem_of_nil in Hi|done].
  - change (foldr (λ p acc, delete p.1 acc) m (p :: ps))
      with (delete p.1 (foldr (λ p acc, delete p.1 acc) m ps)).
    rewrite lookup_delete, IH, fmap_cons.
    destruct (decide (p.1 = i)) as [E|E];
      destruct (decide (i ∈ fst <$> ps)) as [H1|H1];
      destruct (decide (i ∈ p.1 :: (fst <$> ps))) as [H2|H2];
      try done; exfalso.
    + apply H2. rewrite E. by left.
    + apply H2. rewrite E. by left.
    + apply H2. by right.
    + apply elem_of_cons in H2 as [H2|H2]; [by apply E|by apply H1].
Qed.

Lemma lookup_set_props_other (src acc : gmap string jsval)
    (pairs : list (string * string)) i :
  i ∉ snd <$> pairs →
  foldl (λ acc p, setProp p.2 (src !! p.1) acc) acc pairs !! i = acc !! i.
Proof.
  revert acc. induction pairs as [|p ps IH]; intros acc Hi; [done|].
  rewrite fmap_cons, not_elem_of_cons in Hi. destruct Hi as [Hp Hi]. simpl.
  rewrite IH, lookup_setProp by done. by rewrite decide_False.
Qed.

Lemma lookup_set_props (src acc : gmap string jsval)
    (pairs : list (string * string)) o n :
  NoDup (snd <$> pairs) → (o, n) ∈ pairs →
  foldl (λ acc p, setProp p.2 (src !! p.1) acc) acc pairs !! n = src !! o.
Proof.
  revert acc. induction pairs as [|p ps IH]; intros acc Hnd Hin.
  { by apply elem_of_nil in Hin. }
  rewrite fmap_cons in Hnd. apply NoDup_cons in Hnd as [Hnot Hnd]. simpl.
  apply elem_of_cons in Hin as [<-|Hin].
  - rewrite lookup_set_props_other by done.
    rewrite lookup_setProp. by rewrite decide_True.
  - by apply IH.
Qed.

Lemma lookup_renameProps_new pairs m o n :
  NoDup (snd <$> pairs) → (o, n) ∈ pairs → renameProps pairs m !! n = m !! o.
Proof. intros. unfold renameProps. by apply lookup_set_props. Qed.

Lemma lookup_renameProps_other pairs m i :
  i ∉ snd <$> pairs →
  renameProps pairs m !! i
  = if decide (i ∈ fst <$> pairs) then None else m !! i.
Proof.
  intros. unfold renameProps.
  by rewrite lookup_set_props_other, lookup_deleted_props.
Qed.

(** Renaming, adding a property and renaming back gives the map with the
    property added, when it had none of the new names. *)
Lemma renameProps_inverse (pairs : list (string * string))
    (m : gmap string jsval) k v :
  NoDup ((fst <$> pairs) ++ (snd <$> pairs)) →
  (∀ n, n ∈ snd <$> pairs → m !! n = None) →
  k ∉ (fst <$> pairs) ++ (snd <$> pairs) →
  renameProps (prod_swap <$> pairs) (<[k := v]> (renameProps pairs m))
  = <[k := v]> m.
Proof.
  intros Hnd Hm Hk.
  apply NoDup_app in Hnd as (Hfst & Hdisj & Hsnd).
  rewrite not_elem_of_app in Hk. destruct Hk as [Hk1 Hk2].
  assert (Efst : fst <$> (prod_swap <$> pairs) = snd <$> pairs).
  { rewrite <-list_fmap_compose. apply Forall_fmap_ext_1, Forall_forall.
    by intros [??]. }
  assert (Esnd : snd <$> (prod_swap <$> pairs) = fst <$> pairs).
  { rewrite <-list_fmap_compose. apply Forall_fmap_ext_1, Forall_forall.
    by intros [??]. }
  apply map_eq. intros i.
  destruct (decide (i ∈ fst <$> pairs)) as [Hi|Hi].
  - pose proof Hi as Hi'.
    apply list_elem_of_fmap in Hi' as ([o n] & -> & Hin). simpl.
    rewrite (lookup_renameProps_new _ _ n o).
    + assert (Hn : n ∈ snd <$> pairs).
      { apply list_elem_of_fmap. by exists (o, n). }
      rewrite !lookup_insert_ne by (intros ->; done).
      by apply lookup_renameProps_new.
    + by rewrite Esnd.
    + apply list_elem_of_fmap. by exists (o, n).
  - rewrite lookup_renameProps_other by (by rewrite Esnd). rewrite Efst.
    destruct (decide (i ∈ snd <$> pairs)) as [Hs|Hs].
    + rewrite lookup_insert_ne by (intros ->; done). by rewrite Hm.
    + destruct (decide (k = i)) as [->|Hne].
      * by rewrite !lookup_insert_eq.
      * rewrite !lookup_insert_ne by done.
        rewrite lookup_renameProps_other by done. by rewrite decide_False.
Qed.

(** X18. Push and transform back: for the tables pushed by renaming
    properties (clients, cases, stages, admin tasks, appointments,
    accounting entries, invoices, invoice items), transforming the pushed
    rows back with [transformRemoteToLocal] gives the local records again,
    each with the [user_id] of the pushing user and nothing else changed,
    provided the records carry no property under a remote name. *)
Theorem push_then_transform_back
    (userId : string) (data : FlatData) (key : table) :
  key ∈ renamedTables →
  (∀ x, x ∈ tbl key data → isLocalRecord key x) →
  remoteToLocal key <$> rowsToUpsert userId data key
  = withUser userId <$> tbl key data.
Proof.
  intros Hkey Hlocal.
  assert (Hrest : ∀ x, x ∈ tbl key data →
    renameProps (prod_swap <$> renamedProps key)
      (<["user_id" := JStr userId]> (renameProps (renamedProps key) (rest x)))
    = <["user_id" := JStr userId]> (rest x)).
  { intros x [Hnames _]%Hlocal. apply renameProps_inverse; [|done|].
    - unfold renamedTables in Hkey. rewrite !elem_of_cons in Hkey.
      destruct Hkey as [->|[->|[->|[->|[->|[->|[->|[->|[]%elem_of_nil]]]]]]]];
        decide_by_computation.
    - unfold renamedTables in Hkey. rewrite !elem_of_cons in Hkey.
      destruct Hkey as [->|[->|[->|[->|[->|[->|[->|[->|[]%elem_of_nil]]]]]]]];
        decide_by_computation. }
  assert (Hrefs : ∀ x, x ∈ tbl key data →
    key = T_accounting_entries ∨ key = T_invoices →
    client_id x = None ∧ case_id x = None).
  { intros x [_ Hx]%Hlocal. exact Hx. }
  unfold renamedTables in Hkey. rewrite !elem_of_cons in Hkey.
  destruct Hkey as [->|[->|[->|[->|[->|[->|[->|[->|[]%elem_of_nil]]]]]]]];
    cbv [rowsToUpsert remoteToLocal tbl];
    rewrite <-list_fmap_compose;
    apply Forall_fmap_ext_1, Forall_forall; intros x Hx;
    pose proof (Hrest x Hx) as Hr; pose proof (Hrefs x Hx) as Hc;
    destruct x;
    cbv [renamedProps rest client_id case_id fmap list_fmap prod_swap
         fst snd] in Hr, Hc;
    cbv [compose withUser renameRest refsToLocal refsToRemote set_rest
         set_clientId set_caseId set_client_id set_case_id
         id name updated_at client_id case_id stage_id invoice_id clientId
         caseId localState isLocalOnly rest];
    try (destruct Hc as [-> ->]; [by auto|]);
    f_equal; exact Hr.
Qed.

Lemma push_then_transform_back_witness :
  remoteToLocal T_clients <$> rowsToUpsert "u1" contactData T_clients
  = withUser "u1" <$> tbl T_clients contactData.
Proof.
  apply (push_then_transform_back "u1" contactData T_clients).
  - decide_by_computation.
  - intros x Hx%list_elem_of_singleton. subst x. split.
    + intros n Hn%list_elem_of_singleton. by subst n.
    + by intros [?|?].
Defined.

Ltac not_in_names :=
  repeat (apply not_elem_of_cons; split; [done|]); apply not_elem_of_nil.

(** X19. The echo of a pushed document has lost its residency: pushing a
    local document and transforming the row back gives the document owned
    by the pushing user, with [localState] and [isLocalOnly] undefined and
    everything else as it was. *)
Theorem document_echo_has_no_residency (userId : string) (doc : item) :
  rest doc !! "user_id" = None →
  rest doc !! "added_at" = None →
  rest doc !! "storage_path" = None →
  case_id doc = None →
  remoteToLocal T_case_documents (documentRow userId doc)
  = set_rest (<["userId" := JStr userId]> (rest doc))
             (set_localState None (set_isLocalOnly None doc)).
Proof.
  intros Huser Hadded Hpath Hcase.
  set (toRemote := [("addedAt", "added_at"); ("storagePath", "storage_path")]).
  set (toLocal := [("user_id", "userId"); ("added_at", "addedAt");
                   ("storage_path", "storagePath")]).
  assert (Hrest :
    renameProps toLocal
      (<["user_id" := JStr userId]>
         (renameProps toRemote (delete "userId" (rest doc))))
    = <["userId" := JStr userId]> (rest doc)).
  { assert (Hnd : NoDup (snd <$> toLocal)) by decide_by_computation.
    assert (Hnd' : NoDup (snd <$> toRemote)) by decide_by_computation.
    apply map_eq. intros i.
    destruct (decide (i = "userId")) as [->|H1].
    { rewrite (lookup_renameProps_new toLocal _ "user_id") by
        (done || decide_by_computation).
      by rewrite !lookup_insert_eq. }
    destruct (decide (i = "addedAt")) as [->|H2].
    { rewrite (lookup_renameProps_new toLocal _ "added_at") by
        (done || decide_by_computation).
      rewrite !lookup_insert_ne by done.
      rewrite (lookup_renameProps_new toRemote _ "addedAt") by
        (done || decide_by_computation).
      by rewrite lookup_delete_ne. }
    destruct (decide (i = "storagePath")) as [->|H3].
    { rewrite (lookup_renameProps_new toLocal _ "storage_path") by
        (done || decide_by_computation).
      rewrite !lookup_insert_ne by done.
      rewrite (lookup_renameProps_new toRemote _ "storagePath") by
        (done || decide_by_computation).
      by rewrite lookup_delete_ne. }
    rewrite lookup_renameProps_other by (unfold toLocal; simpl; not_in_names).
    rewrite (lookup_insert_ne _ "userId") by done.
    destruct (decide (i = "user_id")) as [->|H4].
    { rewrite decide_True by decide_by_computation. done. }
    destruct (decide (i = "added_at")) as [->|H5].
    { rewrite decide_True by decide_by_computation. done. }
    destruct (decide (i = "storage_path")) as [->|H6].
    { rewrite decide_True by decide_by_computation. done. }
    rewrite decide_False by (unfold toLocal; simpl; not_in_names).
    rewrite lookup_insert_ne by done.
    rewrite lookup_renameProps_other by (unfold toRemote; simpl; not_in_names).
    rewrite decide_False by (unfold toRemote; simpl; not_in_names).
    by rewrite lookup_delete_ne. }
  destruct doc.
  cbv [rest case_id] in Hrest, Hcase. subst.
  cbv [remoteToLocal documentRow withUser renameRest set_rest set_caseId
       set_case_id set_localState set_isLocalOnly
       id name updated_at client_id case_id stage_id invoice_id clientId
       caseId localState isLocalOnly rest].
  f_equal. exact Hrest.
Qed.

Lemma document_echo_has_no_residency_witness :
  remoteToLocal T_case_documents (documentRow "u1" pushedDoc)
  = set_rest (<["userId" := JStr "u1"]> (rest pushedDoc))
             (set_localState None (set_isLocalOnly None pushedDoc)).
Proof.
  by apply (document_echo_has_no_residency "u1" pushedDoc).
Defined.

Lemma lookup_picked_props (src acc : gmap string jsval) (keys : list string) i :
  foldl (λ acc k, setProp k (src !! k) acc) acc keys !! i
  = if decide (i ∈ keys) then src !! i else acc !! i.
Proof.
  revert acc. induction keys as [|k ks IH]; intros acc.
  - case_decide as Hi; [by apply elem_of_nil in Hi|done].
  - change (foldl (λ acc k, setProp k (src !! k) acc) acc (k :: ks))
      with (foldl (λ acc k, setProp k (src !! k) acc)
                  (setProp k (src !! k) acc) ks).
    rewrite IH, lookup_setProp.
    destruct (decide (i ∈ ks)) as [H1|H1];
      destruct (decide (k = i)) as [E|E];
      destruct (decide (i ∈ k :: ks)) as [H2|H2]; subst; try done; exfalso;
      first [ apply H2; rewrite elem_of_cons; by auto
            | apply elem_of_cons in H2 as [H2|H2]; by auto ].
Qed.

(** X20. What a session row carries: besides [id], [stage_id] and
    [updated_at], the row pushed for a session holds the [user_id] of the
    pushing user and the ten properties the mapping names, each as the
    session has it under that very name; no other property of the session
    is in the row. *)
Theorem session_row_carries_named_props_only
    (userId : string) (s : item) (i : string) :
  rest (sessionRow userId s) !! i
  = if decide (i = "user_id") then Some (JStr userId)
    else if decide (i ∈ sessionRowProps) then rest s !! i
    else None.
Proof.
  cbv [sessionRow withUser set_rest rest pickProps].
  rewrite lookup_insert.
  destruct (decide ("user_id" = i)) as [<-|Hne].
  - by rewrite decide_True.
  - rewrite decide_False by done.
    rewrite lookup_picked_props. fold sessionRowProps.
    destruct s. cbv [rest]. by case_decide.
Qed.

(** ** Nesting the flat tables: [constructData] then [flattenData] *)

Lemma set_client_id_same x k : client_id x = k → set_client_id k x = x.
Proof. intros <-. by destruct x. Qed.

Lemma set_case_id_same x k : case_id x = k → set_case_id k x = x.
Proof. intros <-. by destruct x. Qed.

Lemma set_stage_id_same x k : stage_id x = k → set_stage_id k x = x.
Proof. intros <-. by destruct x. Qed.

Lemma set_invoice_id_same x k : invoice_id x = k → set_invoice_id k x = x.
Proof. intros <-. by destruct x. Qed.

Lemma elem_of_flatCases_construct (F : FlatData) (cs : Case) :
  cs ∈ flatCases (constructData F)
  ↔ ∃ x, cs = mkCase x (groupGet (stageMap F) (id x))
         ∧ x ∈ f_cases F ∧ refersTo (f_clients F) (client_id x).
Proof.
  unfold flatCases. rewrite list_elem_of_bind. split.
  - intros (c & Hcs & Hc).
    apply list_elem_of_fmap in Hc as (c0 & -> & Hc0).
    apply list_elem_of_fmap in Hcs as (cs0 & -> & Hcs0).
    cbn [cases] in Hcs0. rewrite groupGet_group in Hcs0.
    apply list_elem_of_fmap in Hcs0 as (x & -> & Hx).
    apply list_elem_of_filter in Hx as [Hk Hx].
    exists x. cbn [case_item stages client_item].
    rewrite set_client_id_same by done.
    split; [done|]. split; [done|]. by exists c0.
  - intros (x & -> & Hx & c0 & Hc0 & Hk).
    exists (mkClient c0 (groupGet
      (foldl (λ m cs, groupPush (client_id cs)
                (mkCase cs (groupGet (stageMap F) (id cs))) m) ∅ (f_cases F))
      (id c0))).
    split; [|by apply (list_elem_of_fmap_2
                         (λ c, mkClient c (groupGet _ (id c))))].
    cbn [cases]. rewrite groupGet_group.
    apply list_elem_of_fmap.
    exists (mkCase x (groupGet (stageMap F) (id x))).
    cbn [case_item stages client_item].
    rewrite set_client_id_same by done. split; [done|].
    apply (list_elem_of_fmap_2 (λ cs, mkCase cs (groupGet _ (id cs)))).
    by apply list_elem_of_filter.
Qed.

Lemma elem_of_flatStages_construct (F : FlatData) (st : Stage) :
  st ∈ flatStages (constructData F)
  ↔ ∃ y, st = mkStage y (groupGet (sessionMap F) (id y))
         ∧ y ∈ f_stages F
         ∧ refersTo (case_item <$> flatCases (constructData F)) (case_id y).
Proof.
  unfold flatStages. rewrite list_elem_of_bind. split.
  - intros (cs & Hst & Hcs).
    pose proof Hcs as Hcs'.
    apply elem_of_flatCases_construct in Hcs' as (x & -> & Hx & Hc).
    apply list_elem_of_fmap in Hst as (st0 & -> & Hst0).
    cbn [stages] in Hst0. unfold stageMap in Hst0.
    rewrite groupGet_group in Hst0.
    apply list_elem_of_fmap in Hst0 as (y & -> & Hy).
    apply list_elem_of_filter in Hy as [Hk Hy].
    exists y. cbn [case_item stage_item sessions].
    rewrite set_case_id_same by done.
    split; [done|]. split; [done|].
    exists x. split; [|done].
    by apply (list_elem_of_fmap_2 case_item) in Hcs.
  - intros (y & -> & Hy & x & Hx & Hk).
    apply list_elem_of_fmap in Hx as (cs & -> & Hcs).
    exists cs. split; [|done].
    pose proof Hcs as Hcs'.
    apply elem_of_flatCases_construct in Hcs' as (x & -> & Hx & Hc).
    cbn [case_item] in Hk. cbn [stages case_item].
    unfold stageMap. rewrite groupGet_group.
    apply list_elem_of_fmap.
    exists (mkStage y (groupGet (sessionMap F) (id y))).
    cbn [stage_item sessions].
    rewrite set_case_id_same by done. split; [done|].
    apply (list_elem_of_fmap_2 (λ st, mkStage st (groupGet _ (id st)))).
    by apply list_elem_of_filter.
Qed.

Lemma elem_of_flatSessions_construct (F : FlatData) (s : item) :
  s ∈ flatSessions (constructData F)
  ↔ s ∈ f_sessions F
    ∧ refersTo (stage_item <$> flatStages (constructData F)) (stage_id s).
Proof.
  unfold flatSessions. rewrite list_elem_of_bind. split.
  - intros (st & Hs & Hst).
    pose proof Hst as Hst'.
    apply elem_of_flatStages_construct in Hst' as (y & -> & Hy & Hc).
    apply list_elem_of_fmap in Hs as (s0 & -> & Hs0).
    cbn [sessions] in Hs0. unfold sessionMap in Hs0.
    rewrite (groupGet_group stage_id (λ s, s)), list_fmap_id in Hs0.
    apply list_elem_of_filter in Hs0 as [Hk Hs0].
    cbn [stage_item]. rewrite set_stage_id_same by done.
    split; [done|]. exists y. split; [|done].
    by apply (list_elem_of_fmap_2 stage_item) in Hst.
  - intros (Hs & y & Hy & Hk).
    apply list_elem_of_fmap in Hy as (st & -> & Hst).
    exists st. split; [|done].
    pose proof Hst as Hst'.
    apply elem_of_flatStages_construct in Hst' as (y & -> & Hy & Hc).
    cbn [stage_item] in Hk. cbn [sessions stage_item].
    unfold sessionMap.
    rewrite (groupGet_group stage_id (λ s, s)), list_fmap_id.
    apply list_elem_of_fmap. exists s.
    rewrite set_stage_id_same by done. split; [done|].
    by apply list_elem_of_filter.
Qed.

Lemma elem_of_flatInvoiceItems_construct (F : FlatData) (it : item) :
  it ∈ flatInvoiceItems (constructData F)
  ↔ it ∈ f_invoice_items F ∧ refersTo (f_invoices F) (invoice_id it).
Proof.
  unfold flatInvoiceItems. rewrite list_elem_of_bind. split.
  - intros (inv & Hit & Hinv).
    apply list_elem_of_fmap in Hinv as (inv0 & -> & Hinv0).
    apply list_elem_of_fmap in Hit as (it0 & -> & Hit0).
    cbn [items] in Hit0.
    rewrite (groupGet_group invoice_id (λ it, it)), list_fmap_id in Hit0.
    apply list_elem_of_filter in Hit0 as [Hk Hit0].
    cbn [invoice_item]. rewrite set_invoice_id_same by done.
    split; [done|]. by exists inv0.
  - intros (Hit & inv0 & Hinv0 & Hk).
    exists (mkInvoice inv0 (groupGet
      (foldl (λ m it, groupPush (invoice_id it) it m) ∅ (f_invoice_items F))
      (id inv0))).
    split; [|by apply (list_elem_of_fmap_2
                         (λ inv, mkInvoice inv (groupGet _ (id inv))))].
    cbn [items invoice_item].
    rewrite (groupGet_group invoice_id (λ it, it)), list_fmap_id.
    apply list_elem_of_fmap. exists it.
    rewrite set_invoice_id_same by done. split; [done|].
    by apply list_elem_of_filter.
Qed.

(** X21. Nesting keeps exactly the complete chains: flattening the graph
    [constructData] builds gives back the clients and the invoices as they
    were, and of the other nested tables exactly the records whose parent
    was kept: a case whose [client_id] is the id of a client, a stage whose
    [case_id] is the id of a kept case, a session whose [stage_id] is the id
    of a kept stage, an invoice item whose [invoice_id] is the id of an
    invoice.  A record whose parent is missing is not in the graph. *)
Theorem nesting_keeps_complete_chains (F : FlatData) :
  let G := flattenData (constructData F) in
  f_clients G = f_clients F
  ∧ f_invoices G = f_invoices F
  ∧ (∀ x, x ∈ f_cases G
          ↔ x ∈ f_cases F ∧ refersTo (f_clients F) (client_id x))
  ∧ (∀ x, x ∈ f_stages G
          ↔ x ∈ f_stages F ∧ refersTo (f_cases G) (case_id x))
  ∧ (∀ x, x ∈ f_sessions G
          ↔ x ∈ f_sessions F ∧ refersTo (f_stages G) (stage_id x))
  ∧ (∀ x, x ∈ f_invoice_items G
          ↔ x ∈ f_invoice_items F ∧ refersTo (f_invoices F) (invoice_id x)).
Proof.
  cbn zeta. unfold flattenData. cbn [f_clients f_invoices f_cases f_stages
    f_sessions f_invoice_items].
  split; [|split; [|split; [|split; [|split]]]].
  - unfold constructData. cbn [clients]. rewrite <-list_fmap_compose.
    apply list_fmap_id.
  - unfold constructData. cbn [invoices]. rewrite <-list_fmap_compose.
    apply list_fmap_id.
  - intros x. rewrite list_elem_of_fmap. split.
    + intros (cs & -> & (y & -> & Hy & Hc)%elem_of_flatCases_construct).
      done.
    + intros [Hx Hc]. exists (mkCase x (groupGet (stageMap F) (id x))).
      split; [done|]. apply elem_of_flatCases_construct. by exists x.
  - intros x. rewrite list_elem_of_fmap. split.
    + intros (st & -> & (y & -> & Hy & Hc)%elem_of_flatStages_construct).
      done.
    + intros [Hx Hc]. exists (mkStage x (groupGet (sessionMap F) (id x))).
      split; [done|]. apply elem_of_flatStages_construct. by exists x.
  - intros x. apply elem_of_flatSessions_construct.
  - intros x. apply elem_of_flatInvoiceItems_construct.
Qed.

(** ** The orchestrator: guards, order of a round, reported deletions *)

(** X22. A sync acts only when it is allowed to: whatever [manualSync] does
    besides changing the status (a call on the remote store or a callback of
    the data layer) happens only when no sync is running, authentication is
    settled, the device is online, a user is signed in and the schema check
    succeeded; and it is then an effect of the round run for that user. *)
Theorem sync_acts_only_when_allowed
    (ctx : SyncContext) (schemaCheck : SchemaCheck) (localData : AppData)
    (deletedIds : DeletedIds) (env : RemoteAnswers) (e : effect) :
  e ∈ manualSync ctx schemaCheck localData deletedIds env →
  isStatusChange e = false →
  syncStatus ctx ≠ S_syncing
  ∧ isAuthLoading ctx = false
  ∧ isOnline ctx = true
  ∧ schemaCheck = SchemaOk
  ∧ ∃ userId, user ctx = Some userId
              ∧ e ∈ syncRound userId localData deletedIds env.
Proof.
  unfold manualSync. intros He Hns.
  assert (Hst : ∀ s, e ≠ SetStatus s) by (by intros s ->).
  destruct (syncStatus ctx) eqn:Es; try (by apply elem_of_nil in He);
    (destruct (isAuthLoading ctx); [by apply elem_of_nil in He|]);
    (destruct (isOnline ctx), (user ctx) as [userId|];
       try (apply list_elem_of_singleton in He; by destruct (Hst _ He)));
    (apply elem_of_cons in He as [He|He]; [by destruct (Hst _ He)|]);
    (destruct schemaCheck;
       try (apply list_elem_of_singleton in He; by destruct (Hst _ He)));
    (apply elem_of_cons in He as [He|He]; [by destruct (Hst _ He)|]);
    (repeat split; [done|by exists userId]).
Qed.

Lemma sync_acts_only_when_allowed_witness :
  syncStatus readyContext ≠ S_syncing
  ∧ isAuthLoading readyContext = false
  ∧ isOnline readyContext = true
  ∧ SchemaOk = SchemaOk
  ∧ ∃ userId, user readyContext = Some userId
      ∧ OnDataSynced
          (constructData (transformRemoteToLocal (remoteDataRaw threeClients)))
        ∈ syncRound userId noData getInitialDeletedIds threeClients.
Proof.
  apply (sync_acts_only_when_allowed readyContext SchemaOk noData
           getInitialDeletedIds threeClients).
  - apply (list_elem_of_lookup_2 _ 2%nat). vm_compute. reflexivity.
  - reflexivity.
Defined.

Lemma storage_phase (paths : list string) (st : option bool) :
  Forall (λ e, phase e = None ∨ phase e = Some 0%nat)
    match paths, st with
    | [], _ => []
    | _ :: _, None => [SetStatus S_syncing]
    | p :: ps, Some _ => [SetStatus S_syncing; StorageRemove (p :: ps)]
    end.
Proof.
  destruct paths, st;
    repeat first [ apply Forall_nil_2
                 | apply Forall_cons_2; [first [by left | by right]|] ].
Qed.

Lemma delete_phase failure (deletions : FlatData) :
  Forall (λ e, phase e = None ∨ phase e = Some 1%nat)
         (deleteDataFromSupabase failure deletions).1.
Proof.
  destruct (delete_requests_reached failure deletions)
    as (reached & rest & _ & -> & _).
  apply Forall_forall. intros e. rewrite list_elem_of_bind.
  intros (key & He & _).
  apply delete_effects_of_table in He as (ids & _ & _ & [[_ ->]|[_ [->| ->]]]);
    by right.
Qed.

Lemma upsert_phase (requests : list (string * list item)) :
  Forall (λ e, phase e = None ∨ phase e = Some 2%nat)
         ((λ r, RemoteUpsert r.1 r.2) <$> requests).
Proof.
  apply Forall_forall. intros e (r & -> & _)%list_elem_of_fmap. by right.
Qed.



Lemma anyDeletes_spec (deletedIds : DeletedIds) :
  existsb (λ key, negb (isEmpty (tbl key (flatDeletesOf deletedIds))))
          allTables = true
  ↔ rowDeletionsPending deletedIds.
Proof.
  rewrite existsb_exists. split.
  - intros (key & _ & Hne). exists key.
    destruct key; simpl in *; try done;
      (split; [done|]); intros E; by rewrite E in Hne.
  - intros (key & Hkey & Hne). exists key. split.
    + unfold allTables. destruct key; simpl; tauto.
    + destruct key; simpl in *; try done;
        match goal with
        | H : ?l ≠ [] |- _ => by destruct l
        end.
Qed.

(** The three ways a round goes: a failing fetch, the fast path, and the
    stages of the slow path, each of which may stop the round. *)
Lemma syncRound_shape userId localData deletedIds env :
  (∃ err, fetchError env = Some err
          ∧ syncRound userId localData deletedIds env
            = [SetStatus (statusOfError err)])
  ∨ (fetchError env = None
     ∧ hasPendingDeletions deletedIds = false
     ∧ syncRound userId localData deletedIds env
       = [OnDataSynced
            (constructData (transformRemoteToLocal (remoteDataRaw env)));
          SetStatus S_synced])
  ∨ (fetchError env = None
     ∧ ∃ storageEffects deleted flatUpserts mergedData,
         let anyDeletes :=
           existsb (λ key, negb (isEmpty (tbl key (flatDeletesOf deletedIds))))
                   allTables in
         let upserted :=
           upsertDataToSupabase (upsertError env) flatUpserts userId in
         Forall (λ e, phase e = None ∨ phase e = Some 0%nat) storageEffects
         ∧ deleted
           = (if anyDeletes
              then deleteDataFromSupabase (deleteError env)
                                          (flatDeletesOf deletedIds)
              else ([], None))
         ∧ syncRound userId localData deletedIds env
           = storageEffects
             ++ (if anyDeletes then SetStatus S_syncing :: deleted.1 else [])
             ++ match deleted.2 with
                | Some err => [SetStatus (statusOfError err)]
                | None =>
                    [SetStatus S_syncing]
                    ++ ((λ r, RemoteUpsert r.1 r.2) <$> upserted.1)
                    ++ match upserted.2 with
                       | Some err => [SetStatus (statusOfError err)]
                       | None =>
                           [OnDataSynced mergedData;
                            OnDeletionsSynced
                              (if anyDeletes then deletedIds
                               else match d_documentPaths deletedIds,
                                          storage env with
                                    | (_ :: _) as paths, Some true =>
                                        withDocumentPaths paths
                                          getInitialDeletedIds
                                    | _, _ => getInitialDeletedIds
                                    end);
                            SetStatus S_synced]
                       end
                end).
Proof.
  unfold syncRound.
  destruct (fetchError env) as [err|]; [left; by exists err|].
  right.
  destruct (isLocalEffectivelyEmpty _) eqn:Hlocal; cbn [andb negb];
    [destruct (isRemoteEffectivelyEmpty _) eqn:Hremote; cbn [andb negb];
       [|destruct (hasPendingDeletions deletedIds) eqn:Hpending;
         cbn [andb negb]; [|by left]]|];
    right; (split; [done|]);
    destruct (mergeAll _ _ _) as [flatUpserts mergedFlatData];
    eexists _, _, flatUpserts, _;
    (split; [apply storage_phase|]); (split; [reflexivity|]); reflexivity.
Qed.









(** X16. A sync round asks the remote store to delete only what is pending,
    and all of it before it reports any deletion: every delete request of a
    round is for a table other than [profiles] whose pending list is not
    empty and carries the pending ids of that table, in order; and in a
    round that calls the deletions callback, every such table has had its
    delete request.  Pending [profiles] deletions are never sent. *)
Theorem round_deletes_exactly_the_pending_ids
    (userId : string) (localData : AppData) (deletedIds : DeletedIds)
    (env : RemoteAnswers) (key : table) :
  let round := syncRound userId localData deletedIds env in
  (∀ ids, RemoteDelete (tableName key) ids ∈ round →
          key ≠ T_profiles
          ∧ pendingIds deletedIds (entityKey key) ≠ []
          ∧ ids = Some <$> pendingIds deletedIds (entityKey key))
  ∧ ((∃ s, OnDeletionsSynced s ∈ round) →
     key ≠ T_profiles →
     pendingIds deletedIds (entityKey key) ≠ [] →
     RemoteDelete (tableName key)
                  (Some <$> pendingIds deletedIds (entityKey key)) ∈ round).
Proof.
  cbn zeta.
  destruct (syncRound_shape userId localData deletedIds env)
    as [(err & Hfetch & ->)|[(Hfetch & _ & ->)
        |(Hfetch & storageEffects & deleted & flatUpserts & mergedData
          & Hstorage & Hdeleted & ->)]].
  - split; [by intros ids ?%list_elem_of_singleton|].
    by intros [s ?%list_elem_of_singleton].
  - split.
    { intros ids [?|[?|[]%elem_of_nil]%elem_of_cons]%elem_of_cons; done. }
    intros [s [?|[?|[]%elem_of_nil]%elem_of_cons]%elem_of_cons]; done.
  - set (anyDeletes := existsb _ _) in *.
    set (upserted := upsertDataToSupabase _ _ _).
    assert (Hother : ∀ n l e, n ≠ 1%nat →
      Forall (λ e, phase e = None ∨ phase e = Some n) l →
      e ∈ l → phase e = Some 1%nat → False).
    { intros n l e Hn Hl Hin Hph. rewrite Forall_forall in Hl.
      destruct (Hl _ Hin) as [E|E]; rewrite E in Hph; [done|].
      injection Hph as ->. done. }
    split.
    + intros ids Hin.
      assert (Hd : RemoteDelete (tableName key) ids
                     ∈ (deleteDataFromSupabase (deleteError env)
                          (flatDeletesOf deletedIds)).1).
      { apply elem_of_app in Hin as [Hin|Hin].
        { by destruct (Hother 0%nat _ _ ltac:(done) Hstorage Hin). }
        apply elem_of_app in Hin as [Hin|Hin].
        { subst deleted. destruct anyDeletes; [|by apply elem_of_nil in Hin].
          by apply elem_of_cons in Hin as [?|?]. }
        exfalso. destruct deleted.2.
        { by apply list_elem_of_singleton in Hin. }
        apply elem_of_cons in Hin as [?|Hin]; [done|].
        apply elem_of_app in Hin as [Hin|Hin].
        { by apply (Hother 2%nat _ _ ltac:(done) (upsert_phase _) Hin). }
        destruct upserted.2.
        { by apply list_elem_of_singleton in Hin. }
        rewrite !elem_of_cons in Hin.
        destruct Hin as [?|[?|[?|[]%elem_of_nil]]]; done. }
      destruct (delete_requests_reached (deleteError env)
                  (flatDeletesOf deletedIds)) as (reached & rest & _ & E & _).
      rewrite E in Hd. by apply elem_of_pending_deletes in Hd as (_ & ?).
    + intros [s Hs] Hkey Hne.
      assert (Hany : anyDeletes = true).
      { apply anyDeletes_spec. by exists key. }
      assert (Hd2 : deleted.2 = None).
      { destruct deleted.2 as [err|]; [exfalso|done].
        apply elem_of_app in Hs as [Hs|Hs].
        { rewrite Forall_forall in Hstorage.
          by destruct (Hstorage _ Hs) as [?|?]. }
        apply elem_of_app in Hs as [Hs|Hs];
          [|by apply list_elem_of_singleton in Hs].
        subst deleted. rewrite Hany in Hs.
        apply elem_of_cons in Hs as [?|Hs]; [done|].
        pose proof (delete_phase (deleteError env)
                      (flatDeletesOf deletedIds)) as Hph.
        rewrite Forall_forall in Hph. by destruct (Hph _ Hs) as [?|?]. }
      rewrite Hany in Hdeleted |- *.
      apply elem_of_app. right. apply elem_of_app. left.
      apply elem_of_cons. right. subst deleted.
      destruct (delete_requests_reached (deleteError env)
                  (flatDeletesOf deletedIds)) as (reached & rest & E & -> & H2).
      rewrite (H2 Hd2), app_nil_r in E. subst reached.
      apply elem_of_pending_deletes. split; [|done].
      unfold deletionOrder. destruct key; rewrite !elem_of_cons; tauto.
Qed.

Lemma removeSynced_self (l : list string) : removeSynced l l = [].
Proof.
  unfold removeSynced. destruct l as [|a l]; [done|].
  apply filter_none. intros i Hi Hn. apply Hn. by apply elem_of_list_to_set.
Qed.

Lemma removeSynced_nil (l : list string) : removeSynced l [] = l.
Proof. done. Qed.

(** What a round reports as synced deletions. *)
Lemma reported_deletions userId localData deletedIds env s :
  OnDeletionsSynced s ∈ syncRound userId localData deletedIds env →
  s = if existsb (λ key, negb (isEmpty (tbl key (flatDeletesOf deletedIds))))
                 allTables
      then deletedIds
      else match d_documentPaths deletedIds, storage env with
           | (_ :: _) as paths, Some true =>
               withDocumentPaths paths getInitialDeletedIds
           | _, _ => getInitialDeletedIds
           end.
Proof.
  destruct (syncRound_shape userId localData deletedIds env)
    as [(err & Hfetch & ->)|[(Hfetch & _ & ->)
        |(Hfetch & storageEffects & deleted & flatUpserts & mergedData
          & Hstorage & Hdeleted & ->)]].
  - by intros ?%list_elem_of_singleton.
  - intros [?|[?|[]%elem_of_nil]%elem_of_cons]%elem_of_cons; done.
  - set (anyDeletes := existsb _ _) in *.
    set (upserted := upsertDataToSupabase _ _ _).
    assert (Hph : ∀ n l, n ≠ 4%nat →
      Forall (λ e, phase e = None ∨ phase e = Some n) l →
      OnDeletionsSynced s ∉ l).
    { intros n l Hn Hl Hin. rewrite Forall_forall in Hl.
      destruct (Hl _ Hin) as [?|[=]]; [done|]. by apply Hn. }
    rewrite !elem_of_app.
    intros [Hin|[Hin|Hin]].
    + by apply (Hph 0%nat _ ltac:(done) Hstorage) in Hin.
    + exfalso. revert Hin. apply (Hph 1%nat); [done|].
      destruct anyDeletes; [|done]. subst deleted.
      apply Forall_cons. split; [by left|]. apply delete_phase.
    + destruct deleted.2; [by apply list_elem_of_singleton in Hin|].
      apply elem_of_cons in Hin as [?|Hin]; [done|].
      apply elem_of_app in Hin as [Hin|Hin].
      { by apply (Hph 2%nat _ ltac:(done) (upsert_phase _)) in Hin. }
      destruct upserted.2; [by apply list_elem_of_singleton in Hin|].
      rewrite !elem_of_cons in Hin.
      destruct Hin as [?|[[= ->]|[?|[]%elem_of_nil]]]; done.
Qed.

(** X24. What is forgotten after a round.  When [handleDeletionsSynced]
    receives what the round reports: if some row deletion was pending, no
    pending deletion is left at all, the document paths (whatever the
    storage answered) and the [profiles] deletions (which are never sent)
    included; otherwise nothing is forgotten but the document paths, and
    those only when the storage removed them. *)
Theorem pending_deletions_after_a_round
    (userId effectiveUserId : string) (localData : AppData)
    (deletedIds : DeletedIds) (env : RemoteAnswers) (s : DeletedIds) :
  OnDeletionsSynced s ∈ syncRound userId localData deletedIds env →
  (rowDeletionsPending deletedIds →
     handleDeletionsSynced (Some effectiveUserId) deletedIds s
     = getInitialDeletedIds)
  ∧ (¬ rowDeletionsPending deletedIds →
     handleDeletionsSynced (Some effectiveUserId) deletedIds s
     = match storage env with
       | Some true => withDocumentPaths [] deletedIds
       | _ => deletedIds
       end).
Proof.
  intros ->%reported_deletions.
  destruct (existsb _ _) eqn:Hany.
  - split; [|by intros []; apply anyDeletes_spec].
    intros _. unfold handleDeletionsSynced.
    by rewrite !removeSynced_self.
  - split.
    { intros Hp%anyDeletes_spec. by rewrite Hp in Hany. }
    intros _. unfold handleDeletionsSynced.
    destruct deletedIds as [? ? ? ? ? ? ? ? ? ? ? paths ? ?].
    cbn [d_documentPaths].
    destruct paths as [|p paths], (storage env) as [[]|];
      cbn [d_clients d_cases d_stages d_sessions d_adminTasks d_appointments
           d_accountingEntries d_invoices d_invoiceItems d_assistants
           d_documents d_documentPaths d_profiles d_siteFinances
           getInitialDeletedIds withDocumentPaths];
      rewrite ?removeSynced_nil, ?removeSynced_self; done.
Qed.

Lemma pending_deletions_after_a_round_witness :
  (rowDeletionsPending somePending →
     handleDeletionsSynced (Some "u1") somePending somePending
     = getInitialDeletedIds)
  ∧ (¬ rowDeletionsPending somePending →
     handleDeletionsSynced (Some "u1") somePending somePending
     = match storage silentRemote with
       | Some true => withDocumentPaths [] somePending
       | _ => somePending
       end).
Proof.
  apply (pending_deletions_after_a_round "u1" "u1" noData somePending
           silentRemote somePending).
  vm_compute. repeat constructor.
Defined.

(** X25. The echo keeps the identities: after the records of the merged
    tables are replaced by their echo from the remote store, every table
    has as many records as before, in the same order, and the record at a
    place is either the merged record itself or an echoed record with the
    same id (or name). *)
Theorem echo_keeps_identities
    (upsertedFlatData mergedFlatData : FlatData) (key : table) :
  Forall2 (λ x y, idOrName y = idOrName x
                  ∧ (y = x
                     ∨ y ∈ allTables ≫= (λ k, tbl k upsertedFlatData)))
          (tbl key mergedFlatData)
          (tbl key (applyEcho upsertedFlatData mergedFlatData)).
Proof.
  unfold applyEcho. cbn zeta. rewrite tbl_flatOf.
  apply Forall2_fmap_r, Forall_Forall2_diag, Forall_forall.
  intros x _. unfold compose. cbn beta.
  destruct (itemMap (allTables ≫= (λ key, tbl key upsertedFlatData))
              !! idOrName x) as [y|] eqn:E; simpl.
  - apply itemMap_lookup_Some in E as [Hin Hk]. split; [done|]. by right.
  - split; [done|]. by left.
Qed.

Lemma merged_records_have_an_origin_witness :
  sampleClient ∈ tbl T_clients (flattenData sampleData)
  ∨ sampleClient ∈ tbl T_clients emptyFlat
  ∨ (T_clients = T_case_documents
     ∧ ∃ l, l ∈ tbl T_clients (flattenData sampleData)
            ∧ localState l = Some synced
            ∧ sampleClient = set_isLocalOnly (Some true) l).
Proof.
  apply (merged_records_have_an_origin T_clients getInitialDeletedIds
           (flattenData sampleData) emptyFlat sampleClient).
  decide_by_computation.
Defined.

(** ** The fast path *)

Lemma remoteToLocal_table remote key :
  tbl key (transformRemoteToLocal remote)
  = remoteToLocal key <$> tbl key remote.
Proof. apply tbl_flatOf. Qed.

Lemma remoteToLocal_id key row :
  key ≠ T_assistants →
  id (remoteToLocal key row) = id row
  ∧ updated_at (remoteToLocal key row) = updated_at row.
Proof. by destruct key. Qed.

Lemma refersTo_remoteToLocal key rows ref :
  key ≠ T_assistants →
  refersTo (remoteToLocal key <$> rows) ref ↔ refersTo rows ref.
Proof.
  intros Hkey. unfold refersTo. split.
  - intros (p & (row & -> & Hrow)%list_elem_of_fmap & <-).
    exists row. split; [done|]. symmetry. by apply remoteToLocal_id.
  - intros (row & Hrow & <-). exists (remoteToLocal key row).
    split; [by apply list_elem_of_fmap_2|]. by apply remoteToLocal_id.
Qed.

(** The tables that are not nested come back from the graph as they were. *)
Lemma flatten_construct_top (F : FlatData) (key : table) :
  key ∉ nestedTables → key ≠ T_assistants →
  tbl key (flattenData (constructData F)) = tbl key F.
Proof.
  intros Hnested Hkey.
  destruct key; try done;
    try (exfalso; apply Hnested; unfold nestedTables;
         rewrite !elem_of_cons; tauto);
    cbn [tbl flattenData constructData f_clients f_invoices clients invoices];
    rewrite <-list_fmap_compose; apply list_fmap_id.
Qed.

Lemma nested_cases (F : FlatData) x :
  x ∈ f_cases (flattenData (constructData F))
  ↔ x ∈ f_cases F ∧ refersTo (f_clients F) (client_id x).
Proof.
  cbn [flattenData f_cases]. rewrite list_elem_of_fmap. split.
  - by intros (cs & -> & (y & -> & Hy & Hc)%elem_of_flatCases_construct).
  - intros [Hx Hc]. exists (mkCase x (groupGet (stageMap F) (id x))).
    split; [done|]. apply elem_of_flatCases_construct. by exists x.
Qed.

Lemma nested_stages (F : FlatData) x :
  x ∈ f_stages (flattenData (constructData F))
  ↔ x ∈ f_stages F
    ∧ refersTo (f_cases (flattenData (constructData F))) (case_id x).
Proof.
  cbn [flattenData f_stages f_cases]. rewrite list_elem_of_fmap. split.
  - by intros (st & -> & (y & -> & Hy & Hc)%elem_of_flatStages_construct).
  - intros [Hx Hc]. exists (mkStage x (groupGet (sessionMap F) (id x))).
    split; [done|]. apply elem_of_flatStages_construct. by exists x.
Qed.

Lemma adopts_remote (raw : FlatData) :
  adopts raw (flattenData (constructData (transformRemoteToLocal raw))).
Proof.
  set (F := transformRemoteToLocal raw).
  split; [|split; [|split; [|split; [|split; [|split]]]]].
  - intros key Hkey. destruct (decide (key = T_assistants)) as [->|Hne].
    + cbn [tbl flattenData constructData f_assistants assistants].
      change (f_assistants F) with (tbl T_assistants F). unfold F.
      rewrite remoteToLocal_table, <-!list_fmap_compose.
      by apply list_fmap_ext.
    + rewrite flatten_construct_top by done. apply remoteToLocal_table.
  - intros x. rewrite nested_cases.
    change (f_cases F) with (tbl T_cases F).
    change (f_clients F) with (tbl T_clients F). unfold F.
    rewrite !remoteToLocal_table, list_elem_of_fmap. split.
    + intros [(row & -> & Hrow) Hc]. exists row. split; [done|].
      split; [done|]. by apply refersTo_remoteToLocal in Hc.
    + intros (row & Hrow & -> & Hc). split; [by exists row|].
      by apply refersTo_remoteToLocal.
  - intros x. rewrite nested_stages.
    change (f_stages F) with (tbl T_stages F). unfold F at 1.
    rewrite remoteToLocal_table, list_elem_of_fmap. split.
    + intros [(row & -> & Hrow) Hc]. by exists row.
    + intros (row & Hrow & -> & Hc). split; [by exists row|done].
  - intros x.
    change (f_sessions (flattenData (constructData F)))
      with (flatSessions (constructData F)).
    rewrite elem_of_flatSessions_construct.
    change (f_sessions F) with (tbl T_sessions F). unfold F at 1.
    rewrite remoteToLocal_table, list_elem_of_fmap. split.
    + intros [(row & -> & Hrow) Hc]. by exists row.
    + intros (row & Hrow & -> & Hc). split; [by exists row|done].
  - intros x.
    change (f_invoice_items (flattenData (constructData F)))
      with (flatInvoiceItems (constructData F)).
    rewrite elem_of_flatInvoiceItems_construct.
    change (f_invoice_items F) with (tbl T_invoice_items F).
    change (f_invoices F) with (tbl T_invoices F). unfold F.
    rewrite !remoteToLocal_table, list_elem_of_fmap. split.
    + intros [(row & -> & Hrow) Hc]. exists row. split; [done|].
      split; [done|]. by apply refersTo_remoteToLocal in Hc.
    + intros (row & Hrow & -> & Hc). split; [by exists row|].
      by apply refersTo_remoteToLocal.
  - intros key row. apply remoteToLocal_id.
  - done.
Qed.

(** C8 (as the code has it): when no fetch fails, the six primary
    collections of the local snapshot are empty after the remote deletions
    were applied, some remote table has a row and nothing is pending for
    deletion, the round hands one graph to the caller, reports [synced] and
    does nothing else (no upsert, no delete); and that graph holds the
    remote snapshot in local form, except that a nested row whose parent is
    not in the snapshot is left out. *)
Theorem fast_path_adopts_remote
    (userId : string) (localData : AppData) (deletedIds : DeletedIds)
    (env : RemoteAnswers) (key : table) :
  let localFlatData :=
    applyDeletionsToLocal (flattenData localData) (remoteDeletions env) in
  fetchError env = None →
  f_clients localFlatData = [] →
  f_admin_tasks localFlatData = [] →
  f_appointments localFlatData = [] →
  f_accounting_entries localFlatData = [] →
  f_invoices localFlatData = [] →
  f_case_documents localFlatData = [] →
  tbl key (remoteDataRaw env) ≠ [] →
  (∀ arr, arr ∈ deletedIdsValues deletedIds → arr = []) →
  ∃ freshData,
    syncRound userId localData deletedIds env
    = [OnDataSynced freshData; SetStatus S_synced]
    ∧ Forall (λ e, isRemoteWrite e = false)
             (syncRound userId localData deletedIds env)
    ∧ adopts (remoteDataRaw env) (flattenData freshData).
Proof.
  intros localFlatData Hfetch H1 H2 H3 H4 H5 H6 Hremote Hdel.
  exists (constructData (transformRemoteToLocal (remoteDataRaw env))).
  assert (Hround : syncRound userId localData deletedIds env
    = [OnDataSynced (constructData (transformRemoteToLocal (remoteDataRaw env)));
       SetStatus S_synced]).
  { unfold syncRound. rewrite Hfetch. fold localFlatData.
    unfold isLocalEffectivelyEmpty. rewrite H1, H2, H3, H4, H5, H6.
    rewrite (isRemoteEffectivelyEmpty_false _ _ Hremote).
    by rewrite (hasPendingDeletions_false _ Hdel). }
  split; [done|]. split; [rewrite Hround; by repeat constructor|].
  apply adopts_remote.
Qed.

Lemma fast_path_adopts_remote_witness :
  ∃ freshData,
    syncRound "u1" noData getInitialDeletedIds threeClients
    = [OnDataSynced freshData; SetStatus S_synced]
    ∧ Forall (λ e, isRemoteWrite e = false)
             (syncRound "u1" noData getInitialDeletedIds threeClients)
    ∧ adopts (remoteDataRaw threeClients) (flattenData freshData).
Proof.
  apply (fast_path_adopts_remote "u1" noData getInitialDeletedIds
           threeClients T_clients); try reflexivity.
  - simpl. discriminate.
  - intros arr Harr. simpl in Harr.
    repeat (apply elem_of_cons in Harr as [->|Harr]; [reflexivity|]).
    by apply elem_of_nil in Harr.
Defined.

(** C8 fails for a remote snapshot with an orphan: the fast path is taken,
    and the case whose client is not in the snapshot is in no table of the
    graph the caller receives. *)
Lemma orphan_remote_case_is_not_adopted :
  isLocalEffectivelyEmpty
    (applyDeletionsToLocal (flattenData noData) (remoteDeletions orphanOnly))
  = true
  ∧ isRemoteEffectivelyEmpty (remoteDataRaw orphanOnly) = false
  ∧ hasPendingDeletions getInitialDeletedIds = false
  ∧ f_cases (remoteDataRaw orphanOnly) = [orphanCase]
  ∧ syncRound "u1" noData getInitialDeletedIds orphanOnly
    = [OnDataSynced noData; SetStatus S_synced]
  ∧ ∀ key, tbl key (flattenData noData) = [].
Proof.
  repeat split; try reflexivity. by intros [].
Qed.

(** ** Numeric ids and the pending sets *)

(** X26. A pending deletion of a [site_finances] row is not honoured
    against the remote side.  The ids of that table are numbers and the
    pending sets hold strings, so the test of the remote-only branch never
    matches: whatever is pending, a remote [site_finances] row that no local
    record matches (remote ids pairwise distinct) is in the merged output of
    the round, and the refresh drops no remote [site_finances] row. *)
Theorem pending_site_finances_row_comes_back
    (deletedIds : DeletedIds) (localFlatData remoteFlatData : FlatData)
    (r : item) :
  NoDup (idOrName <$> f_site_finances remoteFlatData) →
  r ∈ f_site_finances remoteFlatData →
  (∀ l, l ∈ f_site_finances localFlatData → idOrName l ≠ idOrName r) →
  r ∈ f_site_finances (mergeAll deletedIds localFlatData remoteFlatData).2
  ∧ dropPending deletedIds T_site_finances (f_site_finances remoteFlatData)
    = f_site_finances remoteFlatData.
Proof.
  intros Hnd Hr Hlocal. split.
  - change (r ∈ (mergeTable T_site_finances deletedIds
                   (tbl T_site_finances localFlatData)
                   (tbl T_site_finances remoteFlatData)).2).
    by apply remote_only_adopted.
  - unfold dropPending. case_decide; [done|]. by apply filter_all.
Qed.

Lemma pending_site_finances_row_comes_back_witness :
  sampleItem "7" 1000
    ∈ f_site_finances (mergeAll financeDeleted emptyFlat financeRemote).2
  ∧ dropPending financeDeleted T_site_finances (f_site_finances financeRemote)
    = f_site_finances financeRemote.
Proof.
  apply (pending_site_finances_row_comes_back financeDeleted emptyFlat
           financeRemote (sampleItem "7" 1000)).
  - decide_by_computation.
  - by left.
  - by intros l ?%elem_of_nil.
Defined.
